(** * JCLRNT, hyperbolic single-view model ([models/sv-hyper.py])

    A shallow embedding of the contrastive losses, the checkpoint resume
    protocol, the epoch loop and the attribute layout of the two model
    classes, together with the properties they satisfy.

    Conventions.
    - A float is a [tval]: a real number or one of the three IEEE specials.
      Rounding and signed zeros are idealised away; division by zero,
      [acosh] below one and arithmetic on infinities behave as torch's do.
    - A 2-D tensor is a [matrix] (column count plus rows), a 1-D tensor a
      list, a 0-D tensor a [tval].  Broadcasting follows torch's rule and
      raises [RuntimeError] on incompatible shapes.
    - A Python exception is an [Err] of the [result] monad.
    - Device placement ([.cuda()]) and the progress line printed every 200
      batches change no value and are left out. *)

From Stdlib Require Import Reals Lra Lia ZArith.
From stdpp Require Import base option list sorting strings pretty gmap.

(** ** Exceptions *)

Inductive pyerr : Set :=
  | TypeError
  | AttributeError
  | IndexError
  | RuntimeError
  | AssertionError
  | UnpicklingError.

Global Instance pyerr_eq_dec : EqDecision pyerr.
Proof. solve_decision. Defined.

Inductive result (A : Type) : Type :=
  | Ok (a : A)
  | Err (e : pyerr).
Arguments Ok {A} a.
Arguments Err {A} e.

Global Instance result_ret : MRet result := fun _ a => Ok a.
Global Instance result_bind : MBind result := fun _ _ f m =>
  match m with
  | Ok a => f a
  | Err e => Err e
  end.
Global Instance result_fmap : FMap result := fun _ _ f m =>
  match m with
  | Ok a => Ok (f a)
  | Err e => Err e
  end.

Definition is_ok {A} (m : result A) : bool :=
  match m with Ok _ => true | Err _ => false end.

(** ** Floats *)

Module Float.

Inductive tval : Type :=
  | Num (x : R)
  | PInf
  | NInf
  | NaN.

Definition Rsign (x : R) : comparison :=
  match total_order_T x 0 with
  | inleft (left _) => Lt
  | inleft (right _) => Eq
  | inright _ => Gt
  end.

Definition signed_inf (c : comparison) : tval :=
  match c with
  | Gt => PInf
  | Lt => NInf
  | Eq => NaN
  end.

Definition tneg (a : tval) : tval :=
  match a with
  | Num x => Num (- x)
  | PInf => NInf
  | NInf => PInf
  | NaN => NaN
  end.

Definition tadd (a b : tval) : tval :=
  match a, b with
  | NaN, _ | _, NaN => NaN
  | Num x, Num y => Num (x + y)
  | PInf, NInf | NInf, PInf => NaN
  | PInf, _ | _, PInf => PInf
  | NInf, _ | _, NInf => NInf
  end.

Definition tsub (a b : tval) : tval := tadd a (tneg b).

Definition tsign (a : tval) : option comparison :=
  match a with
  | Num x => Some (Rsign x)
  | PInf => Some Gt
  | NInf => Some Lt
  | NaN => None
  end.

Definition tmul (a b : tval) : tval :=
  match a, b with
  | NaN, _ | _, NaN => NaN
  | Num x, Num y => Num (x * y)
  | Num x, PInf | PInf, Num x => signed_inf (Rsign x)
  | Num x, NInf | NInf, Num x => signed_inf (CompOpp (Rsign x))
  | PInf, PInf | NInf, NInf => PInf
  | PInf, NInf | NInf, PInf => NInf
  end.

(** [x / 0] is an infinity of the sign of [x], and [0 / 0] is [NaN]. *)
Definition tdiv (a b : tval) : tval :=
  match a, b with
  | NaN, _ | _, NaN => NaN
  | Num x, Num y =>
      match Rsign y with
      | Eq => signed_inf (Rsign x)
      | _ => Num (x / y)
      end
  | Num _, (PInf | NInf) => Num 0
  | PInf, Num y => match Rsign y with Lt => NInf | _ => PInf end
  | NInf, Num y => match Rsign y with Lt => PInf | _ => NInf end
  | (PInf | NInf), (PInf | NInf) => NaN
  end.

Definition tsqrt (a : tval) : tval :=
  match a with
  | Num x => match Rsign x with Lt => NaN | _ => Num (sqrt x) end
  | PInf => PInf
  | NInf | NaN => NaN
  end.

(** The inverse hyperbolic cosine on [1, +oo). *)
Definition Racosh (x : R) : R := ln (x + sqrt (x * x - 1)).

Definition tacosh (a : tval) : tval :=
  match a with
  | Num x => match Rsign (x - 1) with Lt => NaN | _ => Num (Racosh x) end
  | PInf => PInf
  | NInf | NaN => NaN
  end.

Definition tsum (l : list tval) : tval := foldr tadd (Num 0) l.

Definition is_finite (a : tval) : Prop :=
  match a with Num _ => True | _ => False end.

End Float.
Export Float.

(** ** Tensors *)

Module Tensor.

(** A 2-D tensor of shape [(length mrows, ncols)]. *)
Record matrix : Type := Matrix {
  ncols : nat;
  mrows : list (list tval);
}.

Definition nrows (m : matrix) : nat := length (mrows m).

(** The invariant of a 2-D tensor: every row has [ncols] entries. *)
Definition rect (m : matrix) : Prop :=
  Forall (fun r => length r = ncols m) (mrows m).

Definition of_reals (c : nat) (rows : list (list R)) : matrix :=
  Matrix c (map (map Num) rows).

Definition reals_of_row (r : list tval) : option (list R) :=
  mapM (fun a => match a with Num x => Some x | _ => None end) r.

Definition reals_of (m : matrix) : option (list (list R)) :=
  mapM reals_of_row (mrows m).

(** torch's broadcasting rule for one dimension. *)
Definition bdim (n m : nat) : option nat :=
  if decide (n = m) then Some n
  else if decide (n = 1) then Some m
  else if decide (m = 1) then Some n
  else None.

(** Expansion of a size-one dimension to size [n]; identity otherwise. *)
Definition expand {A} (n : nat) (l : list A) : list A :=
  match l with
  | [x] => replicate n x
  | _ => l
  end.

Definition bzip (f : tval -> tval -> tval) (u v : list tval)
  : result (list tval) :=
  match bdim (length u) (length v) with
  | Some n => Ok (zip_with f (expand n u) (expand n v))
  | None => Err RuntimeError
  end.

Definition bcast2 (f : tval -> tval -> tval) (a b : matrix) : result matrix :=
  match bdim (nrows a) (nrows b), bdim (ncols a) (ncols b) with
  | Some r, Some c =>
      Ok (Matrix c
            (zip_with (fun ra rb => zip_with f (expand c ra) (expand c rb))
               (expand r (mrows a)) (expand r (mrows b))))
  | _, _ => Err RuntimeError
  end.

(** A 1-D tensor against a 2-D one: the vector is read as a single row. *)
Definition bcast12 (f : tval -> tval -> tval) (v : list tval) (m : matrix)
  : result matrix :=
  bcast2 f (Matrix (length v) [v]) m.

Definition smap (f : tval -> tval) (m : matrix) : matrix :=
  Matrix (ncols m) (map (map f) (mrows m)).

Definition msum (m : matrix) : tval := tsum (concat (mrows m)).

(** [v.mean()] *)
Definition vmean (v : list tval) : tval :=
  tdiv (tsum v) (Num (INR (length v))).

(** [m.norm(dim=1)]: the Euclidean norm of every row. *)
Definition row_norm (r : list tval) : tval :=
  tsqrt (tsum (map (fun a => tmul a a) r)).
Definition norm_dim1 (m : matrix) : list tval := map row_norm (mrows m).

(** [v ** 2] *)
Definition vsquare (v : list tval) : list tval := map (fun a => tmul a a) v.

(** [torch.eye(n)] and [torch.zeros((r, c))] *)
Definition eye_row (n i : nat) : list tval :=
  map (fun j => if decide (i = j) then Num 1 else Num 0) (seq 0 n).
Definition eye (n : nat) : matrix := Matrix n (map (eye_row n) (seq 0 n)).
Definition zeros (r c : nat) : matrix :=
  Matrix c (replicate r (replicate c (Num 0))).

(** An index into a dimension of the given size; negative indices count
    from the end, anything else is out of range. *)
Definition norm_index (size : nat) (i : Z) : option nat :=
  if decide (0 <= i < Z.of_nat size)%Z then Some (Z.to_nat i)
  else if decide (- Z.of_nat size <= i < 0)%Z
       then Some (Z.to_nat (i + Z.of_nat size))
       else None.

(** [row[idx] = v] for a 1-D integer index tensor [idx]. *)
Fixpoint index_put (row : list tval) (idx : list Z) (v : tval)
  : result (list tval) :=
  match idx with
  | [] => Ok row
  | i :: idx' =>
      match norm_index (length row) i with
      | Some k => index_put (<[k := v]> row) idx' v
      | None => Err IndexError
      end
  end.

(** [m[:, :-1]] *)
Definition drop_last_col (m : matrix) : matrix :=
  Matrix (pred (ncols m)) (map (fun r => take (pred (length r)) r) (mrows m)).

End Tensor.
Export Tensor.

(** ** Geometry utilities and the contrastive loss suite *)

Section Losses.

(** The Sinkhorn divergence that [geomloss.SamplesLoss("sinkhorn", p=2,
    blur=0.05)] computes between two real point clouds.  The library is not
    part of this repository: its value is left abstract, and so are the
    errors it raises on clouds it does not accept. *)
Variable samples_loss : list (list R) -> list (list R) -> R.

(** [hyperbolic_distance(z1, z2)] *)
Definition hyperbolic_distance (z1 z2 : matrix) : result (list tval) :=
  d ← bcast2 tsub z1 z2;
  let num := map (tmul (Num 2)) (vsquare (norm_dim1 d)) in
  q1 ← bzip tdiv num (map (tsub (Num 1)) (vsquare (norm_dim1 z1)));
  q2 ← bzip tdiv q1 (map (tsub (Num 1)) (vsquare (norm_dim1 z2)));
  Ok (map tacosh (map (tadd (Num 1)) q2)).

(** [sliced_wasserstein_distance(z1, z2)]: a 0-D tensor.  This is the
    value on clouds the library accepts; for a cloud with a non-finite
    coordinate, where the library raises, the placeholder is [NaN]. *)
Definition sliced_wasserstein_distance (z1 z2 : matrix) : tval :=
  match reals_of z1, reals_of z2 with
  | Some a, Some b => Num (samples_loss a b)
  | _, _ => NaN
  end.

(** [node_node_loss(node_rep1, node_rep2)] *)
Definition node_node_loss (node_rep1 node_rep2 : matrix) : result tval :=
  let num_nodes := nrows node_rep1 in
  let pos_mask := eye num_nodes in
  d ← hyperbolic_distance node_rep1 node_rep2;
  p ← bcast12 tmul d pos_mask;
  Ok (tdiv (msum p) (msum pos_mask)).

(** [seq_seq_loss(seq_rep1, seq_rep2)] *)
Definition seq_seq_loss (seq_rep1 seq_rep2 : matrix) : result tval :=
  let batch_size := nrows seq_rep1 in
  let pos_mask := eye batch_size in
  let w := sliced_wasserstein_distance seq_rep1 seq_rep2 in
  Ok (tdiv (msum (smap (tmul w) pos_mask)) (msum pos_mask)).

(** The loop [for row_idx, row in enumerate(sequences):
    pos_mask[row_idx][row] = 1.] *)
Fixpoint mark_rows (mask : list (list tval)) (row_idx : nat)
    (sequences : list (list Z)) : result (list (list tval)) :=
  match sequences with
  | [] => Ok mask
  | row :: rest =>
      match mask !! row_idx with
      | None => Err IndexError
      | Some r =>
          r' ← index_put r row (Num 1);
          mark_rows (<[row_idx := r']> mask) (S row_idx) rest
      end
  end.

(** The mask of [node_seq_loss] before its last column is sliced off. *)
Definition pos_mask_full (batch_size num_nodes : nat)
    (sequences : list (list Z)) : result matrix :=
  rows ← mark_rows (mrows (zeros batch_size (num_nodes + 1))) 0 sequences;
  Ok (Matrix (num_nodes + 1) rows).

(** [node_seq_loss(node_rep, seq_rep, sequences)] *)
Definition node_seq_loss (node_rep seq_rep : matrix)
    (sequences : list (list Z)) : result tval :=
  let batch_size := nrows seq_rep in
  let num_nodes := nrows node_rep in
  full ← pos_mask_full batch_size num_nodes sequences;
  let pos_mask := drop_last_col full in
  let w := sliced_wasserstein_distance seq_rep node_rep in
  let masked := tdiv (msum (smap (tmul w) pos_mask)) (msum pos_mask) in
  d ← hyperbolic_distance seq_rep node_rep;
  Ok (tadd masked (vmean d)).

(** [weighted_ns_loss(node_rep, seq_rep, weights)] *)
Definition weighted_ns_loss (node_rep seq_rep weights : matrix) : result tval :=
  let w := sliced_wasserstein_distance seq_rep node_rep in
  Ok (tdiv (msum (smap (tmul w) weights)) (msum weights)).

End Losses.

(** ** Python calls *)

Module Py.

(** The values that reach the loss functions from the training loop. *)
Inductive pyval : Type :=
  | VMatrix (m : matrix)
  | VFloat (x : tval)
  | VTokens (rows : list (list Z))
  | VInt (z : Z)
  | VStr (s : string).

(** A [def] with a fixed number of positional parameters and no defaults. *)
Record pydef : Type := Def {
  arity : nat;
  body : list pyval -> result pyval;
}.

(** A call with the wrong number of positional arguments raises
    [TypeError] before the body runs. *)
Definition call (f : pydef) (args : list pyval) : result pyval :=
  if decide (length args = arity f) then body f args else Err TypeError.

(** [range(a, b)] *)
Definition py_range (a b : Z) : list Z :=
  map (fun i => (a + Z.of_nat i)%Z) (seq 0 (Z.to_nat (b - a))).

(** [sorted] on a list of [str]: ascending in the order of [str], which
    compares character codes from the left. *)
Definition sorted (l : list string) : list string := merge_sort String.le l.

End Py.
Export Py.

Section LossDefs.

Variable samples_loss : list (list R) -> list (list R) -> R.

(** The four module-level [def]s as the training loop sees them. *)
Definition node_node_loss_def : pydef :=
  Def 2 (fun args =>
    match args with
    | [VMatrix a; VMatrix b] => VFloat <$> node_node_loss a b
    | _ => Err AttributeError
    end).

Definition seq_seq_loss_def : pydef :=
  Def 2 (fun args =>
    match args with
    | [VMatrix a; VMatrix b] => VFloat <$> seq_seq_loss samples_loss a b
    | _ => Err AttributeError
    end).

Definition node_seq_loss_def : pydef :=
  Def 3 (fun args =>
    match args with
    | [VMatrix a; VMatrix b; VTokens s] =>
        VFloat <$> node_seq_loss samples_loss a b s
    | _ => Err AttributeError
    end).

Definition weighted_ns_loss_def : pydef :=
  Def 3 (fun args =>
    match args with
    | [VMatrix a; VMatrix b; VMatrix w] =>
        VFloat <$> weighted_ns_loss samples_loss a b w
    | _ => Err AttributeError
    end).

End LossDefs.

(** ** Checkpoints and the training loop *)

Record config : Type := Config {
  drop_edge_rate : R;
  drop_road_rate : R;
  num_epochs : Z;
  batch_size : nat;
  loss_measure : string;
  weighted_loss : bool;
  mode : string;
  lambda_st : R;
  num_samples : Z;
  retrain : bool;
}.

Section Training.

(** Model parameters and optimizer state are opaque here. *)
Context {Params OptState Rng : Type}.

Record checkpoint : Type := Checkpoint {
  epoch : Z;
  model_state_dict : Params;
  optimizer_state_dict : OptState;
}.

(** What a file of the save directory holds. *)
Inductive file : Type :=
  | FCheckpoint (c : checkpoint)
  | FOther.

Record train_state : Type := TrainState {
  st_model : Params;
  st_optimizer : OptState;
  st_rng : Rng;
}.

Variable samples_loss : list (list R) -> list (list R) -> R.
(** [str] of a Python float. *)
Variable str_float : R -> string.
(** [utils.weight_init] applied to every submodule. *)
Variable weight_init : Params -> Params.
(** [utils.next_batch_index(n, batch_size)] *)
Variable next_batch_index : nat -> nat -> list (list nat).
(** [model(data_batch, drop_edge_rate, drop_road_rate)]: one stochastic
    forward pass of [SingleViewModel]. *)
Variable model_forward :
  Params -> Rng -> list (list Z) -> R -> R -> result (matrix * matrix) * Rng.
(** [loss.backward(); optimizer.step()] *)
Variable optimizer_step :
  Params -> OptState -> list (list Z) -> tval -> Params * OptState.

(** [model_name] *)
Definition model_name (cfg : config) : string :=
  String.concat "_"
    ["sv"; str_float (lambda_st cfg); pretty (num_samples cfg); mode cfg].

(** ["_".join([model_name, f'{epoch}.pt'])] *)
Definition checkpoint_name (cfg : config) (e : Z) : string :=
  String.concat "_" [model_name cfg; pretty e +:+ ".pt"].

(** [os.listdir(save_path)] *)
Definition listdir (fs : gmap string file) : list string :=
  (map_to_list fs).*1.

(** [[f for f in os.listdir(save_path) if f.startswith(model_name)]] *)
Definition checkpoints_of (cfg : config) (fs : gmap string file)
  : list string :=
  filter (fun f => String.prefix (model_name cfg) f = true) (listdir fs).

(** [sorted(checkpoints)[-1]] *)
Definition latest (checkpoints : list string) : option string :=
  last (sorted checkpoints).

(** [torch.load(checkpoint_path)] *)
Definition torch_load (fs : gmap string file) (path : string)
  : result checkpoint :=
  match fs !! path with
  | Some (FCheckpoint c) => Ok c
  | Some FOther => Err UnpicklingError
  | None => Err RuntimeError
  end.

(** The resume-or-fresh step: the state training starts from and
    [current_epoch]. *)
Definition resume (cfg : config) (fs : gmap string file)
    (model : Params) (optimizer : OptState)
  : result (Params * OptState * Z) :=
  let checkpoints := checkpoints_of cfg fs in
  if negb (retrain cfg) && negb (bool_decide (checkpoints = [])) then
    match latest checkpoints with
    | None => Err IndexError
    | Some checkpoint_path =>
        c ← torch_load fs checkpoint_path;
        Ok (model_state_dict c, optimizer_state_dict c, (epoch c + 1)%Z)
    end
  else Ok (weight_init model, optimizer, 1%Z).

(** The loss of one batch, from the two views' representations. *)
Definition batch_loss (cfg : config)
    (node_rep1 seq_rep1 node_rep2 seq_rep2 : matrix)
    (data_batch : list (list Z)) (w_batch : pyval) : result tval :=
  let measure := VStr (loss_measure cfg) in
  let l_st := Num (lambda_st cfg) in
  let l_ss := tmul (Num (1 / 2)) (tsub (Num 1) l_st) in
  let l_tt := l_ss in
  let as_float (v : pyval) : result tval :=
    match v with VFloat x => Ok x | _ => Err TypeError end in
  loss_ss ← call node_node_loss_def
              [VMatrix node_rep1; VMatrix node_rep2; measure]
            ≫= as_float;
  loss_tt ← call (seq_seq_loss_def samples_loss)
              [VMatrix seq_rep1; VMatrix seq_rep2; measure]
            ≫= as_float;
  st ← (if weighted_loss cfg then
          loss_st1 ← call (weighted_ns_loss_def samples_loss)
                       [VMatrix node_rep1; VMatrix seq_rep2; w_batch; measure]
                     ≫= as_float;
          loss_st2 ← call (weighted_ns_loss_def samples_loss)
                       [VMatrix node_rep2; VMatrix seq_rep1; w_batch; measure]
                     ≫= as_float;
          Ok (loss_st1, loss_st2)
        else
          loss_st1 ← call (node_seq_loss_def samples_loss)
                       [VMatrix node_rep1; VMatrix seq_rep2;
                        VTokens data_batch; measure]
                     ≫= as_float;
          loss_st2 ← call (node_seq_loss_def samples_loss)
                       [VMatrix node_rep2; VMatrix seq_rep1;
                        VTokens data_batch; measure]
                     ≫= as_float;
          Ok (loss_st1, loss_st2));
  let loss_st := tdiv (tadd st.1 st.2) (Num 2) in
  Ok (tadd (tadd (tmul l_ss loss_ss) (tmul l_tt loss_tt)) (tmul l_st loss_st)).

(** [data[batch_index]] *)
Definition select_rows {A} (data : list A) (batch_index : list nat)
  : result (list A) :=
  mapM (fun i => match data !! i with
                 | Some r => Ok r
                 | None => Err IndexError
                 end) batch_index.

(** The body of the batch loop. *)
Definition train_batch (cfg : config) (data : list (list Z))
    (w_rt : option (list (list tval)))
    (st : train_state) (batch_index : list nat) : result train_state :=
  data_batch ← select_rows data batch_index;
  w_batch ← match w_rt with
            | Some w =>
                rows ← select_rows w batch_index;
                Ok (VMatrix (Matrix (default 0 (length <$> head w)) rows))
            | None => Ok (VInt 0)
            end;
  let '(out1, rng1) :=
    model_forward (st_model st) (st_rng st) data_batch
      (drop_edge_rate cfg) (drop_road_rate cfg) in
  '(node_rep1, seq_rep1) ← out1;
  let '(out2, rng2) :=
    model_forward (st_model st) rng1 data_batch
      (drop_edge_rate cfg) (drop_road_rate cfg) in
  '(node_rep2, seq_rep2) ← out2;
  loss ← batch_loss cfg node_rep1 seq_rep1 node_rep2 seq_rep2
           data_batch w_batch;
  let '(m, o) :=
    optimizer_step (st_model st) (st_optimizer st) data_batch loss in
  Ok (TrainState m o rng2).

(** The epoch loop over an arbitrary batch body.  Checkpoints written
    before an exception stay on disk, so the directory is returned beside
    the outcome. *)
Section EpochLoop.

Variable step : train_state -> list nat -> result train_state.

Fixpoint run_batches (st : train_state) (batches : list (list nat))
  : result train_state :=
  match batches with
  | [] => Ok st
  | b :: rest => st' ← step st b; run_batches st' rest
  end.

(** [torch.save({...}, os.path.join(save_path, name))] *)
Definition torch_save (cfg : config) (e : Z) (st : train_state)
    (fs : gmap string file) : gmap string file :=
  <[checkpoint_name cfg e :=
      FCheckpoint (Checkpoint e (st_model st) (st_optimizer st))]> fs.

Fixpoint run_epochs (cfg : config) (batches : list (list nat))
    (epochs : list Z) (st : train_state) (fs : gmap string file)
  : gmap string file * result train_state :=
  match epochs with
  | [] => (fs, Ok st)
  | e :: rest =>
      match run_batches st batches with
      | Ok st' => run_epochs cfg batches rest st' (torch_save cfg e st' fs)
      | Err x => (fs, Err x)
      end
  end.

(** Everything in [train] after [current_epoch] is known. *)
Definition train_from (cfg : config) (data_rows : nat)
    (current_epoch : Z) (st : train_state) (fs : gmap string file)
  : gmap string file * result train_state :=
  if decide (current_epoch < num_epochs cfg)%Z then
    run_epochs cfg (next_batch_index data_rows (batch_size cfg))
      (py_range current_epoch (num_epochs cfg + 1)) st fs
  else (fs, Ok st).

End EpochLoop.

(** [train]: the freshly constructed model and optimizer, the save
    directory and the loaded data go in; the directory afterwards and the
    trained state (or the exception) come out. *)
Definition train (cfg : config) (fs : gmap string file)
    (model : Params) (optimizer : OptState) (rng : Rng)
    (data : list (list Z)) (w_rt : option (list (list tval)))
  : gmap string file * result train_state :=
  match resume cfg fs model optimizer with
  | Err x => (fs, Err x)
  | Ok (m, o, current_epoch) =>
      train_from (train_batch cfg data w_rt) cfg (length data)
        current_epoch (TrainState m o rng) fs
  end.

End Training.

Arguments checkpoint : clear implicits.
Arguments file : clear implicits.
Arguments train_state : clear implicits.

(** ** The model classes, at the level of shapes and attributes

    A tensor is abstracted to its shape [(rows, columns)]; an instance is
    the table of attributes its constructor assigns. *)

Module Model.

Definition shape : Type := nat * nat.

(** A graph convolution layer [GATConv(in, out)] (one head). *)
Record conv : Type := Conv { conv_in : nat; conv_out : nat }.

Inductive attr : Type :=
  | AInt (n : nat)
  | AStr (s : string)
  | AEdges (edges : list (nat * nat))
  | AEmbedding (weight : shape)
  | ATensor (s : shape)
  | AGraphEncoder (layers : list conv)
  | ASeqEncoder (d_model : nat).

(** [self.name]: a name the constructor never assigned raises
    [AttributeError]. *)
Definition getattr (self : gmap string attr) (name : string) : result attr :=
  match self !! name with
  | Some v => Ok v
  | None => Err AttributeError
  end.

(** A layer applied to node features of shape [(n, f)]: the linear map
    inside it needs [f] to be the layer's input width. *)
Definition conv_forward (l : conv) (x : shape) : result shape :=
  if decide (x.2 = conv_in l) then Ok (x.1, conv_out l) else Err RuntimeError.

(** [GraphEncoder.__init__]: the first layer maps the input width to the
    output width, the others keep the output width. *)
Definition GraphEncoder (input_size output_size num_layers : nat)
  : list conv :=
  Conv input_size output_size
    :: replicate (pred num_layers) (Conv output_size output_size).

(** [HyperbolicGraphEncoder.__init__]: every layer is built with the
    input width and the output width. *)
Definition HyperbolicGraphEncoder (input_size output_size num_layers : nat)
  : list conv :=
  replicate num_layers (Conv input_size output_size).

(** [forward] of either graph encoder: the layers in order; the
    activation and the exponential and logarithmic maps keep the shape. *)
Fixpoint graph_forward (layers : list conv) (x : shape) : result shape :=
  match layers with
  | [] => Ok x
  | l :: rest => y ← conv_forward l x; graph_forward rest y
  end.

(** [torch.cat([a, b], 0)] *)
Definition cat0 (a b : shape) : result shape :=
  if decide (a.2 = b.2) then Ok (a.1 + b.1, a.2) else Err RuntimeError.

(** [SingleViewModel.__init__] *)
Definition SingleViewModel (vocab_size embed_size hidden_size : nat)
    (edge_index : list (nat * nat)) (graph_encoder : list conv)
    (seq_encoder : nat) (mode : string) : gmap string attr :=
  <["mode" := AStr mode]>
  (<["seq_encoder" := ASeqEncoder seq_encoder]>
  (<["graph_encoder" := AGraphEncoder graph_encoder]>
  (<["padding" := ATensor (1, hidden_size)]>
  (<["node_embedding" := AEmbedding (vocab_size, embed_size)]>
  (<["edge_index" := AEdges edge_index]>
  (<["vocab_size" := AInt vocab_size]> ∅)))))).

(** [UpdatedSingleViewModel.__init__] *)
Definition UpdatedSingleViewModel (vocab_size embed_size hidden_size : nat)
    (edge_index : list (nat * nat)) (seq_encoder : nat) (mode : string)
  : gmap string attr :=
  <["mode" := AStr mode]>
  (<["seq_encoder" := ASeqEncoder seq_encoder]>
  (<["graph_encoder" :=
       AGraphEncoder (HyperbolicGraphEncoder embed_size hidden_size 2)]>
  (<["node_embedding" := AEmbedding (vocab_size, embed_size)]>
  (<["edge_index" := AEdges edge_index]>
  (<["vocab_size" := AInt vocab_size]> ∅))))).

Definition as_embedding (a : attr) : result shape :=
  match a with AEmbedding w => Ok w | _ => Err AttributeError end.
Definition as_tensor (a : attr) : result shape :=
  match a with ATensor s => Ok s | _ => Err TypeError end.
Definition as_layers (a : attr) : result (list conv) :=
  match a with AGraphEncoder l => Ok l | _ => Err TypeError end.
Definition as_seq_encoder (a : attr) : result nat :=
  match a with ASeqEncoder d => Ok d | _ => Err TypeError end.

(** [mode == 'p'] *)
Definition is_plain (mode : attr) : bool :=
  match mode with
  | AStr s => bool_decide (s = "p")
  | _ => false
  end.

(** [encode_graph(self, drop_rate)], the same text in both classes.
    Dropping edges does not change a shape. *)
Definition encode_graph (self : gmap string attr) (drop_rate : R)
  : result shape :=
  node_emb ← getattr self "node_embedding" ≫= as_embedding;
  _ ← getattr self "edge_index";
  layers ← getattr self "graph_encoder" ≫= as_layers;
  graph_forward layers node_emb.

(** [max_len] of the [PositionalEncoding] that [TransformerModel]
    builds. *)
Definition pe_max_len : nat := 5000.

(** [TransformerModel.forward] of a model of width [d_model] on a
    non-empty input of shape [(t, b, w)].  The positional encoding adds
    [pe[:t]], of shape [(min t max_len, 1, d_model)], by broadcasting, so
    an input of width one is widened; the attention layers then assert
    the width [d_model]. *)
Definition TransformerModel_forward (d_model : nat) (x : nat * nat * nat)
  : result (nat * nat * nat) :=
  let '(t, b, w) := x in
  match bdim t (t `min` pe_max_len), bdim w d_model with
  | Some t', Some w' =>
      if decide (w' = d_model) then Ok (t', b, w') else Err AssertionError
  | _, _ => Err RuntimeError
  end.

(** [encode_sequence(self, sequences, drop_rate)], the same text in both
    classes; [sequences] has shape [(batch_size, max_seq_len)] and token
    ids in [[0, vocab_size]].  [view(batch_size, max_seq_len, -1)] cannot
    infer the last dimension of a batch without elements; the pooled
    result has one row per sequence. *)
Definition encode_sequence (self : gmap string attr) (sequences : shape)
    (drop_rate : R) : result shape :=
  mode ← getattr self "mode";
  lookup_table ←
    (if is_plain mode then
       w ← getattr self "node_embedding" ≫= as_embedding;
       p ← getattr self "padding" ≫= as_tensor;
       cat0 w p
     else
       node_enc ← encode_graph self 0;
       p ← getattr self "padding" ≫= as_tensor;
       cat0 node_enc p);
  let '(batch_size, max_seq_len) := sequences in
  _ ← getattr self "vocab_size";
  if decide (batch_size * max_seq_len = 0) then Err RuntimeError
  else
    d_model ← getattr self "seq_encoder" ≫= as_seq_encoder;
    seq_enc ← TransformerModel_forward d_model
                (max_seq_len, batch_size, lookup_table.2);
    Ok (batch_size, seq_enc.2).

(** [forward(self, sequences, drop_edge_rate, drop_road_rate)] *)
Definition forward (self : gmap string attr) (sequences : shape)
    (drop_edge_rate drop_road_rate : R) : result (shape * shape) :=
  node_rep ← encode_graph self drop_edge_rate;
  seq_rep ← encode_sequence self sequences drop_road_rate;
  Ok (node_rep, seq_rep).

End Model.

(** ** Reference notions used to state the properties *)

(** The sum of a list of reals. *)
Definition rsum (l : list R) : R := foldr Rplus 0%R l.

(** The Euclidean norm of a real vector. *)
Definition enorm (a : list R) : R := sqrt (rsum (map (fun x => x * x)%R a)).

(** The geodesic distance of the Poincare ball between two points, the
    way the specification writes it:
    [acosh(1 + 2 |a - b|^2 / ((1 - |a|^2) (1 - |b|^2)))]. *)
Definition poincare_distance (a b : list R) : R :=
  Racosh (1 + 2 * enorm (zip_with Rminus a b) ^ 2
              / ((1 - enorm a ^ 2) * (1 - enorm b ^ 2))).

(** What [hyperbolic_distance] computes for one pair of rows. *)
Definition pair_distance (ra rb : list tval) : tval :=
  let sq a := tmul a a in
  tacosh
    (tadd (Num 1)
       (tdiv
          (tdiv (tmul (Num 2) (sq (row_norm (zip_with tsub ra rb))))
             (tsub (Num 1) (sq (row_norm ra))))
          (tsub (Num 1) (sq (row_norm rb))))).

(** Membership of a token in a row of the batch. *)
Definition marked (sequences : list (list Z)) (i t : nat) : bool :=
  bool_decide (Z.of_nat t ∈ default [] (sequences !! i)).

(** Entry [(i, t)] of a 2-D tensor. *)
Definition entry (m : matrix) (i t : nat) : option tval :=
  mrows m !! i ≫= fun r => r !! t.

(** A list of floats that are all the real number zero. *)
Definition all_zero (l : list tval) : Prop :=
  Forall (fun t => exists x, t = Num x /\ x = 0%R) l.

(** Two point clouds on which the transport cost of the library is
    defined: both are non-empty and finite, they have the same width, and
    their points are not all the same (the cost is computed at scales
    that start from the diameter of the two clouds together).  On other
    inputs [SamplesLoss] raises an error of its own, which the total
    [samples_loss] does not show. *)
Definition proper_clouds (x y : matrix) : Prop :=
  exists a b,
    reals_of x = Some a /\ reals_of y = Some b
    /\ a <> [] /\ b <> []
    /\ rect x /\ rect y /\ ncols x = ncols y
    /\ exists p q, p ∈ a ++ b /\ q ∈ a ++ b /\ p <> q.

(** A run of the training script: primary weight 0.5, ten samples, plain
    lookup mode, twenty epochs. *)
Definition run_cfg : config :=
  Config 0 0 20 64 "jsd" false "p" (1 / 2) 10 false.
Definition run_str_float (x : R) : string := "0.5".

(** The save directory after the given epochs were checkpointed; the
    state saved at epoch [e] is tagged with [e]. *)
Definition saved_epochs (epochs : list Z) : gmap string (file Z Z) :=
  foldr (fun e fs =>
           torch_save (Rng := unit) run_str_float run_cfg e
             (TrainState e e tt) fs) ∅ epochs.

(** ** Augmentation *)

(** The comparison [u < p] of two floats. *)
Global Instance Rlt_decision (x y : R) : Decision (x < y)%R := Rlt_dec x y.

(** [random_mask(x, mask_token, mask_prob)].  [draws] is the tensor that
    [uniform_(0, 1)] fills: it has the shape of [x], and its entries lie in
    [[0, 1)].  The input is cloned, so the caller's tensor is untouched. *)
Definition random_mask (draws : list (list R)) (x : list (list Z))
    (mask_token : Z) (mask_prob : R) : list (list Z) :=
  let mask_pos := map (map (fun u => bool_decide (u < mask_prob)%R)) draws in
  zip_with (zip_with (fun (p : bool) t => if p then mask_token else t))
    mask_pos x.

(** ** Sequence encoding, at the level of values

    A 3-D tensor of shape [(max_seq_len, batch_size, width)] is a list of
    [max_seq_len] slabs, each a list of [batch_size] vectors. *)

Module SeqValues.

(** [torch.cat([a, b], 0)] *)
Definition cat_rows (a b : matrix) : result matrix :=
  if decide (ncols a = ncols b) then Ok (Matrix (ncols a) (mrows a ++ mrows b))
  else Err RuntimeError.

(** One index of [torch.index_select(table, 0, index)]: it must lie in
    [[0, nrows table)]. *)
Definition select_row (table : matrix) (i : Z) : result (list tval) :=
  if decide (0 <= i)%Z then
    match mrows table !! Z.to_nat i with
    | Some r => Ok r
    | None => Err IndexError
    end
  else Err IndexError.

(** [m.transpose(0, 1)] of a tensor whose first two dimensions are
    [(length m, c)]. *)
Definition transpose01 {A} (c : nat) (m : list (list A)) : list (list A) :=
  map (fun j => omap (fun row => row !! j) m) (seq 0 c).

(** [torch.index_select(lookup_table, 0, sequences.view(-1))
      .view(batch_size, max_seq_len, -1).transpose(0, 1)], where
    [batch_size] is the number of sequences.  [view] cannot infer the
    dimension [-1] when the other two multiply to zero. *)
Definition seq_emb (lookup_table : matrix) (max_seq_len : nat)
    (sequences : list (list Z)) : result (list (list (list tval))) :=
  rows ← mapM (mapM (select_row lookup_table)) sequences;
  if decide (length sequences * max_seq_len = 0) then Err RuntimeError
  else Ok (transpose01 max_seq_len rows).

(** [sequences == self.vocab_size] *)
Definition src_key_padding_mask (sequences : list (list Z)) (vocab_size : nat)
  : list (list bool) :=
  map (map (fun t => bool_decide (t = Z.of_nat vocab_size))) sequences.

(** [(1 - src_key_padding_mask.int()).transpose(0, 1)]; the trailing unit
    dimension of [unsqueeze(-1)] is the broadcast over the width. *)
Definition pool_mask (max_seq_len : nat) (mask : list (list bool))
  : list (list tval) :=
  transpose01 max_seq_len
    (map (map (fun p : bool => if p then Num 0 else Num 1)) mask).

(** [t.sum(0)] for a tensor of shape [(_, b, d)] and for one of shape
    [(_, b)]. *)
Definition sum0 (b d : nat) (t : list (list (list tval))) : list (list tval) :=
  foldr (zip_with (zip_with tadd)) (replicate b (replicate d (Num 0))) t.
Definition sum0_mask (b : nat) (t : list (list tval)) : list tval :=
  foldr (zip_with tadd) (replicate b (Num 0)) t.

(** [(seq_enc * pool_mask).sum(0) / pool_mask.sum(0)] *)
Definition seq_pooled (batch_size width : nat)
    (seq_enc : list (list (list tval))) (pm : list (list tval))
  : list (list tval) :=
  let masked :=
    zip_with (zip_with (fun vec m => map (fun x => tmul x m) vec)) seq_enc pm in
  zip_with (fun vec c => map (fun x => tdiv x c) vec)
    (sum0 batch_size width masked) (sum0_mask batch_size pm).

Section EncodeSequence.

(** [self.seq_encoder(seq_emb, None, src_key_padding_mask)] and
    [self.encode_graph()]: library layers, left abstract. *)
Variable seq_encoder :
  list (list (list tval)) -> list (list bool) -> list (list (list tval)).
Variable encode_graph : matrix -> result matrix.

(** [SingleViewModel.encode_sequence] on values.  [weight] is
    [self.node_embedding.weight], [padding] is [self.padding], and
    [sequences] has shape [(length sequences, max_seq_len)]. *)
Definition encode_sequence (mode : string) (vocab_size : nat)
    (weight padding : matrix) (draws : list (list R))
    (max_seq_len : nat) (sequences : list (list Z)) (drop_rate : R)
  : result (list (list tval)) :=
  lookup_table ←
    (if bool_decide (mode = "p") then cat_rows weight padding
     else node_enc ← encode_graph weight; cat_rows node_enc padding);
  let batch_size := length sequences in
  let sequences := random_mask draws sequences (Z.of_nat vocab_size) drop_rate in
  let mask := src_key_padding_mask sequences vocab_size in
  let pm := pool_mask max_seq_len mask in
  emb ← seq_emb lookup_table max_seq_len sequences;
  let seq_enc := seq_encoder emb mask in
  Ok (seq_pooled batch_size (ncols lookup_table) seq_enc pm).

End EncodeSequence.

End SeqValues.

(** ** Graph encoders: the forward passes as written *)

Module Encoders.

(** [GraphEncoder.forward]: [for i in range(self.num_layers)], applying
    [self.layers[i]]. *)
Fixpoint layers_by_index (layers : list Model.conv) (indices : list nat)
    (x : Model.shape) : result Model.shape :=
  match indices with
  | [] => Ok x
  | i :: rest =>
      match layers !! i with
      | Some l => y ← Model.conv_forward l x; layers_by_index layers rest y
      | None => Err IndexError
      end
  end.

Definition GraphEncoder_forward (input_size output_size num_layers : nat)
    (x : Model.shape) : result Model.shape :=
  layers_by_index (Model.GraphEncoder input_size output_size num_layers)
    (seq 0 num_layers) x.

(** [HyperbolicGraphEncoder.forward]: [for layer in self.layers]. *)
Definition HyperbolicGraphEncoder_forward
    (input_size output_size num_layers : nat) (x : Model.shape)
  : result Model.shape :=
  Model.graph_forward
    (Model.HyperbolicGraphEncoder input_size output_size num_layers) x.

End Encoders.

(** ** Positional encoding *)

Module Positional.

(** How a constructor call ends: the value built, one of torch's errors,
    or Python's [ZeroDivisionError]. *)
Inductive init_result (A : Type) : Type :=
  | Built (a : A)
  | Raised (e : pyerr)
  | RaisedZeroDivision.
Arguments Built {A} a.
Arguments Raised {A} e.
Arguments RaisedZeroDivision {A}.

(** [torch.arange(0, dim, 2)] *)
Definition arange_step2 (dim : nat) : list nat :=
  map (fun c => 2 * c) (seq 0 ((dim + 1) / 2)).

(** [torch.exp(torch.arange(0, dim, 2).float()
      * (-math.log(10000.0) / dim))] *)
Definition div_term (dim : nat) : list R :=
  map (fun k => exp (INR k * (- ln 10000 / INR dim)))%R (arange_step2 dim).

(** [torch.arange(0, max_len, dtype=torch.float)] *)
Definition position (max_len : nat) : list R := map INR (seq 0 max_len).

(** [position.unsqueeze(1) * div_term] *)
Definition angles (max_len dim : nat) : list (list R) :=
  map (fun p => map (fun w => p * w)%R (div_term dim)) (position max_len).

(** The number of columns [start, start + 2, ...] below [size]. *)
Definition strided_count (start size : nat) : nat := (size - start + 1) / 2.

(** [dst[:, start::2] = src] for [dst] with [dst_cols] columns and [src]
    with [src_cols] columns and as many rows: [src] must have as many
    columns as the slice, or one column, which is then repeated. *)
Definition assign_strided (start dst_cols : nat) (dst : list (list R))
    (src_cols : nat) (src : list (list R)) : result (list (list R)) :=
  let k := strided_count start dst_cols in
  if decide (src_cols = k \/ src_cols = 1) then
    Ok (zip_with
          (fun drow srow =>
             imap (fun j x =>
                     if decide (start <= j /\ (j - start) mod 2 = 0)
                     then default x
                            (srow !! (if decide (src_cols = k)
                                      then (j - start) / 2 else 0))
                     else x) drow)
          dst src)
  else Err RuntimeError.

(** [PositionalEncoding.__init__]: the buffer [pe], as its [max_len] rows
    of [dim] entries. *)
Definition PositionalEncoding (dim max_len : nat)
  : init_result (list (list R)) :=
  let pe := replicate max_len (replicate dim 0%R) in
  if decide (dim = 0) then RaisedZeroDivision
  else
    let a := angles max_len dim in
    let m := length (div_term dim) in
    match assign_strided 0 dim pe m (map (map sin) a) with
    | Err e => Raised e
    | Ok pe1 =>
        match assign_strided 1 dim pe1 m (map (map cos) a) with
        | Err e => Raised e
        | Ok pe2 => Built pe2
        end
    end.

End Positional.

(** ** More reference notions *)

(** A token that indexes a dimension of the given size, counting from the
    end when negative. *)
Definition index_ok (size : nat) (t : Z) : Prop :=
  (- Z.of_nat size <= t < Z.of_nat size)%Z.
Global Instance index_ok_dec size t : Decision (index_ok size t).
Proof. unfold index_ok. apply _. Defined.

(** The arithmetic mean of a list of reals. *)
Definition rmean (l : list R) : R := (rsum l / INR (length l))%R.

(** The row a token selects from [cat([weight, padding])] when [weight]
    has [vocab_size] rows and [padding] is the single row [pad]. *)
Definition token_row (weight : matrix) (pad : list tval) (vocab_size : nat)
    (z : Z) : list tval :=
  if decide (z = Z.of_nat vocab_size) then pad
  else default [] (mrows weight !! Z.to_nat z).

(** Position [t] of sequence [b] is padding, for a padding mask of shape
    [(batch_size, max_seq_len)]. *)
Definition padded (mask : list (list bool)) (b t : nat) : bool :=
  default true (mask !! b ≫= fun r => r !! t).

(** Channel [d] of sequence [b] in one slab of a real 3-D tensor. *)
Definition channel (slab : list (list R)) (b d : nat) : R :=
  default 0%R (slab !! b ≫= fun v => v !! d).

(** The values that channel [d] of sequence [b] takes at the positions
    that are not padding, in order. *)
Definition kept_values (enc : list (list (list R))) (mask : list (list bool))
    (b d : nat) : list R :=
  omap (fun o : option R => o)
    (imap (fun t slab =>
             if padded mask b t then None else Some (channel slab b d)) enc).


(** A 3-D tensor of shape [(t, b, d)]. *)
Definition shape3 {A} (t b d : nat) (x : list (list (list A))) : Prop :=
  length x = t
  /\ Forall (fun slab => length slab = b /\ Forall (fun v => length v = d) slab)
       x.

(** The angular frequency of column pair [c] of a positional encoding of
    width [dim]. *)
Definition frequency (dim c : nat) : R :=
  exp (INR (2 * c) * (- ln 10000 / INR dim))%R.

(** Row [p] of the sinusoidal table: sines in the even columns, cosines
    in the odd ones. *)
Definition sinusoid_row (dim : nat) (p : R) : list R :=
  map (fun j => if decide (j mod 2 = 0)
                then sin (p * frequency dim (j / 2)%nat)%R
                else cos (p * frequency dim (j / 2)%nat)%R)
    (seq 0 dim).
(** * Properties *)

(** ** Floats and sums *)

Section FloatFacts.
Local Open Scope R_scope.

Lemma Rsign_Eq x : Rsign x = Eq <-> x = 0.
Proof.
  unfold Rsign. destruct (total_order_T x 0) as [[H|H]|H]; split; intros; try done; lra.
Qed.
Lemma Rsign_Lt x : Rsign x = Lt <-> x < 0.
Proof.
  unfold Rsign. destruct (total_order_T x 0) as [[H|H]|H]; split; intros; try done; lra.
Qed.
Lemma Rsign_0 : Rsign 0 = Eq.
Proof. by apply Rsign_Eq. Qed.

Lemma tdiv_Num x y : y <> 0 -> tdiv (Num x) (Num y) = Num (x / y).
Proof.
  intros Hy. unfold tdiv. destruct (Rsign y) eqn:E; try done.
  apply Rsign_Eq in E. done.
Qed.

Lemma tdiv_zero_zero : tdiv (Num 0) (Num 0) = NaN.
Proof. unfold tdiv. by rewrite Rsign_0. Qed.

Lemma tsqrt_Num x : 0 <= x -> tsqrt (Num x) = Num (sqrt x).
Proof.
  intros Hx. unfold tsqrt. destruct (Rsign x) eqn:E; try done.
  apply Rsign_Lt in E. lra.
Qed.

Lemma tacosh_Num x : 1 <= x -> tacosh (Num x) = Num (Racosh x).
Proof.
  intros Hx. unfold tacosh. destruct (Rsign (x - 1)) eqn:E; try done.
  apply Rsign_Lt in E. lra.
Qed.

Lemma Racosh_1 : Racosh 1 = 0.
Proof.
  unfold Racosh. replace (1 * 1 - 1) with 0 by lra.
  rewrite sqrt_0, Rplus_0_r. apply ln_1.
Qed.

Lemma tsum_Num l : tsum (map Num l) = Num (rsum l).
Proof.
  induction l as [|x l IH]; [done|].
  change (tsum (map Num (x :: l))) with (tadd (Num x) (tsum (map Num l))).
  by rewrite IH.
Qed.

Lemma rsum_squares_nonneg l : 0 <= rsum (map (fun x => x * x) l).
Proof. induction l as [|x l IH]; simpl; [lra|]. nra. Qed.

Lemma rsum_scale c l : rsum (map (Rmult c) l) = c * rsum l.
Proof. induction l as [|x l IH]; simpl; [lra|]. rewrite IH. lra. Qed.

Lemma enorm_nonneg a : 0 <= enorm a.
Proof. apply sqrt_pos. Qed.

Lemma row_norm_reals a : row_norm (map Num a) = Num (enorm a).
Proof.
  unfold row_norm, enorm. rewrite map_map. simpl.
  rewrite <- (map_map (fun x => x * x) Num), tsum_Num.
  apply tsqrt_Num, rsum_squares_nonneg.
Qed.

End FloatFacts.

(** ** Broadcasting on equal shapes *)

Section TensorFacts.

Lemma map_is_fmap {A B} (f : A -> B) (l : list A) : map f l = f <$> l.
Proof. reflexivity. Qed.

Lemma expand_same {A} n (l : list A) : length l = n -> expand n l = l.
Proof. destruct l as [|x [|y l]]; simpl; intros <-; done. Qed.

Lemma bdim_same n : bdim n n = Some n.
Proof. unfold bdim. by rewrite decide_True. Qed.

Lemma bzip_same f u v :
  length u = length v -> bzip f u v = Ok (zip_with f u v).
Proof.
  intros H. unfold bzip. rewrite H, bdim_same.
  by rewrite !expand_same by done.
Qed.

Lemma bcast2_same f a b :
  nrows a = nrows b -> ncols a = ncols b -> rect a -> rect b ->
  bcast2 f a b = Ok (Matrix (ncols a) (zip_with (zip_with f) (mrows a) (mrows b))).
Proof.
  intros Hr Hc Ha Hb. unfold bcast2. rewrite Hr, Hc, !bdim_same.
  rewrite !expand_same by done. do 2 f_equal.
  unfold rect in *. rewrite Hc in Ha.
  revert Ha Hb. generalize (ncols b) as c. clear.
  generalize (mrows b) as B. induction (mrows a) as [|ra A IH]; intros [|rb B] c HA HB; try done.
  inversion HA; inversion HB; subst. simpl. f_equal; [|by apply IH].
  by rewrite !expand_same.
Qed.

Lemma hyperbolic_distance_rows z1 z2 :
  nrows z1 = nrows z2 -> ncols z1 = ncols z2 -> rect z1 -> rect z2 ->
  hyperbolic_distance z1 z2 = Ok (zip_with pair_distance (mrows z1) (mrows z2)).
Proof.
  intros Hr Hc H1 H2. unfold hyperbolic_distance.
  rewrite bcast2_same by done. cbn [mbind result_bind].
  unfold nrows in Hr. unfold norm_dim1, vsquare. cbn [mrows].
  rewrite bzip_same; cycle 1.
  { rewrite !length_map, length_zip_with. lia. }
  cbn [mbind result_bind].
  rewrite bzip_same; cycle 1.
  { rewrite length_zip_with, !length_map, length_zip_with. lia. }
  cbn [mbind result_bind]. f_equal.
  rewrite !map_is_fmap. apply list_eq. intros i.
  rewrite !list_lookup_fmap, !lookup_zip_with, !list_lookup_fmap, !lookup_zip_with.
  destruct (mrows z1 !! i) as [ra|], (mrows z2 !! i) as [rb|]; done.
Qed.

End TensorFacts.

(** ** The hyperbolic distance *)

Section Hyperbolic.
Local Open Scope R_scope.

Lemma zip_with_tsub_reals a b :
  zip_with tsub (map Num a) (map Num b) = map Num (zip_with Rminus a b).
Proof.
  revert b. induction a as [|x a IH]; intros [|y b]; simpl; try done.
  by rewrite IH.
Qed.

Lemma ball_denominator x : 0 <= x -> x < 1 -> 0 < 1 - x ^ 2.
Proof. intros. nra. Qed.

Lemma pair_distance_reals a b :
  enorm a < 1 -> enorm b < 1 ->
  pair_distance (map Num a) (map Num b) = Num (poincare_distance a b).
Proof.
  intros Ha Hb. unfold pair_distance, poincare_distance.
  rewrite zip_with_tsub_reals, !row_norm_reals. cbn [tmul tsub tneg tadd].
  pose proof (enorm_nonneg a) as Ha0. pose proof (enorm_nonneg b) as Hb0.
  pose proof (enorm_nonneg (zip_with Rminus a b)) as Hd0.
  pose proof (ball_denominator _ Ha0 Ha) as Da.
  pose proof (ball_denominator _ Hb0 Hb) as Db.
  set (na := enorm a) in *. set (nb := enorm b) in *.
  set (d := enorm (zip_with Rminus a b)) in *.
  rewrite tdiv_Num by nra. rewrite tdiv_Num by nra. cbn [tadd].
  assert (Heq : 1 + 2 * (d * d) / (1 + - (na * na)) / (1 + - (nb * nb))
                = 1 + 2 * d ^ 2 / ((1 - na ^ 2) * (1 - nb ^ 2))).
  { field. split; nra. }
  rewrite Heq. apply tacosh_Num.
  assert (0 <= 2 * d ^ 2 / ((1 - na ^ 2) * (1 - nb ^ 2))); [|lra].
  apply Rmult_le_pos; [nra|]. apply Rlt_le, Rinv_0_lt_compat. nra.
Qed.

Lemma zip_with_pair_distance_reals a b :
  Forall (fun r => enorm r < 1) a -> Forall (fun r => enorm r < 1) b ->
  zip_with pair_distance (map (map Num) a) (map (map Num) b)
  = map Num (zip_with poincare_distance a b).
Proof.
  intros Ha. revert b. induction Ha as [|ra a Hra Ha IH]; intros b Hb; [done|].
  destruct Hb as [|rb b Hrb Hb]; [done|]. simpl.
  rewrite pair_distance_reals by done. f_equal. by apply IH.
Qed.

Lemma rect_of_reals d a :
  Forall (fun r => length r = d) a -> rect (of_reals d a).
Proof.
  unfold rect, of_reals. cbn. intros H. induction H; constructor; [|done].
  by rewrite length_map.
Qed.

Lemma poincare_distance_self a : enorm a < 1 -> poincare_distance a a = 0.
Proof.
  intros Ha. unfold poincare_distance.
  assert (Hz : enorm (zip_with Rminus a a) = 0).
  { unfold enorm. replace (map (fun x => x * x) (zip_with Rminus a a))
      with (map (fun _ : R => 0) a).
    - replace (rsum (map (fun _ : R => 0) a)) with 0; [apply sqrt_0|].
      clear. induction a as [|x a IH]; [done|].
      change (0 = 0 + rsum (map (fun _ : R => 0) a)). lra.
    - clear. induction a as [|x a IH]; simpl; [done|]. rewrite IH. f_equal. lra. }
  rewrite Hz. replace (1 + 2 * 0 ^ 2 / _) with 1; [apply Racosh_1|].
  unfold Rdiv. lra.
Qed.

End Hyperbolic.

Lemma hyperbolic_distance_reals (d : nat) (a b : list (list R)) :
  length a = length b ->
  Forall (fun r => length r = d) a ->
  Forall (fun r => length r = d) b ->
  Forall (fun r => (enorm r < 1)%R) a ->
  Forall (fun r => (enorm r < 1)%R) b ->
  hyperbolic_distance (of_reals d a) (of_reals d b)
  = Ok (map Num (zip_with poincare_distance a b)).
Proof.
  intros Hlen Ha Hb Na Nb.
  rewrite hyperbolic_distance_rows.
  - cbn [of_reals mrows]. by rewrite zip_with_pair_distance_reals.
  - unfold nrows, of_reals. cbn. by rewrite !length_map.
  - done.
  - by apply rect_of_reals.
  - by apply rect_of_reals.
Qed.

(** C6. For two batches of the same shape whose rows all have norm
    strictly below one, [hyperbolic_distance] returns a 1-D tensor with one
    entry per row index, the i-th being
    [acosh(1 + 2 |a_i - b_i|^2 / ((1 - |a_i|^2) (1 - |b_i|^2)))] of the two
    i-th rows: same-index rows only, never an all-pairs matrix. *)
Theorem hyperbolic_distance_pairwise (d : nat) (a b : list (list R)) :
  length a = length b ->
  Forall (fun r => length r = d) a ->
  Forall (fun r => length r = d) b ->
  Forall (fun r => (enorm r < 1)%R) a ->
  Forall (fun r => (enorm r < 1)%R) b ->
  hyperbolic_distance (of_reals d a) (of_reals d b)
  = Ok (map Num (zip_with poincare_distance a b))
  /\ (forall i ra rb, a !! i = Some ra -> b !! i = Some rb ->
        hyperbolic_distance (of_reals d a) (of_reals d b)
        ≫= (fun v => Ok (v !! i))
        = Ok (Some (Num (poincare_distance ra rb)))).
Proof.
  intros Hlen Ha Hb Na Nb.
  rewrite hyperbolic_distance_reals by done. split; [done|].
  intros i ra rb Hra Hrb. cbn [mbind result_bind]. do 2 f_equal.
  rewrite map_is_fmap, list_lookup_fmap, lookup_zip_with, Hra. cbn.
  by rewrite Hrb.
Qed.

(** ** The identity mask *)

Section Masks.
Local Open Scope R_scope.

Lemma tsum_all_zero l : all_zero l -> tsum l = Num 0.
Proof.
  induction 1 as [|t l (x & -> & ->) Hl IH]; [done|].
  change (tadd (Num 0) (tsum l) = Num 0). rewrite IH. cbn. f_equal. lra.
Qed.

Lemma bdim_one n : bdim 1 n = Some n.
Proof.
  unfold bdim. destruct (decide (1%nat = n)) as [<-|]; [done|].
  by rewrite decide_True.
Qed.

Lemma length_eye_row n i : length (eye_row n i) = n.
Proof. unfold eye_row. by rewrite length_map, length_seq. Qed.

Lemma rect_eye n : rect (eye n).
Proof.
  unfold rect, eye. cbn. apply Forall_forall. intros r Hr.
  apply list_elem_of_In, in_map_iff in Hr as (i & <- & _). apply length_eye_row.
Qed.

Lemma nrows_eye n : nrows (eye n) = n.
Proof. unfold nrows, eye. cbn. by rewrite length_map, length_seq. Qed.

Lemma zip_with_replicate_l {A B C} (g : A -> B -> C) k x (E : list B) :
  length E = k -> zip_with g (replicate k x) E = map (g x) E.
Proof.
  revert k. induction E as [|e E IH]; intros [|k] Hk; try done.
  cbn. f_equal. apply IH. by injection Hk.
Qed.

Lemma bcast12_eye f v n :
  length v = n ->
  bcast12 f v (eye n) = Ok (Matrix n (map (zip_with f v) (mrows (eye n)))).
Proof.
  intros Hv. unfold bcast12, bcast2. cbn [nrows ncols mrows length].
  fold (nrows (eye n)). rewrite nrows_eye, Hv, bdim_one.
  change (ncols (eye n)) with n. rewrite bdim_same. do 2 f_equal.
  cbn [expand]. rewrite expand_same by apply nrows_eye.
  rewrite zip_with_replicate_l by apply nrows_eye.
  apply map_ext_Forall. pose proof (rect_eye n) as Hrect.
  unfold rect in Hrect. change (ncols (eye n)) with n in Hrect.
  eapply Forall_impl; [exact Hrect|]. intros e He. cbn beta.
  by rewrite !expand_same.
Qed.

End Masks.

Section Identity.
Local Open Scope R_scope.

Lemma tsum_app_finite l1 l2 x y :
  tsum l1 = Num x -> tsum l2 = Num y -> tsum (l1 ++ l2) = Num (x + y).
Proof.
  revert x. induction l1 as [|t l1 IH]; intros x H1 H2.
  - injection H1 as <-. cbn [app]. rewrite H2. f_equal. lra.
  - change (tadd t (tsum l1) = Num x) in H1.
    change (tadd t (tsum (l1 ++ l2)) = Num (x + y)).
    destruct t as [a| | |], (tsum l1) as [b| | |] eqn:E; try discriminate.
    injection H1 as <-. rewrite (IH b) by done. cbn. f_equal. lra.
Qed.

Lemma tsum_eye_row (i s k : nat) :
  tsum (map (fun j => if decide (i = j) then Num 1 else Num 0) (seq s k))
  = Num (if bool_decide (s <= i < s + k)%nat then 1 else 0).
Proof.
  revert s. induction k as [|k IH]; intros s.
  - cbn. rewrite bool_decide_eq_false_2 by lia. done.
  - cbn [seq map]. 
    change (tsum (?a :: ?l)) with (tadd a (tsum l)). rewrite IH.
    destruct (decide (i = s)) as [->|Hne].
    + rewrite bool_decide_eq_false_2 by lia.
      rewrite bool_decide_eq_true_2 by lia. cbn. f_equal. lra.
    + cbn. f_equal. case_bool_decide; case_bool_decide; try lia; lra.
Qed.

Lemma msum_eye_rows n (l : list nat) :
  Forall (fun i => (i < n)%nat) l ->
  tsum (concat (map (eye_row n) l)) = Num (INR (length l)).
Proof.
  induction 1 as [|i l Hi Hl IH]; [done|].
  cbn [map concat]. rewrite (tsum_app_finite _ _ 1 (INR (length l))); [| |done].
  - f_equal. rewrite length_cons, S_INR. lra.
  - unfold eye_row. rewrite tsum_eye_row. by rewrite bool_decide_eq_true_2 by lia.
Qed.

Lemma msum_eye n : msum (eye n) = Num (INR n).
Proof.
  unfold msum, eye. cbn [mrows]. rewrite msum_eye_rows.
  - by rewrite length_seq.
  - apply Forall_forall. intros i Hi. apply elem_of_seq in Hi. lia.
Qed.

Lemma all_zero_product n e :
  Forall is_finite e -> all_zero (zip_with tmul (replicate n (Num 0)) e).
Proof.
  intros He. revert n. induction He as [|t e Ht He IH]; intros [|n]; try constructor.
  - destruct t as [x| | |]; try done. exists (0 * x). split; [done|lra].
  - apply IH.
Qed.

Lemma eye_row_finite n i : Forall is_finite (eye_row n i).
Proof.
  unfold eye_row. apply Forall_forall. intros t Ht.
  apply list_elem_of_In, in_map_iff in Ht as (j & <- & _). by case_decide.
Qed.

Lemma poincare_distance_diag r :
  Forall (fun a => enorm a < 1) r ->
  zip_with poincare_distance r r = replicate (length r) 0.
Proof.
  induction 1 as [|a r Ha Hr IH]; [done|]. cbn.
  by rewrite poincare_distance_self, IH.
Qed.

Lemma map_Num_replicate n x : map Num (replicate n x) = replicate n (Num x).
Proof. induction n as [|n IH]; cbn; [done|]. by rewrite IH. Qed.

Lemma node_node_loss_same d r :
  Forall (fun a => length a = d) r ->
  Forall (fun a => enorm a < 1) r ->
  node_node_loss (of_reals d r) (of_reals d r)
  = Ok (tdiv (Num 0) (Num (INR (length r)))).
Proof.
  intros Hd Hb. unfold node_node_loss.
  rewrite hyperbolic_distance_reals by done. cbn [mbind result_bind].
  assert (Hn : nrows (of_reals d r) = length r).
  { unfold nrows, of_reals. cbn. by rewrite length_map. }
  rewrite Hn, poincare_distance_diag, map_Num_replicate by done.
  rewrite bcast12_eye by apply length_replicate. cbn [mbind result_bind].
  rewrite msum_eye. do 2 f_equal.
  unfold msum. cbn [mrows]. apply tsum_all_zero.
  unfold all_zero. apply Forall_concat, Forall_forall. intros row Hrow.
  apply list_elem_of_In, in_map_iff in Hrow as (e & <- & He).
  apply in_map_iff in He as (i & <- & _).
  apply all_zero_product, eye_row_finite.
Qed.

End Identity.

(** C7, amended.  For every representation matrix with at least one row
    whose rows all lie strictly inside the unit ball,
    [node_node_loss(r, r)] is zero: the masked average of the distances
    of identical views under the identity mask vanishes. *)
Theorem node_node_loss_identical_views (d : nat) (r : list (list R)) :
  r <> [] ->
  Forall (fun a => length a = d) r ->
  Forall (fun a => (enorm a < 1)%R) r ->
  node_node_loss (of_reals d r) (of_reals d r) = Ok (Num 0).
Proof.
  intros Hne Hd Hb. rewrite node_node_loss_same by done.
  rewrite tdiv_Num.
  - do 2 f_equal. unfold Rdiv. lra.
  - apply not_0_INR. by destruct r.
Qed.

(** C7 as stated fails on a matrix with no rows: its rows are vacuously
    inside the ball, the identity mask of size zero sums to zero, and the
    loss is [0 / 0]. *)
Lemma node_node_loss_no_rows :
  Forall (fun a => (enorm a < 1)%R) ([] : list (list R)) /\
  node_node_loss (of_reals 2 []) (of_reals 2 []) = Ok NaN.
Proof.
  split; [constructor|].
  rewrite (node_node_loss_same 2 []) by constructor.
  cbn [length INR]. by rewrite tdiv_zero_zero.
Qed.

(** ** Masked averages of the transport cost *)

Section Weighted.
Local Open Scope R_scope.

Variable samples_loss : list (list R) -> list (list R) -> R.

Lemma swd_cases z1 z2 :
  (exists c, sliced_wasserstein_distance samples_loss z1 z2 = Num c)
  \/ sliced_wasserstein_distance samples_loss z1 z2 = NaN.
Proof.
  unfold sliced_wasserstein_distance.
  destruct (reals_of z1), (reals_of z2); eauto.
Qed.

Lemma msum_smap f m : msum (smap f m) = tsum (map f (concat (mrows m))).
Proof.
  unfold msum, smap. cbn [mrows]. f_equal.
  induction (mrows m) as [|r rows IH]; [done|].
  cbn [map concat]. by rewrite map_app, IH.
Qed.

Lemma tsum_Num_inv l s :
  tsum l = Num s -> exists rl, l = map Num rl /\ rsum rl = s.
Proof.
  revert s. induction l as [|t l IH]; intros s H.
  - exists []. split; [done|]. by injection H.
  - change (tadd t (tsum l) = Num s) in H.
    destruct t as [a| | |], (tsum l) as [b| | |] eqn:E; try discriminate.
    injection H as <-. destruct (IH b eq_refl) as (rl & -> & <-).
    by exists (a :: rl).
Qed.

Lemma tsum_scaled c rl :
  tsum (map (tmul (Num c)) (map Num rl)) = Num (c * rsum rl).
Proof.
  rewrite map_map. cbn [tmul]. rewrite <- (map_map (Rmult c) Num), tsum_Num.
  by rewrite rsum_scale.
Qed.

Lemma tsum_NaN_cons (l : list tval) : l <> [] -> tsum (map (tmul NaN) l) = NaN.
Proof. by destruct l. Qed.

(** The masked average against a mask whose entries sum to zero. *)
Lemma masked_average_zero x m :
  (exists c, x = Num c) \/ x = NaN ->
  msum m = Num 0 ->
  tdiv (msum (smap (tmul x) m)) (msum m) = NaN.
Proof.
  intros Hx Hm. rewrite msum_smap, Hm. unfold msum in Hm.
  apply tsum_Num_inv in Hm as (rl & -> & Hs).
  destruct Hx as [[c ->] | ->].
  - rewrite tsum_scaled, Hs. unfold tdiv. rewrite Rsign_0.
    replace (c * 0) with 0 by lra. by rewrite Rsign_0.
  - destruct rl as [|a rl]; [apply tdiv_zero_zero|done].
Qed.

(** The masked average of a scalar against real weights of non-zero sum. *)
Lemma masked_average_cancel x k w :
  (exists c, x = Num c) \/ x = NaN ->
  rsum (concat w) <> 0 ->
  tdiv (msum (smap (tmul x) (of_reals k w))) (msum (of_reals k w)) = x.
Proof.
  intros Hx Hs. rewrite msum_smap. unfold msum, of_reals. cbn [mrows].
  assert (Hc : concat (map (map Num) w) = map Num (concat w)).
  { clear. induction w as [|r w IH]; [done|]. cbn. by rewrite map_app, IH. }
  rewrite Hc, tsum_Num. destruct Hx as [[c ->] | ->].
  - rewrite tsum_scaled, tdiv_Num by done. f_equal. by field.
  - rewrite tsum_NaN_cons; [done|]. destruct (concat w); [|done]. by cbn in Hs.
Qed.

End Weighted.

(** C9.  For all representations and any two non-negative weight
    matrices of strictly positive sum, [weighted_ns_loss] returns the same
    value, namely [sliced_wasserstein_distance(seq_rep, node_rep)]: the
    transport cost is a scalar, so the weights cancel. *)
Theorem weighted_ns_loss_ignores_weights
    (samples_loss : list (list R) -> list (list R) -> R)
    (n s : matrix) (k1 k2 : nat) (w1 w2 : list (list R)) :
  Forall (Forall (Rle 0)) w1 -> (0 < rsum (concat w1))%R ->
  Forall (Forall (Rle 0)) w2 -> (0 < rsum (concat w2))%R ->
  weighted_ns_loss samples_loss n s (of_reals k1 w1)
  = weighted_ns_loss samples_loss n s (of_reals k2 w2)
  /\ weighted_ns_loss samples_loss n s (of_reals k1 w1)
     = Ok (sliced_wasserstein_distance samples_loss s n).
Proof.
  intros _ H1 _ H2. unfold weighted_ns_loss.
  rewrite !masked_average_cancel; try done;
    try apply swd_cases; apply Rgt_not_eq; lra.
Qed.

(** Identity weights and a single weight give the same loss. *)
Lemma weighted_ns_loss_ignores_weights_example :
  weighted_ns_loss (fun _ _ => 3%R) (of_reals 1 [[0%R]]) (of_reals 1 [[0%R]])
    (of_reals 2 [[1; 0]; [0; 1]]%R)
  = weighted_ns_loss (fun _ _ => 3%R) (of_reals 1 [[0%R]]) (of_reals 1 [[0%R]])
      (of_reals 1 [[7]]%R)
  /\ weighted_ns_loss (fun _ _ => 3%R) (of_reals 1 [[0%R]]) (of_reals 1 [[0%R]])
       (of_reals 2 [[1; 0]; [0; 1]]%R)
     = Ok (sliced_wasserstein_distance (fun _ _ => 3%R)
             (of_reals 1 [[0%R]]) (of_reals 1 [[0%R]])).
Proof.
  apply weighted_ns_loss_ignores_weights.
  - repeat constructor; lra.
  - cbn. lra.
  - repeat constructor; lra.
  - cbn. lra.
Defined.

Lemma reals_of_of_reals d a : reals_of (of_reals d a) = Some a.
Proof.
  unfold reals_of, of_reals. cbn [mrows]. apply mapM_Some_2.
  induction a as [|r a IH]; constructor; [|done].
  unfold reals_of_row. apply mapM_Some_2.
  clear. induction r; by constructor.
Qed.

Lemma eye_sum_zero n : msum (eye n) = Num 0 -> n = 0%nat.
Proof.
  rewrite msum_eye. intros H. injection H as H. by apply INR_eq.
Qed.

Lemma bcast12_eye_0 f d p : bcast12 f d (eye 0) = Ok p -> mrows p = [].
Proof.
  unfold bcast12, bcast2. cbn [nrows ncols mrows length eye map seq].
  rewrite bdim_one. destruct (bdim (length d) 0); [|done].
  intros H. by injection H as <-.
Qed.

(** C5, amended.  No contrastive loss checks its denominator, and a
    mask or weight matrix that sums to zero raises no error of its own:
    the loss divides through, and the quotient is [NaN].  On point clouds
    for which the transport cost is defined, [weighted_ns_loss] returns
    [NaN], and [node_seq_loss] returns [NaN] unless its hyperbolic term
    raises a shape error first; [node_node_loss] returns [NaN] unless its
    hyperbolic term raises a shape error first.  The identity mask of
    [seq_seq_loss] sums to zero only for a batch without rows, and for
    such a batch the transport cost is not defined. *)
Theorem zero_mask_sum_divides_through
    (samples_loss : list (list R) -> list (list R) -> R) :
  (forall n s w, proper_clouds s n -> msum w = Num 0 ->
     weighted_ns_loss samples_loss n s w = Ok NaN) /\
  (forall s1 s2, msum (eye (nrows s1)) = Num 0 ->
     nrows s1 = 0 /\ ~ proper_clouds s1 s2) /\
  (forall n s sequences full, proper_clouds s n ->
     pos_mask_full (nrows s) (nrows n) sequences = Ok full ->
     msum (drop_last_col full) = Num 0 ->
     node_seq_loss samples_loss n s sequences
     = (hyperbolic_distance s n ≫= fun _ => Ok NaN)) /\
  (forall r1 r2, msum (eye (nrows r1)) = Num 0 ->
     node_node_loss r1 r2
     = (d ← hyperbolic_distance r1 r2;
        _ ← bcast12 tmul d (eye (nrows r1));
        Ok NaN)).
Proof.
  split; [|split; [|split]].
  - intros n s w _ Hw. unfold weighted_ns_loss.
    by rewrite masked_average_zero by (done || apply swd_cases).
  - intros s1 s2 Hm. apply eye_sum_zero in Hm. split; [done|].
    intros (a & b & Ha & _ & Hne & _).
    unfold nrows in Hm. apply nil_length_inv in Hm.
    unfold reals_of in Ha. rewrite Hm in Ha. cbn in Ha.
    injection Ha as <-. done.
  - intros n s sequences full _ Hfull Hm. unfold node_seq_loss.
    rewrite Hfull. cbn [mbind result_bind].
    rewrite masked_average_zero by (done || apply swd_cases).
    by destruct (hyperbolic_distance s n).
  - intros r1 r2 Hm. unfold node_node_loss.
    destruct (hyperbolic_distance r1 r2) as [d|e]; [|done].
    cbn [mbind result_bind]. apply eye_sum_zero in Hm as ->.
    destruct (bcast12 tmul d (eye 0)) as [p|e] eqn:Hp; [|done].
    cbn [mbind result_bind]. apply bcast12_eye_0 in Hp.
    unfold msum. rewrite Hp.
    change (Ok (tdiv (Num 0) (Num 0)) = Ok NaN). by rewrite tdiv_zero_zero.
Qed.

(** Two nodes and one sequence representation, pairwise distinct: with
    all-zero weights, and with a single sequence that is padding only. *)
Lemma zero_mask_sum_divides_through_example :
  weighted_ns_loss (fun _ _ => 3%R) (of_reals 1 [[0]; [1 / 2]]%R)
    (of_reals 1 [[1 / 4]]%R) (of_reals 2 [[0; 0]; [0; 0]]%R) = Ok NaN
  /\ node_seq_loss (fun _ _ => 3%R)
       (of_reals 1 [[0]; [1 / 2]]%R) (of_reals 1 [[1 / 4]]%R) [[2; 2]%Z]
     = (hyperbolic_distance (of_reals 1 [[1 / 4]]%R)
          (of_reals 1 [[0]; [1 / 2]]%R)
        ≫= fun _ => Ok NaN).
Proof.
  assert (Hc : proper_clouds (of_reals 1 [[1 / 4]]%R)
                 (of_reals 1 [[0]; [1 / 2]]%R)).
  { exists [[1 / 4]]%R, [[0]; [1 / 2]]%R.
    rewrite !reals_of_of_reals. repeat split; try done.
    - by apply rect_of_reals; repeat constructor.
    - by apply rect_of_reals; repeat constructor.
    - exists [0%R], [(1 / 2)%R]. split; [set_solver|]. split; [set_solver|].
      intros [= H]. lra. }
  split.
  - apply (proj1 (zero_mask_sum_divides_through (fun _ _ => 3%R)));
      [exact Hc|]. cbn. f_equal. lra.
  - eapply (proj1 (proj2 (proj2
              (zero_mask_sum_divides_through (fun _ _ => 3%R))))).
    + exact Hc.
    + reflexivity.
    + vm_compute. f_equal. lra.
Defined.

(** C5 as stated fails: with all-zero weights [weighted_ns_loss] returns
    normally, with value [NaN]. *)
Lemma zero_weights_raise_nothing :
  msum (zeros 1 2) = Num 0 /\
  forall samples_loss n s,
    weighted_ns_loss samples_loss n s (zeros 1 2) = Ok NaN /\
    is_ok (weighted_ns_loss samples_loss n s (zeros 1 2)) = true.
Proof.
  assert (H : msum (zeros 1 2) = Num 0).
  { cbn. f_equal. lra. }
  split; [done|]. intros sl n s.
  unfold weighted_ns_loss.
  by rewrite masked_average_zero by (done || apply swd_cases).
Qed.

(** ** The positive mask of [node_seq_loss] *)

Section MaskConstruction.

Lemma if_bool_decide_ext {A} (P Q : Prop) `{Decision P, Decision Q} (x y : A) :
  (P <-> Q) ->
  (if bool_decide P then x else y) = (if bool_decide Q then x else y).
Proof. intros HPQ. by rewrite (bool_decide_ext P Q). Qed.

Lemma norm_index_in_range size (i : Z) :
  (0 <= i < Z.of_nat size)%Z -> norm_index size i = Some (Z.to_nat i).
Proof. intros H. unfold norm_index. by rewrite decide_True. Qed.

Lemma index_put_spec idx : forall row v,
  Forall (fun t => 0 <= t < Z.of_nat (length row))%Z idx ->
  exists row', index_put row idx v = Ok row'
    /\ length row' = length row
    /\ forall t, row' !! t
         = (fun x => if bool_decide (Z.of_nat t ∈ idx) then v else x)
             <$> row !! t.
Proof.
  induction idx as [|i idx IH]; intros row v Hidx.
  - exists row. repeat split. intros t.
    rewrite bool_decide_eq_false_2 by apply not_elem_of_nil.
    by destruct (row !! t).
  - inversion Hidx as [|? ? Hi Hrest]; subst.
    cbn [index_put]. rewrite norm_index_in_range by done.
    destruct (IH (<[Z.to_nat i := v]> row) v) as (row' & Hput & Hlen & Hget).
    { by rewrite length_insert. }
    exists row'. split; [done|]. rewrite length_insert in Hlen.
    split; [done|]. intros t. rewrite Hget.
    destruct (decide (t = Z.to_nat i)) as [->|Hne].
    + rewrite list_lookup_insert_eq by lia. cbn.
      rewrite (bool_decide_eq_true_2 (_ ∈ i :: idx)).
      2:{ rewrite Z2Nat.id by lia. apply list_elem_of_here. }
      destruct (row !! Z.to_nat i) eqn:E; cbn.
      * by case_bool_decide.
      * apply lookup_ge_None in E. lia.
    + rewrite list_lookup_insert_ne by done.
      destruct (row !! t); cbn; [|done]. f_equal.
      assert (Z.of_nat t <> i) by lia.
      apply if_bool_decide_ext. rewrite elem_of_cons. tauto.
Qed.

Lemma mark_rows_spec c sequences : forall mask k,
  k + length sequences <= length mask ->
  Forall (fun r => length r = c) mask ->
  Forall (Forall (fun t => 0 <= t < Z.of_nat c)%Z) sequences ->
  exists mask', mark_rows mask k sequences = Ok mask'
    /\ length mask' = length mask
    /\ Forall (fun r => length r = c) mask'
    /\ forall i t, mask' !! i ≫= (fun r => r !! t)
         = (fun x => if bool_decide
                          (k <= i /\ Z.of_nat t ∈ default [] (sequences !! (i - k)))
                     then Num 1 else x)
             <$> (mask !! i ≫= fun r => r !! t).
Proof.
  induction sequences as [|row rest IH]; intros mask k Hk Hmask Hseq.
  - exists mask. repeat split; [done|]. intros i t.
    rewrite bool_decide_eq_false_2.
    + by destruct (mask !! i ≫= _).
    + rewrite lookup_nil. cbn. intros [_ H]. by apply not_elem_of_nil in H.
  - inversion Hseq as [|? ? Hrow Hrest]; subst. cbn [length] in Hk.
    cbn [mark_rows]. destruct (mask !! k) as [r|] eqn:Hr.
    2:{ apply lookup_ge_None in Hr. lia. }
    assert (Hlr : length r = c).
    { eapply Forall_lookup_1 in Hmask; [exact Hmask|exact Hr]. }
    destruct (index_put_spec row r (Num 1)) as (r' & Hput & Hlen' & Hget).
    { by rewrite Hlr. }
    rewrite Hput. cbn [mbind result_bind].
    destruct (IH (<[k := r']> mask) (S k)) as (mask' & Hm & Hlen & Hc & Hent).
    { rewrite length_insert. lia. }
    { apply Forall_insert; [done|congruence]. }
    { done. }
    exists mask'. split; [done|]. rewrite length_insert in Hlen.
    repeat split; [done|done|]. intros i t. rewrite Hent.
    destruct (decide (i = k)) as [->|Hne].
    + rewrite list_lookup_insert_eq by (apply lookup_lt_Some in Hr; lia).
      rewrite Hr. cbn [mbind option_bind]. rewrite Hget.
      rewrite (bool_decide_eq_false_2 (S k <= k /\ _)) by lia.
      replace (k - k) with 0 by lia. cbn [lookup list_lookup default].
      destruct (r !! t); cbn; [|done]. f_equal.
      apply if_bool_decide_ext. intuition lia.
    + rewrite list_lookup_insert_ne by done.
      destruct (mask !! i ≫= _); cbn; [|done]. f_equal.
      destruct (decide (k <= i)) as [Hle|Hgt].
      * replace (i - k) with (S (i - S k)) by lia. cbn [lookup list_lookup].
        apply if_bool_decide_ext. intuition lia.
      * apply if_bool_decide_ext. intuition lia.
Qed.

End MaskConstruction.

Lemma zeros_entry r c i t :
  i < r -> t < c ->
  mrows (zeros r c) !! i ≫= (fun row => row !! t) = Some (Num 0).
Proof.
  intros Hi Ht. unfold zeros. cbn [mrows].
  rewrite lookup_replicate_2 by done. cbn.
  by rewrite lookup_replicate_2.
Qed.

Lemma drop_last_col_entry m i t :
  rect m -> t < pred (ncols m) ->
  entry (drop_last_col m) i t = entry m i t.
Proof.
  intros Hm Ht. unfold entry, drop_last_col. cbn [mrows].
  rewrite map_is_fmap, list_lookup_fmap.
  destruct (mrows m !! i) as [r|] eqn:E; [|done]. cbn.
  eapply Forall_lookup_1 in Hm; [|exact E]. cbn in Hm.
  rewrite lookup_take_lt; [done|lia].
Qed.

Lemma drop_last_col_cut m i :
  rect m -> entry (drop_last_col m) i (pred (ncols m)) = None.
Proof.
  intros Hm. unfold entry, drop_last_col. cbn [mrows].
  rewrite map_is_fmap, list_lookup_fmap.
  destruct (mrows m !! i) as [r|] eqn:E; [|done]. cbn.
  eapply Forall_lookup_1 in Hm; [|exact E]. cbn in Hm.
  apply lookup_ge_None. rewrite length_take. lia.
Qed.

(** C8.  The positive mask of [node_seq_loss] starts as zeros of shape
    [(batch_size, num_nodes + 1)], gets a one at [(i, t)] for every token
    [t] of sequence [i], and then loses its last column.  For
    [[0, 1], [1, 2]] with three nodes the mask before slicing is
    [[1, 1, 0, 0], [0, 1, 1, 0]]. *)
Theorem node_seq_mask_construction :
  pos_mask_full 2 3 [[0; 1]; [1; 2]]%Z
  = Ok (Matrix 4 [[Num 1; Num 1; Num 0; Num 0];
                  [Num 0; Num 1; Num 1; Num 0]])
  /\ forall (batch_size num_nodes : nat) (sequences : list (list Z)),
       length sequences <= batch_size ->
       Forall (Forall (fun t => 0 <= t <= Z.of_nat num_nodes)%Z) sequences ->
       exists full,
         pos_mask_full batch_size num_nodes sequences = Ok full
         /\ nrows full = batch_size
         /\ ncols full = num_nodes + 1
         /\ (forall i t, i < batch_size -> t <= num_nodes ->
               entry full i t
               = Some (if marked sequences i t then Num 1 else Num 0))
         /\ ncols (drop_last_col full) = num_nodes
         /\ (forall i t, i < batch_size -> t < num_nodes ->
               entry (drop_last_col full) i t = entry full i t)
         /\ (forall i, entry (drop_last_col full) i num_nodes = None).
Proof.
  split; [reflexivity|].
  intros B V sequences Hlen Htok. unfold pos_mask_full.
  destruct (mark_rows_spec (V + 1) sequences (mrows (zeros B (V + 1))) 0)
    as (rows & Hmark & Hrows & Hrect & Hent).
  - unfold zeros. cbn [mrows]. rewrite length_replicate. lia.
  - unfold zeros. cbn [mrows]. apply Forall_replicate, length_replicate.
  - eapply Forall_impl; [exact Htok|]. intros row Hrow.
    eapply Forall_impl; [exact Hrow|]. intros t Ht. cbn beta in *. lia.
  - rewrite Hmark. cbn [mbind result_bind].
    exists (Matrix (V + 1) rows).
    assert (HB : length rows = B).
    { rewrite Hrows. unfold zeros. cbn [mrows]. apply length_replicate. }
    assert (Hr : rect (Matrix (V + 1) rows)) by exact Hrect.
    repeat split; try done.
    + intros i t Hi Ht. unfold entry. cbn [mrows]. rewrite Hent.
      rewrite zeros_entry by lia. cbn. f_equal. unfold marked.
      replace (i - 0) with i by lia.
      apply if_bool_decide_ext. intuition lia.
    + cbn. lia.
    + intros i t Hi Ht. apply drop_last_col_entry; [done|]. cbn. lia.
    + intros i. replace V with (pred (ncols (Matrix (V + 1) rows))) at 2
        by (cbn; lia).
      by apply drop_last_col_cut.
Qed.

(** The general statement at the batch of the example. *)
Lemma node_seq_mask_construction_example :
  exists full,
    pos_mask_full 2 3 [[0; 1]; [1; 2]]%Z = Ok full
    /\ entry full 1 2 = Some (Num 1)
    /\ entry full 1 0 = Some (Num 0)
    /\ entry (drop_last_col full) 1 3 = None.
Proof.
  destruct (proj2 node_seq_mask_construction 2 3 [[0; 1]; [1; 2]]%Z)
    as (full & Hfull & _ & _ & Hent & _ & _ & Hcut).
  - cbn. lia.
  - repeat constructor; lia.
  - exists full. split; [exact Hfull|].
    split; [|split].
    + rewrite (Hent 1 2) by lia. reflexivity.
    + rewrite (Hent 1 0) by lia. reflexivity.
    + apply Hcut.
Defined.

(** ** The training loop *)

(** C1.  The training loop passes [measure] as an extra positional
    argument to loss functions that do not take it, so the first loss call
    of every batch raises [TypeError] and no combined loss is computed. *)
Theorem batch_loss_raises_type_error
    (samples_loss : list (list R) -> list (list R) -> R)
    (cfg : config) (node_rep1 seq_rep1 node_rep2 seq_rep2 : matrix)
    (data_batch : list (list Z)) (w_batch : pyval) :
  call node_node_loss_def
    [VMatrix node_rep1; VMatrix node_rep2; VStr (loss_measure cfg)]
  = Err TypeError
  /\ batch_loss samples_loss cfg node_rep1 seq_rep1 node_rep2 seq_rep2
       data_batch w_batch
     = Err TypeError.
Proof. split; reflexivity. Qed.

Section EpochFacts.
Context {Params OptState Rng : Type}.
Variable samples_loss : list (list R) -> list (list R) -> R.
Variable str_float : R -> string.
Variable weight_init : Params -> Params.
Variable next_batch_index : nat -> nat -> list (list nat).
Variable model_forward :
  Params -> Rng -> list (list Z) -> R -> R -> result (matrix * matrix) * Rng.
Variable optimizer_step :
  Params -> OptState -> list (list Z) -> tval -> Params * OptState.

(** Every run of the batch body ends in an exception. *)
Lemma train_batch_never_returns cfg data w_rt
    (st : train_state Params OptState Rng) batch_index :
  is_ok (train_batch samples_loss model_forward optimizer_step
           cfg data w_rt st batch_index) = false.
Proof.
  unfold train_batch.
  destruct (select_rows data batch_index) as [data_batch|]; [|done].
  cbn [mbind result_bind].
  destruct (match w_rt with Some w => _ | None => _ end) as [w_batch|]; [|done].
  cbn [mbind result_bind].
  destruct (model_forward _ _ _ _ _) as [[[n1 s1]|] rng1]; [|done].
  cbn [mbind result_bind].
  destruct (model_forward _ _ _ _ _) as [[[n2 s2]|] rng2]; [|done].
  done.
Qed.

End EpochFacts.

(** C4.  When the resumed epoch equals [num_epochs] the guard
    [current_epoch < num_epochs] is false: no epoch is trained and no
    checkpoint is written, although the resumed epoch does not exceed the
    total. *)
Theorem final_epoch_is_skipped {Params OptState Rng : Type}
    (str_float : R -> string)
    (next_batch_index : nat -> nat -> list (list nat))
    (step : train_state Params OptState Rng -> list nat
            -> result (train_state Params OptState Rng))
    (cfg : config) (data_rows : nat)
    (st : train_state Params OptState Rng)
    (fs : gmap string (file Params OptState)) :
  train_from str_float next_batch_index step cfg data_rows
    (num_epochs cfg) st fs
  = (fs, Ok st).
Proof. unfold train_from. rewrite decide_False by lia. done. Qed.

(** ** Resuming from a checkpoint *)

Section ResumeFacts.
Context {Params OptState Rng : Type}.
Variable str_float : R -> string.
Variable weight_init : Params -> Params.

Abbreviation dir := (gmap string (file Params OptState)).

Lemma prefix_app (p s : string) : String.prefix p (p +:+ s) = true.
Proof.
  induction p as [|a p IH]; simpl.
  - by destruct s.
  - destruct (Ascii.ascii_dec a a); [exact IH|done].
Qed.

Lemma checkpoint_name_prefix cfg e :
  String.prefix (model_name str_float cfg) (checkpoint_name str_float cfg e)
  = true.
Proof. unfold checkpoint_name. cbn [String.concat]. apply prefix_app. Qed.

Lemma elem_of_checkpoints_of cfg (fs : dir) name :
  name ∈ checkpoints_of str_float cfg fs
  <-> is_Some (fs !! name)
      /\ String.prefix (model_name str_float cfg) name = true.
Proof.
  unfold checkpoints_of, listdir. rewrite list_elem_of_filter, list_elem_of_fmap.
  split.
  - intros (Hp & [k v] & -> & Hkv). apply elem_of_map_to_list in Hkv. eauto.
  - intros ([v Hv] & Hp). split; [done|]. exists (name, v). split; [done|].
    by apply elem_of_map_to_list.
Qed.

Lemma NoDup_checkpoints_of cfg (fs : dir) :
  NoDup (checkpoints_of str_float cfg fs).
Proof. apply NoDup_filter, NoDup_fst_map_to_list. Qed.

Lemma latest_elem (l : list string) :
  l <> [] -> exists p, latest l = Some p /\ p ∈ l.
Proof.
  intros Hl. unfold latest, sorted.
  pose proof (merge_sort_Permutation String.le l) as HP.
  destruct (last (merge_sort String.le l)) as [p|] eqn:E.
  - exists p. split; [done|]. rewrite <- HP.
    apply last_Some in E as [l' ->]. set_solver.
  - apply last_None in E. rewrite E in HP.
    by apply Permutation_nil_l in HP.
Qed.

Lemma latest_singleton (x : string) : latest [x] = Some x.
Proof. reflexivity. Qed.

Lemma StronglySorted_last_max {A} (R : relation A) l x :
  StronglySorted R (l ++ [x]) -> Forall (fun y => R y x) l.
Proof.
  induction l as [|y l IH]; intros H; [constructor|].
  cbn in H. apply StronglySorted_inv in H as [Hs Hall].
  constructor; [|by apply IH].
  rewrite Forall_app, Forall_singleton in Hall. by destruct Hall.
Qed.

Lemma latest_greatest (l : list string) (p : string) :
  latest l = Some p -> Forall (fun q => String.le q p) l.
Proof.
  unfold latest, sorted. intros H.
  pose proof (merge_sort_Permutation String.le l) as HP.
  pose proof (StronglySorted_merge_sort String.le l) as HS.
  apply last_Some in H as [l' Hl']. rewrite Hl' in HP, HS.
  rewrite <- HP. apply Forall_app. split.
  - by apply StronglySorted_last_max.
  - by apply Forall_singleton.
Qed.

(** The file the resume step selects: it is in the directory, it is a
    file of the run, and no file of the run has a greater name. *)
Lemma latest_checkpoint_selected cfg (fs : dir) :
  checkpoints_of str_float cfg fs <> [] ->
  exists path,
    latest (checkpoints_of str_float cfg fs) = Some path
    /\ is_Some (fs !! path)
    /\ String.prefix (model_name str_float cfg) path = true
    /\ forall q, is_Some (fs !! q) ->
         String.prefix (model_name str_float cfg) q = true ->
         String.le q path.
Proof.
  intros Hne. destruct (latest_elem _ Hne) as (path & Hlatest & Hin).
  exists path. split; [done|].
  apply elem_of_checkpoints_of in Hin as [Hsome Hp]. repeat split; try done.
  intros q Hq Hpq. apply latest_greatest in Hlatest.
  rewrite Forall_forall in Hlatest. apply Hlatest.
  by apply elem_of_checkpoints_of.
Qed.

Lemma checkpoints_after_first_save cfg (fs : dir) e st :
  checkpoints_of str_float cfg fs = [] ->
  checkpoints_of str_float cfg (torch_save (Rng := Rng) str_float cfg e st fs)
  = [checkpoint_name str_float cfg e].
Proof.
  intros Hnone.
  assert (HP : checkpoints_of str_float cfg (torch_save str_float cfg e st fs)
               ≡ₚ [checkpoint_name str_float cfg e]).
  { apply NoDup_Permutation.
    - apply NoDup_checkpoints_of.
    - apply NoDup_singleton.
    - intros name. rewrite elem_of_checkpoints_of, list_elem_of_singleton.
      unfold torch_save. split.
      + intros (Hsome & Hp).
        destruct (decide (checkpoint_name str_float cfg e = name)) as [|Hne];
          [done|].
        rewrite lookup_insert_ne in Hsome by done.
        assert (Hin : name ∈ checkpoints_of str_float cfg fs)
          by by apply elem_of_checkpoints_of.
        rewrite Hnone in Hin. by apply not_elem_of_nil in Hin.
      + intros ->. rewrite lookup_insert_eq. split; [by eexists|].
        apply checkpoint_name_prefix. }
  by apply Permutation_singleton_r in HP.
Qed.

End ResumeFacts.

(** C3.  With [retrain] set, training starts at epoch 1 from freshly
    initialised weights whatever the directory holds.  Without it, and
    with a file of the run in the directory, the state is loaded from the
    file of the run whose name is greatest in the order of [str], and
    training resumes one past the epoch stored in that file; so a
    directory with a single checkpoint of the run, such as the one a first
    save leaves, is resumed after that checkpoint.  The claim fails once
    epoch numbers differ in length: with the checkpoints of epochs 9 and
    10 in the directory, the checkpoint of epoch 10 exists, and training
    resumes at epoch 10 from the state of epoch 9, not at epoch 11. *)
Theorem resume_precedence_and_round_trip {Params OptState Rng : Type}
    (str_float : R -> string) (weight_init : Params -> Params)
    (cfg : config) (fs : gmap string (file Params OptState))
    (model : Params) (optimizer : OptState) :
  (retrain cfg = true ->
     resume str_float weight_init cfg fs model optimizer
     = Ok (weight_init model, optimizer, 1%Z))
  /\ (retrain cfg = false -> checkpoints_of str_float cfg fs <> [] ->
        exists path,
          latest (checkpoints_of str_float cfg fs) = Some path
          /\ is_Some (fs !! path)
          /\ String.prefix (model_name str_float cfg) path = true
          /\ (forall q, is_Some (fs !! q) ->
                String.prefix (model_name str_float cfg) q = true ->
                String.le q path)
          /\ (forall c, fs !! path = Some (FCheckpoint c) ->
                resume str_float weight_init cfg fs model optimizer
                = Ok (model_state_dict c, optimizer_state_dict c,
                      (epoch c + 1)%Z))
          /\ (fs !! path = Some FOther ->
                resume str_float weight_init cfg fs model optimizer
                = Err UnpicklingError))
  /\ (retrain cfg = false ->
        forall path c,
          fs !! path = Some (FCheckpoint c) ->
          String.prefix (model_name str_float cfg) path = true ->
          (forall q, is_Some (fs !! q) ->
             String.prefix (model_name str_float cfg) q = true -> q = path) ->
          resume str_float weight_init cfg fs model optimizer
          = Ok (model_state_dict c, optimizer_state_dict c, (epoch c + 1)%Z))
  /\ (retrain cfg = false -> checkpoints_of str_float cfg fs = [] ->
        forall (e : Z) (st : train_state Params OptState Rng),
          resume str_float weight_init cfg
            (torch_save str_float cfg e st fs) model optimizer
          = Ok (st_model st, st_optimizer st, (e + 1)%Z))
  /\ (retrain run_cfg = false
      /\ saved_epochs [9; 10]%Z !! "sv_0.5_10_p_10.pt"
         = Some (FCheckpoint (Checkpoint 10 10 10)%Z)
      /\ resume run_str_float (fun m => m) run_cfg (saved_epochs [9; 10]%Z)
           0%Z 0%Z
         = Ok (9, 9, 10)%Z).
Proof.
  assert (Hsel : retrain cfg = false ->
            forall path, latest (checkpoints_of str_float cfg fs) = Some path ->
            resume str_float weight_init cfg fs model optimizer
            = (c ← torch_load fs path;
               Ok (model_state_dict c, optimizer_state_dict c,
                   (epoch c + 1)%Z))).
  { intros Hr path Hlatest. unfold resume. rewrite Hr, Hlatest.
    destruct (checkpoints_of str_float cfg fs) eqn:E; [done|].
    by rewrite bool_decide_eq_false_2. }
  split; [|split; [|split; [|split]]].
  - intros Hr. unfold resume. by rewrite Hr.
  - intros Hr Hne.
    destruct (latest_checkpoint_selected str_float cfg fs Hne)
      as (path & Hlatest & Hsome & Hp & Hmax).
    exists path. repeat split; try done.
    + intros c Hc. rewrite (Hsel Hr path Hlatest). unfold torch_load.
      by rewrite Hc.
    + intros Hc. rewrite (Hsel Hr path Hlatest). unfold torch_load.
      by rewrite Hc.
  - intros Hr path c Hc Hp Honly.
    assert (Hne : checkpoints_of str_float cfg fs <> []).
    { intros Hnil.
      assert (Hin : path ∈ checkpoints_of str_float cfg fs).
      { apply elem_of_checkpoints_of. split; [by eexists|done]. }
      rewrite Hnil in Hin. by apply not_elem_of_nil in Hin. }
    destruct (latest_checkpoint_selected str_float cfg fs Hne)
      as (path' & Hlatest & Hsome & Hp' & _).
    rewrite (Honly path' Hsome Hp') in Hlatest.
    rewrite (Hsel Hr path Hlatest). unfold torch_load. by rewrite Hc.
  - intros Hr Hnone e st. unfold resume.
    rewrite Hr, (checkpoints_after_first_save _ _ _ _ _ Hnone).
    cbn [negb andb bool_decide]. rewrite bool_decide_eq_false_2 by done.
    cbn [negb]. rewrite latest_singleton.
    unfold torch_load, torch_save. by rewrite lookup_insert_eq.
  - repeat split; vm_compute; reflexivity.
Qed.

(** The file the resume step picks is the greatest name in the order of
    [str]. *)
Theorem latest_is_lexicographic_max (l : list string) (p : string) :
  latest l = Some p -> p ∈ l /\ Forall (fun q => String.le q p) l.
Proof.
  unfold latest, sorted. intros H.
  pose proof (merge_sort_Permutation String.le l) as HP.
  pose proof (StronglySorted_merge_sort String.le l) as HS.
  apply last_Some in H as [l' Hl']. rewrite Hl' in HP, HS. split.
  - rewrite <- HP. set_solver.
  - rewrite <- HP. apply Forall_app. split.
    + by apply StronglySorted_last_max.
    + by apply Forall_singleton.
Qed.

(** Epoch 9 against epoch 10. *)
Lemma latest_is_lexicographic_max_example :
  "sv_0.5_10_p_9.pt" ∈ ["sv_0.5_10_p_10.pt"; "sv_0.5_10_p_9.pt"]
  /\ Forall (fun q => String.le q "sv_0.5_10_p_9.pt")
       ["sv_0.5_10_p_10.pt"; "sv_0.5_10_p_9.pt"].
Proof.
  apply latest_is_lexicographic_max. vm_compute. reflexivity.
Defined.

Section LoopFacts.
Context {Params OptState Rng : Type}.
Variable str_float : R -> string.
Variable next_batch_index : nat -> nat -> list (list nat).
Variable step : train_state Params OptState Rng -> list nat
                -> result (train_state Params OptState Rng).

Lemma run_batches_returns batches :
  (forall st b, b ∈ batches -> exists st', step st b = Ok st') ->
  forall st, exists st', run_batches step st batches = Ok st'.
Proof.
  induction batches as [|b rest IH]; intros Hstep st; [by eexists|].
  cbn [run_batches]. destruct (Hstep st b) as [st' ->]; [by left|].
  cbn [mbind result_bind]. apply IH. intros st0 b0 Hb0. apply Hstep.
  by right.
Qed.

Lemma run_epochs_checkpoints cfg batches epochs :
  (forall st b, b ∈ batches -> exists st', step st b = Ok st') ->
  forall st fs,
  exists st' fs',
    run_epochs str_float step cfg batches epochs st fs = (fs', Ok st')
    /\ (forall name, is_Some (fs !! name) -> is_Some (fs' !! name))
    /\ (forall e, e ∈ epochs ->
          is_Some (fs' !! checkpoint_name str_float cfg e)).
Proof.
  intros Hstep. induction epochs as [|e rest IH]; intros st fs.
  - exists st, fs. repeat split; [done|]. intros e He.
    by apply not_elem_of_nil in He.
  - cbn [run_epochs].
    destruct (run_batches_returns batches Hstep st) as [st1 ->].
    destruct (IH st1 (torch_save str_float cfg e st1 fs))
      as (st' & fs' & Hrun & Hkeep & Hnew).
    exists st', fs'. split; [done|]. split.
    + intros name Hname. apply Hkeep. unfold torch_save.
      destruct (decide (checkpoint_name str_float cfg e = name)) as [<-|Hne].
      * rewrite lookup_insert_eq. by eexists.
      * by rewrite lookup_insert_ne.
    + intros e' [->|He']%elem_of_cons; [|by apply Hnew].
      apply Hkeep. unfold torch_save. rewrite lookup_insert_eq. by eexists.
Qed.

Lemma elem_of_py_range a b e : e ∈ py_range a b <-> (a <= e < b)%Z.
Proof.
  unfold py_range. rewrite map_is_fmap, list_elem_of_fmap. split.
  - intros (i & -> & Hi). apply elem_of_seq in Hi. lia.
  - intros He. exists (Z.to_nat (e - a)). split; [lia|].
    apply elem_of_seq. lia.
Qed.

End LoopFacts.

(** Below the configured total the loop does what the specification says:
    when no batch of the run raises, every epoch from the resumed one
    through [num_epochs] leaves a checkpoint under its name.  For the
    batch body of [train] this is the case of data that yields no batch
    at all. *)
Theorem train_from_checkpoints_every_epoch {Params OptState Rng : Type}
    (str_float : R -> string)
    (next_batch_index : nat -> nat -> list (list nat))
    (step : train_state Params OptState Rng -> list nat
            -> result (train_state Params OptState Rng))
    (cfg : config) (data_rows : nat) (current_epoch : Z)
    (st : train_state Params OptState Rng)
    (fs : gmap string (file Params OptState)) :
  (forall st b, b ∈ next_batch_index data_rows (batch_size cfg) ->
     exists st', step st b = Ok st') ->
  (current_epoch < num_epochs cfg)%Z ->
  exists st' fs',
    train_from str_float next_batch_index step cfg data_rows current_epoch st fs
    = (fs', Ok st')
    /\ forall e, (current_epoch <= e <= num_epochs cfg)%Z ->
         is_Some (fs' !! checkpoint_name str_float cfg e).
Proof.
  intros Hstep Hlt. unfold train_from. rewrite decide_True by done.
  destruct (run_epochs_checkpoints str_float step cfg
              (next_batch_index data_rows (batch_size cfg))
              (py_range current_epoch (num_epochs cfg + 1)) Hstep st fs)
    as (st' & fs' & Hrun & _ & Hnew).
  exists st', fs'. split; [done|]. intros e He. apply Hnew.
  apply elem_of_py_range. lia.
Qed.

(** [train] itself, started afresh for three epochs on data without
    sequences: no batch is drawn, and all three checkpoints are written. *)
Lemma train_from_checkpoints_every_epoch_example :
  exists st' fs',
    train (Params := Z) (OptState := Z) (Rng := unit)
      (fun _ _ => 3%R) (fun _ => "0.5") (fun m => m) (fun _ _ => [])
      (fun _ rng _ _ _ => (Err RuntimeError, rng)) (fun m o _ _ => (m, o))
      (Config 0 0 3 64 "jsd" false "p" (1 / 2) 10 false) ∅ 0%Z 0%Z tt [] None
    = (fs', Ok st')
    /\ forall e, (1 <= e <= 3)%Z ->
         is_Some (fs' !! checkpoint_name (fun _ => "0.5")
                           (Config 0 0 3 64 "jsd" false "p" (1 / 2) 10 false) e).
Proof.
  unfold train.
  change (resume _ _ _ ∅ 0%Z 0%Z) with (Ok (A := Z * Z * Z) (0, 0, 1)%Z).
  apply (train_from_checkpoints_every_epoch (Rng := unit)).
  - intros st b Hb. by apply not_elem_of_nil in Hb.
  - cbn. lia.
Defined.

(** ** The model classes *)

Import Model.

Section UpdatedModel.
Variables (vocab_size embed_size hidden_size : nat).
Variables (edge_index : list (nat * nat)) (seq_encoder : nat) (mode : string).

Local Abbreviation self :=
  (UpdatedSingleViewModel vocab_size embed_size hidden_size
     edge_index seq_encoder mode).

Lemma updated_padding : getattr self "padding" = Err AttributeError.
Proof. reflexivity. Qed.
Lemma updated_mode : getattr self "mode" = Ok (AStr mode).
Proof. reflexivity. Qed.
Lemma updated_node_embedding :
  getattr self "node_embedding" = Ok (AEmbedding (vocab_size, embed_size)).
Proof. reflexivity. Qed.
Lemma updated_edge_index : getattr self "edge_index" = Ok (AEdges edge_index).
Proof. reflexivity. Qed.
Lemma updated_graph_encoder :
  getattr self "graph_encoder"
  = Ok (AGraphEncoder (HyperbolicGraphEncoder embed_size hidden_size 2)).
Proof. reflexivity. Qed.

Lemma updated_encode_graph rate :
  encode_graph self rate
  = if decide (hidden_size = embed_size) then Ok (vocab_size, hidden_size)
    else Err RuntimeError.
Proof.
  unfold encode_graph.
  rewrite updated_node_embedding, updated_edge_index, updated_graph_encoder.
  cbn [mbind result_bind as_embedding as_layers HyperbolicGraphEncoder replicate graph_forward].
  unfold conv_forward. cbn [fst snd conv_in conv_out].
  rewrite decide_True by done. cbn [mbind result_bind fst snd].
  by case_decide.
Qed.

Lemma updated_encode_sequence sequences rate :
  encode_sequence self sequences rate
  = if bool_decide (mode = "p") then Err AttributeError
    else if decide (hidden_size = embed_size) then Err AttributeError
    else Err RuntimeError.
Proof.
  unfold encode_sequence. rewrite updated_mode. cbn [mbind result_bind is_plain].
  case_bool_decide.
  - by rewrite updated_node_embedding, updated_padding.
  - rewrite updated_encode_graph, updated_padding. by case_decide.
Qed.

Lemma updated_forward sequences rate1 rate2 :
  forward self sequences rate1 rate2
  = if decide (hidden_size = embed_size) then Err AttributeError
    else Err RuntimeError.
Proof.
  unfold forward. rewrite updated_encode_graph, updated_encode_sequence.
  case_decide; [|done]. cbn. by case_bool_decide.
Qed.

End UpdatedModel.

(** C10, amended.  [UpdatedSingleViewModel] never encodes a sequence:
    its constructor does not assign [padding].  In plain mode
    [encode_sequence] raises [AttributeError]; in propagated mode, and in
    [forward], the graph encoder runs first, so the [AttributeError] is
    reached when the embedding width equals the hidden width and the
    second layer's shape error is raised otherwise. *)
Theorem updated_model_never_encodes
    (vocab_size embed_size hidden_size : nat)
    (edge_index : list (nat * nat)) (seq_encoder : nat) (mode : string)
    (sequences : shape) (drop_edge_rate drop_road_rate : R) :
  let self := UpdatedSingleViewModel vocab_size embed_size hidden_size
                edge_index seq_encoder mode in
  is_ok (encode_sequence self sequences drop_road_rate) = false
  /\ is_ok (forward self sequences drop_edge_rate drop_road_rate) = false
  /\ (mode = "p" ->
        encode_sequence self sequences drop_road_rate = Err AttributeError)
  /\ (embed_size = hidden_size ->
        encode_sequence self sequences drop_road_rate = Err AttributeError
        /\ forward self sequences drop_edge_rate drop_road_rate
           = Err AttributeError)
  /\ (embed_size <> hidden_size ->
        (mode <> "p" ->
           encode_sequence self sequences drop_road_rate = Err RuntimeError)
        /\ forward self sequences drop_edge_rate drop_road_rate
           = Err RuntimeError).
Proof.
  intros self. unfold self.
  rewrite updated_encode_sequence, updated_forward.
  repeat split.
  - by repeat case_match.
  - by repeat case_match.
  - intros ->. done.
  - subst. rewrite decide_True by done. by case_bool_decide.
  - subst. by rewrite decide_True.
  - intros Hm. rewrite bool_decide_eq_false_2 by done. by rewrite decide_False.
  - by rewrite decide_False.
Qed.

(** C10 as stated fails when the embedding width differs from the hidden
    width: the error is the graph encoder's [RuntimeError], not an
    [AttributeError]. *)
Lemma updated_model_shape_error_first :
  encode_sequence (UpdatedSingleViewModel 4 2 3 [(0, 1)] 3 "g") (1, 5) 0
  = Err RuntimeError
  /\ forward (UpdatedSingleViewModel 4 2 3 [(0, 1)] 3 "p") (1, 5) 0 0
     = Err RuntimeError
  /\ Err RuntimeError <> Err (A := shape) AttributeError.
Proof. repeat split; [vm_compute; reflexivity..|discriminate]. Qed.

Section SingleView.
Variables (vocab_size embed_size hidden_size : nat).
Variables (edge_index : list (nat * nat)) (mode : string).

Local Abbreviation self :=
  (SingleViewModel vocab_size embed_size hidden_size edge_index
     (GraphEncoder embed_size hidden_size 2) hidden_size mode).

Lemma single_view_encode_graph rate :
  encode_graph self rate = Ok (vocab_size, hidden_size).
Proof.
  unfold encode_graph.
  change (getattr self "node_embedding")
    with (Ok (A := attr) (AEmbedding (vocab_size, embed_size))).
  change (getattr self "edge_index") with (Ok (A := attr) (AEdges edge_index)).
  change (getattr self "graph_encoder")
    with (Ok (A := attr) (AGraphEncoder (GraphEncoder embed_size hidden_size 2))).
  cbn [mbind result_bind as_embedding as_layers GraphEncoder replicate
       graph_forward pred].
  unfold conv_forward. cbn [fst snd conv_in conv_out].
  rewrite decide_True by done. cbn [mbind result_bind fst snd].
  by rewrite decide_True.
Qed.

Lemma single_view_padding :
  getattr self "padding" = Ok (ATensor (1, hidden_size)).
Proof. reflexivity. Qed.

Lemma pe_max_len_gt_1 : 1 < pe_max_len.
Proof. unfold pe_max_len. lia. Qed.

Lemma TransformerModel_forward_same (d t b : nat) :
  TransformerModel_forward d (t, b, d)
  = if decide (t <= pe_max_len) then Ok (t, b, d) else Err RuntimeError.
Proof.
  unfold TransformerModel_forward. pose proof pe_max_len_gt_1 as Hmax.
  case_decide as Ht.
  - rewrite Nat.min_l, !bdim_same by done. by rewrite decide_True.
  - rewrite Nat.min_r by lia. unfold bdim at 1.
    by rewrite !decide_False by lia.
Qed.

(** [encode_sequence] of the model, for every shape of the batch. *)
Lemma single_view_encode_sequence (batch_size max_seq_len : nat) rate :
  encode_sequence self (batch_size, max_seq_len) rate
  = if bool_decide (mode = "p" /\ embed_size <> hidden_size)
    then Err RuntimeError
    else if decide (0 < batch_size /\ 0 < max_seq_len <= pe_max_len)
         then Ok (batch_size, hidden_size)
         else Err RuntimeError.
Proof.
  assert (Htail : forall w : nat,
    (lookup_table ← cat0 (vocab_size, w) (1, hidden_size);
     _ ← getattr self "vocab_size";
     if decide (batch_size * max_seq_len = 0) then Err RuntimeError
     else
       d_model ← getattr self "seq_encoder" ≫= as_seq_encoder;
       seq_enc ← TransformerModel_forward d_model
                   (max_seq_len, batch_size, lookup_table.2);
       Ok (batch_size, seq_enc.2))
    = if decide (w = hidden_size)
      then if decide (0 < batch_size /\ 0 < max_seq_len <= pe_max_len)
           then Ok (batch_size, hidden_size)
           else Err RuntimeError
      else Err RuntimeError).
  { intros w. unfold cat0. cbn [fst snd].
    destruct (decide (w = hidden_size)) as [Hw|Hw]; [|done].
    subst w. cbn [mbind result_bind fst snd].
    change (getattr self "vocab_size") with (Ok (A := attr) (AInt vocab_size)).
    change (getattr self "seq_encoder")
      with (Ok (A := attr) (ASeqEncoder hidden_size)).
    cbn [mbind result_bind as_seq_encoder].
    destruct (decide (batch_size * max_seq_len = 0)) as [H0|H0].
    - by rewrite decide_False by nia.
    - rewrite TransformerModel_forward_same.
      destruct (decide (max_seq_len <= pe_max_len)) as [Ht|Ht].
      + cbn [mbind result_bind snd]. by rewrite decide_True by nia.
      + cbn [mbind result_bind]. by rewrite decide_False by lia. }
  unfold encode_sequence.
  change (getattr self "mode") with (Ok (A := attr) (AStr mode)).
  cbn [mbind result_bind is_plain].
  destruct (bool_decide (mode = "p")) eqn:Hm.
  - apply bool_decide_eq_true in Hm.
    change (getattr self "node_embedding")
      with (Ok (A := attr) (AEmbedding (vocab_size, embed_size))).
    rewrite single_view_padding.
    cbn [mbind result_bind as_tensor as_embedding].
    etrans; [apply (Htail embed_size)|].
    destruct (decide (embed_size = hidden_size)) as [He|He].
    + by rewrite bool_decide_eq_false_2 by (intros [_ ?]; done).
    + by rewrite bool_decide_eq_true_2.
  - apply bool_decide_eq_false in Hm.
    rewrite single_view_encode_graph, single_view_padding.
    cbn [mbind result_bind as_tensor].
    etrans; [apply (Htail hidden_size)|].
    rewrite decide_True by done.
    by rewrite bool_decide_eq_false_2 by (intros [? _]; done).
Qed.

End SingleView.

(** The sibling class assigns [padding], so it does encode sequences, in
    propagated mode and in plain mode when the embedding width is the
    hidden width: a batch with at least one sequence and between one and
    [max_len] positions gives one row of the hidden width per sequence;
    a batch without sequences or without positions, and one with more
    than [max_len] positions, raise [RuntimeError]. *)
Theorem single_view_model_encodes
    (vocab_size embed_size hidden_size : nat)
    (edge_index : list (nat * nat)) (mode : string)
    (batch_size max_seq_len : nat) (drop_rate : R) :
  let self := SingleViewModel vocab_size embed_size hidden_size edge_index
                (GraphEncoder embed_size hidden_size 2) hidden_size mode in
  mode <> "p" \/ embed_size = hidden_size ->
  (0 < batch_size -> 0 < max_seq_len <= pe_max_len ->
     encode_sequence self (batch_size, max_seq_len) drop_rate
     = Ok (batch_size, hidden_size))
  /\ (batch_size = 0 \/ max_seq_len = 0 \/ pe_max_len < max_seq_len ->
        encode_sequence self (batch_size, max_seq_len) drop_rate
        = Err RuntimeError).
Proof.
  intros self Hmode. unfold self. rewrite single_view_encode_sequence.
  rewrite bool_decide_eq_false_2 by (intros [? ?]; destruct Hmode; done).
  split.
  - intros HB HT. by rewrite decide_True.
  - intros Hbad. by rewrite decide_False by lia.
Qed.

(** Propagated mode from width 2 to width 4, one sequence of five
    tokens. *)
Lemma single_view_model_encodes_example :
  encode_sequence
    (SingleViewModel 4 2 4 [(0, 1)] (GraphEncoder 2 4 2) 4 "g") (1, 5) 0
  = Ok (1, 4).
Proof.
  apply (proj1 (single_view_model_encodes 4 2 4 [(0, 1)] "g" 1 5 0%R
                  ltac:(left; discriminate))).
  - lia.
  - split; [lia|]. apply Nat.leb_le. vm_compute. reflexivity.
Defined.

(** With a single configured epoch a fresh run trains nothing. *)
Lemma train_single_epoch_trains_nothing {Params OptState Rng : Type}
    (samples_loss : list (list R) -> list (list R) -> R)
    (str_float : R -> string) (weight_init : Params -> Params)
    (next_batch_index : nat -> nat -> list (list nat))
    (model_forward :
       Params -> Rng -> list (list Z) -> R -> R
       -> result (matrix * matrix) * Rng)
    (optimizer_step :
       Params -> OptState -> list (list Z) -> tval -> Params * OptState)
    (cfg : config) (fs : gmap string (file Params OptState))
    (model : Params) (optimizer : OptState) (rng : Rng)
    (data : list (list Z)) (w_rt : option (list (list tval))) :
  retrain cfg = true -> num_epochs cfg = 1%Z ->
  train samples_loss str_float weight_init next_batch_index model_forward
    optimizer_step cfg fs model optimizer rng data w_rt
  = (fs, Ok (TrainState (weight_init model) optimizer rng)).
Proof.
  intros Hr Hn. unfold train, resume. rewrite Hr. cbn [negb andb].
  unfold train_from. rewrite Hn. by rewrite decide_False by lia.
Qed.

(** ** Worked instances *)

Lemma enorm_lt_1 a : (rsum (map (fun x => x * x) a) < 1)%R -> (enorm a < 1)%R.
Proof.
  intros H. unfold enorm. rewrite <- sqrt_1. apply sqrt_lt_1_alt.
  split; [apply rsum_squares_nonneg|done].
Qed.

(** Two pairs of points of the unit disc. *)
Lemma hyperbolic_distance_pairwise_example :
  hyperbolic_distance (of_reals 2 [[0; 0]; [1 / 2; 0]]%R)
    (of_reals 2 [[1 / 2; 0]; [0; 1 / 4]]%R)
  = Ok (map Num (zip_with poincare_distance
                   [[0; 0]; [1 / 2; 0]]%R [[1 / 2; 0]; [0; 1 / 4]]%R)).
Proof.
  apply hyperbolic_distance_pairwise.
  - reflexivity.
  - repeat constructor.
  - repeat constructor.
  - repeat constructor; apply enorm_lt_1; cbn; lra.
  - repeat constructor; apply enorm_lt_1; cbn; lra.
Defined.

(** Two points of the unit disc, each paired with itself. *)
Lemma node_node_loss_identical_views_example :
  node_node_loss (of_reals 2 [[1 / 2; 0]; [0; 1 / 4]]%R)
    (of_reals 2 [[1 / 2; 0]; [0; 1 / 4]]%R) = Ok (Num 0).
Proof.
  apply node_node_loss_identical_views.
  - discriminate.
  - repeat constructor.
  - repeat constructor; apply enorm_lt_1; cbn; lra.
Defined.

(** C2.  With checkpoints of epochs 1 to 10 on disk the resume step
    selects the file of epoch 9, and with epochs 2 and 10 the file of
    epoch 2: file names are sorted as strings, not by epoch number. *)
Theorem latest_checkpoint_is_lexicographic :
  saved_epochs (py_range 1 11) !! "sv_0.5_10_p_10.pt"
  = Some (FCheckpoint (Checkpoint 10 10 10)%Z)
  /\ latest (checkpoints_of run_str_float run_cfg (saved_epochs (py_range 1 11)))
     = Some "sv_0.5_10_p_9.pt"
  /\ resume run_str_float (fun m => m) run_cfg
       (saved_epochs (py_range 1 11)) 0%Z 0%Z
     = Ok (9, 9, 10)%Z
  /\ latest (checkpoints_of run_str_float run_cfg (saved_epochs [2; 10]%Z))
     = Some "sv_0.5_10_p_2.pt"
  /\ resume run_str_float (fun m => m) run_cfg
       (saved_epochs [2; 10]%Z) 0%Z 0%Z
     = Ok (2, 2, 3)%Z.
Proof. repeat split; vm_compute; reflexivity. Qed.

(** Saving at epoch 5 and resuming gives epoch 6. *)
Lemma resume_precedence_and_round_trip_example :
  resume run_str_float (fun m => m) run_cfg
    (torch_save (Rng := unit) run_str_float run_cfg 5 (TrainState 7 8 tt) ∅)%Z
    0%Z 0%Z
  = Ok (7, 8, 6)%Z.
Proof.
  apply (proj1 (proj2 (proj2 (proj2
           (resume_precedence_and_round_trip (Rng := unit)
              run_str_float (fun m => m) run_cfg ∅ 0%Z 0%Z))))).
  - reflexivity.
  - vm_compute. reflexivity.
Defined.

(** Equal widths: the missing attribute is what fails, in both modes. *)
Lemma updated_model_never_encodes_example :
  Model.encode_sequence (Model.UpdatedSingleViewModel 4 3 3 [(0, 1)] 3 "p")
    (1, 5) 0 = Err AttributeError
  /\ Model.forward (Model.UpdatedSingleViewModel 4 3 3 [(0, 1)] 3 "g")
       (1, 5) 0 0 = Err AttributeError.
Proof.
  split.
  - apply (updated_model_never_encodes 4 3 3 [(0, 1)] 3 "p" (1, 5) 0%R 0%R).
    reflexivity.
  - apply (updated_model_never_encodes 4 3 3 [(0, 1)] 3 "g" (1, 5) 0%R 0%R).
    reflexivity.
Defined.

(** * Further properties of the code *)

(** ** The losses as functions of their inputs *)

Section LossValues.
Local Open Scope R_scope.

Lemma tsum_pick (i : nat) (rv : list R) : forall s : nat,
  tsum (zip_with tmul (map Num rv)
          (map (fun j => if decide (i = j) then Num 1 else Num 0)
             (seq s (length rv))))
  = Num (if bool_decide (s <= i < s + length rv)%nat
         then default 0 (rv !! (i - s)%nat) else 0).
Proof.
  induction rv as [|x rv IH]; intros s.
  - cbn. by rewrite bool_decide_eq_false_2 by lia.
  - cbn [length seq map zip_with].
    change (tsum (?a :: ?l)) with (tadd a (tsum l)). rewrite IH.
    destruct (decide (i = s)) as [->|Hne].
    + rewrite bool_decide_eq_false_2 by lia.
      rewrite bool_decide_eq_true_2 by lia.
      replace (s - s)%nat with 0%nat by lia. cbn. f_equal. lra.
    + cbn [tmul tadd]. f_equal.
      destruct (decide (S s <= i < S s + length rv)%nat) as [Hin|Hout].
      * rewrite !bool_decide_eq_true_2 by (cbn; lia).
        replace (i - s)%nat with (S (i - S s)) by lia.
        rewrite Rmult_0_r, Rplus_0_l. reflexivity.
      * rewrite !bool_decide_eq_false_2 by (cbn; lia). lra.
Qed.

Lemma map_lookup_seq (rv : list R) : forall s : nat,
  map (fun i => default 0 (rv !! (i - s)%nat)) (seq s (length rv)) = rv.
Proof.
  induction rv as [|x rv IH]; intros s; [done|].
  cbn [length seq map]. replace (s - s)%nat with 0%nat by lia. cbn. f_equal.
  rewrite <- (IH (S s)) at 2. apply map_ext_in. intros i Hi.
  apply in_seq in Hi. by replace (i - s)%nat with (S (i - S s)) by lia.
Qed.

Lemma tsum_concat_finite {A} (f : A -> list tval) (g : A -> R) (l : list A) :
  Forall (fun i => tsum (f i) = Num (g i)) l ->
  tsum (concat (map f l)) = Num (rsum (map g l)).
Proof.
  induction 1 as [|i l Hi Hl IH]; [done|].
  cbn [map concat]. by rewrite (tsum_app_finite _ _ _ _ Hi IH).
Qed.

(** The identity mask picks the diagonal of the broadcast product. *)
Lemma msum_diagonal (rv : list R) :
  tsum (concat (map (zip_with tmul (map Num rv))
                  (mrows (eye (length rv)))))
  = Num (rsum rv).
Proof.
  unfold eye. cbn [mrows]. rewrite map_map.
  rewrite (tsum_concat_finite _ (fun i => default 0 (rv !! (i - 0)%nat))).
  - by rewrite map_lookup_seq.
  - apply Forall_forall. intros i Hi. apply elem_of_seq in Hi.
    unfold eye_row. rewrite tsum_pick.
    by rewrite bool_decide_eq_true_2 by lia.
Qed.

Lemma node_node_loss_reals d a b :
  length a = length b ->
  Forall (fun r => length r = d) a ->
  Forall (fun r => length r = d) b ->
  Forall (fun r => enorm r < 1) a ->
  Forall (fun r => enorm r < 1) b ->
  node_node_loss (of_reals d a) (of_reals d b)
  = Ok (tdiv (Num (rsum (zip_with poincare_distance a b)))
          (Num (INR (length a)))).
Proof.
  intros Hlen Ha Hb Na Nb. unfold node_node_loss.
  rewrite hyperbolic_distance_reals by done. cbn [mbind result_bind].
  assert (Hn : nrows (of_reals d a) = length a).
  { unfold nrows, of_reals. cbn. by rewrite length_map. }
  assert (Hl : length (zip_with poincare_distance a b) = length a).
  { rewrite length_zip_with. lia. }
  rewrite Hn, <- Hl. rewrite bcast12_eye by by rewrite length_map.
  cbn [mbind result_bind]. rewrite msum_eye. do 2 f_equal.
  unfold msum. cbn [mrows]. apply msum_diagonal.
Qed.

End LossValues.

(** [node_node_loss] of two views of the same shape inside the unit ball
    is the arithmetic mean of the hyperbolic distances of same-index rows:
    of the all-pairs product only the diagonal survives. *)
Theorem node_node_loss_is_mean_distance (d : nat) (a b : list (list R)) :
  a <> [] ->
  length a = length b ->
  Forall (fun r => length r = d) a ->
  Forall (fun r => length r = d) b ->
  Forall (fun r => (enorm r < 1)%R) a ->
  Forall (fun r => (enorm r < 1)%R) b ->
  node_node_loss (of_reals d a) (of_reals d b)
  = Ok (Num (rmean (zip_with poincare_distance a b))).
Proof.
  intros Hne Hlen Ha Hb Na Nb. rewrite node_node_loss_reals by done.
  rewrite tdiv_Num by (apply not_0_INR; by destruct a).
  unfold rmean. by rewrite length_zip_with, <- Hlen, Nat.min_id.
Qed.

(** Two pairs of points of the unit disc. *)
Lemma node_node_loss_is_mean_distance_example :
  node_node_loss (of_reals 2 [[0; 0]; [1 / 2; 0]]%R)
    (of_reals 2 [[1 / 2; 0]; [0; 1 / 4]]%R)
  = Ok (Num (rmean (zip_with poincare_distance
                      [[0; 0]; [1 / 2; 0]]%R [[1 / 2; 0]; [0; 1 / 4]]%R))).
Proof.
  apply node_node_loss_is_mean_distance.
  - discriminate.
  - reflexivity.
  - repeat constructor.
  - repeat constructor.
  - repeat constructor; apply enorm_lt_1; cbn; lra.
  - repeat constructor; apply enorm_lt_1; cbn; lra.
Defined.

Section MoreLossValues.
Local Open Scope R_scope.
Variable samples_loss : list (list R) -> list (list R) -> R.

(** The masked average of a scalar against any mask of non-zero sum. *)
Lemma masked_average_cancel_sum x m S :
  (exists c, x = Num c) \/ x = NaN ->
  msum m = Num S -> S <> 0 ->
  tdiv (msum (smap (tmul x) m)) (msum m) = x.
Proof.
  intros Hx Hm HS. rewrite msum_smap, Hm. unfold msum in Hm.
  apply tsum_Num_inv in Hm as (rl & -> & Hs).
  destruct Hx as [[c ->] | ->].
  - rewrite tsum_scaled, Hs, tdiv_Num by done. f_equal. by field.
  - rewrite tsum_NaN_cons; [done|]. destruct rl; [|done]. cbn in Hs. lra.
Qed.

End MoreLossValues.

(** [seq_seq_loss] of a batch with at least one row is the transport cost
    between the two batches and nothing else: the identity mask multiplies
    a scalar and cancels against its own sum. *)
Theorem seq_seq_loss_is_transport_cost
    (samples_loss : list (list R) -> list (list R) -> R)
    (seq_rep1 seq_rep2 : matrix) :
  nrows seq_rep1 <> 0 ->
  seq_seq_loss samples_loss seq_rep1 seq_rep2
  = Ok (sliced_wasserstein_distance samples_loss seq_rep1 seq_rep2).
Proof.
  intros Hn. unfold seq_seq_loss.
  rewrite (masked_average_cancel_sum _ _ (INR (nrows seq_rep1))).
  - done.
  - apply swd_cases.
  - apply msum_eye.
  - by apply not_0_INR.
Qed.

(** A batch of two sequences against itself. *)
Lemma seq_seq_loss_is_transport_cost_example :
  seq_seq_loss (fun _ _ => 3%R) (of_reals 1 [[0]; [1]]%R)
    (of_reals 1 [[0]; [1]]%R)
  = Ok (sliced_wasserstein_distance (fun _ _ => 3%R)
          (of_reals 1 [[0]; [1]]%R) (of_reals 1 [[0]; [1]]%R)).
Proof.
  apply seq_seq_loss_is_transport_cost. cbn. lia.
Defined.

Section Shapes.

Lemma bdim_cases n m r :
  bdim n m = Some r -> (n = r \/ n = 1) /\ (m = r \/ m = 1).
Proof.
  unfold bdim. repeat case_decide; intros [= <-]; lia.
Qed.

Lemma length_expand {A} r (l : list A) :
  length l = r \/ length l = 1 -> length (expand r l) = r.
Proof.
  intros [H|H].
  - by rewrite expand_same.
  - destruct l as [|x [|y l]]; try done. cbn. apply length_replicate.
Qed.

Lemma bdim_absorb r n : n = r \/ n = 1 -> bdim r n = Some r.
Proof.
  intros [->| ->]; [apply bdim_same|]. unfold bdim.
  destruct (decide (r = 1)) as [->|]; [done|]. by rewrite decide_True.
Qed.

Lemma length_bzip f u v w :
  bzip f u v = Ok w -> exists r, bdim (length u) (length v) = Some r
                                 /\ length w = r.
Proof.
  unfold bzip. destruct (bdim (length u) (length v)) as [r|] eqn:E; [|done].
  intros [= <-]. exists r. split; [done|].
  apply bdim_cases in E as [Hu Hv].
  rewrite length_zip_with, !length_expand by done. lia.
Qed.

Lemma bzip_absorb f u v :
  length v = length u \/ length v = 1 ->
  exists w, bzip f u v = Ok w /\ length w = length u.
Proof.
  intros Hv. unfold bzip. rewrite (bdim_absorb _ _ Hv). eexists. split; [done|].
  rewrite length_zip_with, expand_same, length_expand by done. lia.
Qed.

End Shapes.

Lemma hyperbolic_distance_outcome (z1 z2 : matrix) :
  match bdim (nrows z1) (nrows z2), bdim (ncols z1) (ncols z2) with
  | Some r, Some _ =>
      exists v, hyperbolic_distance z1 z2 = Ok v /\ length v = r
  | _, _ => hyperbolic_distance z1 z2 = Err RuntimeError
  end.
Proof.
  unfold hyperbolic_distance, bcast2.
  destruct (bdim (nrows z1) (nrows z2)) as [r|] eqn:Er; [|done].
  destruct (bdim (ncols z1) (ncols z2)) as [c|] eqn:Ec; [|done].
  cbn [mbind result_bind mrows]. apply bdim_cases in Er as [H1 H2].
  set (num := map (tmul (Num 2)) _).
  assert (Hnum : length num = r).
  { unfold num, vsquare, norm_dim1. cbn [mrows].
    rewrite !length_map, length_zip_with.
    unfold nrows in *. rewrite !length_expand by done. lia. }
  destruct (bzip_absorb tdiv num
              (map (tsub (Num 1)) (vsquare (norm_dim1 z1))))
    as (q1 & -> & Hq1).
  { unfold vsquare, norm_dim1. rewrite !length_map, Hnum. exact H1. }
  cbn [mbind result_bind].
  destruct (bzip_absorb tdiv q1
              (map (tsub (Num 1)) (vsquare (norm_dim1 z2))))
    as (q2 & -> & Hq2).
  { unfold vsquare, norm_dim1. rewrite !length_map, Hq1, Hnum. exact H2. }
  cbn [mbind result_bind]. eexists. split; [done|].
  rewrite !length_map. lia.
Qed.

(** [hyperbolic_distance] raises exactly when the two batches cannot be
    broadcast against each other (row counts, or widths, that differ with
    neither being one); otherwise it returns one entry per broadcast row,
    whatever the values are. *)
Theorem hyperbolic_distance_shape_error (z1 z2 : matrix) :
  match bdim (nrows z1) (nrows z2), bdim (ncols z1) (ncols z2) with
  | Some r, Some _ =>
      exists v, hyperbolic_distance z1 z2 = Ok v /\ length v = r
  | _, _ => hyperbolic_distance z1 z2 = Err RuntimeError
  end.
Proof. apply hyperbolic_distance_outcome. Qed.

Section MaskBounds.

Lemma norm_index_ok size t :
  index_ok size t -> exists k, norm_index size t = Some k /\ k < size.
Proof.
  unfold index_ok, norm_index. intros H.
  destruct (decide (0 <= t < Z.of_nat size)%Z).
  - eexists. split; [done|]. lia.
  - rewrite decide_True by lia. eexists. split; [done|]. lia.
Qed.

Lemma norm_index_bad size t : ~ index_ok size t -> norm_index size t = None.
Proof.
  unfold index_ok, norm_index. intros H.
  rewrite decide_False by lia. by rewrite decide_False by lia.
Qed.

Lemma index_put_outcome idx : forall row v,
  (Forall (index_ok (length row)) idx
   /\ exists row', index_put row idx v = Ok row' /\ length row' = length row)
  \/ (~ Forall (index_ok (length row)) idx
      /\ index_put row idx v = Err IndexError).
Proof.
  induction idx as [|t idx IH]; intros row v.
  - left. split; [constructor|]. by exists row.
  - cbn [index_put]. destruct (decide (index_ok (length row) t)) as [Ht|Ht].
    + destruct (norm_index_ok _ _ Ht) as (k & -> & Hk).
      destruct (IH (<[k := v]> row) v) as [(Hall & row' & Hput & Hlen)|(Hall & Hput)];
        rewrite length_insert in *.
      * left. split; [by constructor|]. by exists row'.
      * right. split; [|done]. intros Hc. apply Hall.
        by apply Forall_cons in Hc as [_ ?].
    + right. rewrite norm_index_bad by done. split; [|done].
      intros Hc. by apply Forall_cons in Hc as [? _].
Qed.

Lemma mark_rows_outcome c sequences : forall mask k,
  k <= length mask ->
  Forall (fun r => length r = c) mask ->
  (k + length sequences <= length mask
   /\ Forall (Forall (index_ok c)) sequences
   /\ exists mask', mark_rows mask k sequences = Ok mask')
  \/ (~ (k + length sequences <= length mask
         /\ Forall (Forall (index_ok c)) sequences)
      /\ mark_rows mask k sequences = Err IndexError).
Proof.
  induction sequences as [|row rest IH]; intros mask k Hk Hmask.
  - left. cbn. split; [lia|]. split; [constructor|]. by exists mask.
  - cbn [mark_rows length]. destruct (mask !! k) as [r|] eqn:Hr.
    2:{ right. apply lookup_ge_None in Hr. split; [lia|done]. }
    assert (Hlr : length r = c).
    { eapply Forall_lookup_1 in Hmask; [exact Hmask|exact Hr]. }
    apply lookup_lt_Some in Hr.
    destruct (index_put_outcome row r (Num 1))
      as [(Hall & r' & -> & Hlen)|(Hall & ->)]; rewrite Hlr in *.
    2:{ right. split; [|done]. intros [_ Hc]. apply Hall.
        by apply Forall_cons in Hc as [? _]. }
    cbn [mbind result_bind].
    destruct (IH (<[k := r']> mask) (S k))
      as [(Hle & Hrest & mask' & ->)|(Hbad & ->)];
      rewrite ?length_insert in *; try lia.
    { apply Forall_insert; [done|congruence]. }
    + left. split; [lia|]. split; [by constructor|]. by exists mask'.
    + right. split; [|done]. intros [Hle Hc]. apply Hbad.
      apply Forall_cons in Hc as [_ ?]. split; [lia|done].
Qed.

End MaskBounds.

(** The positive mask of [node_seq_loss] is built exactly when the batch
    has at most [batch_size] sequences and every token is a valid index
    of a row of [num_nodes + 1] columns (negative tokens counting from the
    end); otherwise [IndexError] is raised, by the mask and by the loss. *)
Theorem node_seq_mask_bounds
    (samples_loss : list (list R) -> list (list R) -> R)
    (node_rep seq_rep : matrix) (sequences : list (list Z)) :
  let batch_size := nrows seq_rep in
  let num_nodes := nrows node_rep in
  let in_bounds :=
    length sequences <= batch_size
    /\ Forall (Forall (index_ok (num_nodes + 1))) sequences in
  (in_bounds ->
     exists full, pos_mask_full batch_size num_nodes sequences = Ok full)
  /\ (~ in_bounds ->
        exists e,
          pos_mask_full batch_size num_nodes sequences = Err e
          /\ node_seq_loss samples_loss node_rep seq_rep sequences = Err e).
Proof.
  intros B V in_bounds. unfold in_bounds, node_seq_loss, pos_mask_full.
  destruct (mark_rows_outcome (V + 1) sequences (mrows (zeros B (V + 1))) 0)
    as [(Hle & Hall & rows & Hm)|(Hbad & Hm)].
  - lia.
  - unfold zeros. cbn [mrows]. apply Forall_replicate, length_replicate.
  - split.
    + intros _. fold B V. rewrite Hm. by eexists.
    + intros Hc. exfalso. apply Hc. split; [|done].
      unfold zeros in Hle. cbn [mrows] in Hle.
      rewrite length_replicate in Hle. lia.
  - split.
    + intros [Hle Hall]. exfalso. apply Hbad. split; [|done].
      unfold zeros. cbn [mrows]. rewrite length_replicate. lia.
    + intros _. exists IndexError. fold B V. by rewrite Hm.
Qed.

(** A token one past the padding sentinel. *)
Lemma node_seq_mask_bounds_example :
  exists e,
    pos_mask_full 1 3 [[0; 4]%Z] = Err e
    /\ node_seq_loss (fun _ _ => 3%R) (of_reals 1 [[0]; [0]; [0]]%R)
         (of_reals 1 [[0%R]]) [[0; 4]%Z]
       = Err e.
Proof.
  apply (proj2 (node_seq_mask_bounds (fun _ _ => 3%R)
                  (of_reals 1 [[0]; [0]; [0]]%R) (of_reals 1 [[0%R]])
                  [[0; 4]%Z])).
  intros [_ H]. apply Forall_cons in H as [H _].
  apply Forall_cons in H as [_ H]. apply Forall_cons in H as [H _].
  unfold index_ok in H. cbn in H. lia.
Defined.

(** [node_seq_loss] pairs sequence [i] with node [i]: when the batch size
    and the node count differ and neither is one, the hyperbolic term
    cannot be formed and the loss raises (the error of the mask if there
    is one, a [RuntimeError] otherwise). *)
Theorem node_seq_loss_needs_matching_counts
    (samples_loss : list (list R) -> list (list R) -> R)
    (node_rep seq_rep : matrix) (sequences : list (list Z)) :
  nrows seq_rep <> nrows node_rep ->
  nrows seq_rep <> 1 -> nrows node_rep <> 1 ->
  node_seq_loss samples_loss node_rep seq_rep sequences
  = (pos_mask_full (nrows seq_rep) (nrows node_rep) sequences
     ≫= fun _ => Err RuntimeError).
Proof.
  intros Hne H1 H2. unfold node_seq_loss.
  destruct (pos_mask_full _ _ _) as [full|]; [|done].
  cbn [mbind result_bind].
  pose proof (hyperbolic_distance_outcome seq_rep node_rep) as H.
  assert (Hb : bdim (nrows seq_rep) (nrows node_rep) = None).
  { unfold bdim. by rewrite !decide_False. }
  rewrite Hb in H. by rewrite H.
Qed.

(** Two sequences against three nodes. *)
Lemma node_seq_loss_needs_matching_counts_example :
  node_seq_loss (fun _ _ => 3%R) (of_reals 1 [[0]; [0]; [0]]%R)
    (of_reals 1 [[0]; [0]]%R) [[0; 1]; [1; 2]]%Z
  = Err RuntimeError.
Proof.
  rewrite node_seq_loss_needs_matching_counts; [reflexivity|cbn; lia..].
Defined.

Section Geometry.
Local Open Scope R_scope.

Lemma squares_sub_sym a b :
  map (fun x => x * x) (zip_with Rminus a b)
  = map (fun x => x * x) (zip_with Rminus b a).
Proof.
  revert b. induction a as [|x a IH]; intros [|y b]; try done.
  cbn. rewrite IH. f_equal. lra.
Qed.

Lemma enorm_sub_sym a b :
  enorm (zip_with Rminus a b) = enorm (zip_with Rminus b a).
Proof. unfold enorm. by rewrite squares_sub_sym. Qed.

Lemma poincare_distance_sym a b :
  poincare_distance a b = poincare_distance b a.
Proof.
  unfold poincare_distance. rewrite enorm_sub_sym.
  by rewrite (Rmult_comm (1 - enorm a ^ 2)).
Qed.

Lemma zip_with_poincare_sym a b :
  zip_with poincare_distance a b = zip_with poincare_distance b a.
Proof.
  revert b. induction a as [|x a IH]; intros [|y b]; try done.
  cbn. by rewrite IH, poincare_distance_sym.
Qed.

Lemma Racosh_nonneg x : 1 <= x -> 0 <= Racosh x.
Proof.
  intros Hx. unfold Racosh.
  pose proof (sqrt_pos (x * x - 1)) as Hs.
  destruct (Req_dec (x + sqrt (x * x - 1)) 1) as [->|Hne].
  - rewrite ln_1. lra.
  - rewrite <- ln_1. apply Rlt_le, ln_increasing; lra.
Qed.

Lemma poincare_distance_nonneg a b :
  enorm a < 1 -> enorm b < 1 -> 0 <= poincare_distance a b.
Proof.
  intros Ha Hb. unfold poincare_distance. apply Racosh_nonneg.
  pose proof (enorm_nonneg a) as Ha0. pose proof (enorm_nonneg b) as Hb0.
  pose proof (ball_denominator _ Ha0 Ha) as Da.
  pose proof (ball_denominator _ Hb0 Hb) as Db.
  pose proof (enorm_nonneg (zip_with Rminus a b)) as Hd0.
  assert (0 <= 2 * enorm (zip_with Rminus a b) ^ 2
               / ((1 - enorm a ^ 2) * (1 - enorm b ^ 2))); [|lra].
  apply Rmult_le_pos; [nra|]. apply Rlt_le, Rinv_0_lt_compat. nra.
Qed.

Lemma squares_zero l : rsum (map (fun x => x * x) l) = 0 -> Forall (eq 0) l.
Proof.
  induction l as [|x l IH]; [constructor|].
  change (x * x + rsum (map (fun x => x * x) l) = 0
          -> Forall (eq 0) (x :: l)).
  pose proof (rsum_squares_nonneg l) as Hl. intros H.
  constructor; [nra|apply IH; nra].
Qed.

Lemma sub_zero_eq a b :
  length a = length b -> Forall (eq 0) (zip_with Rminus a b) -> a = b.
Proof.
  revert b. induction a as [|x a IH]; intros [|y b] Hlen H; try done.
  cbn in H. apply Forall_cons in H as [Hxy H].
  f_equal; [lra|]. apply IH; [|done]. by injection Hlen.
Qed.

Lemma enorm_sub_pos a b :
  length a = length b -> enorm a <> enorm b ->
  0 < enorm (zip_with Rminus a b).
Proof.
  intros Hlen Hne. pose proof (enorm_nonneg (zip_with Rminus a b)) as H0.
  destruct (Req_dec (enorm (zip_with Rminus a b)) 0) as [Hz|]; [|lra].
  exfalso. apply Hne. f_equal. apply sub_zero_eq; [done|].
  apply squares_zero. unfold enorm in Hz.
  apply sqrt_eq_0 in Hz; [done|apply rsum_squares_nonneg].
Qed.

(** A row outside the closed unit ball against a row inside it. *)
Lemma pair_distance_outside a b :
  length a = length b -> 1 < enorm a -> enorm b < 1 ->
  pair_distance (map Num a) (map Num b) = NaN.
Proof.
  intros Hlen Ha Hb. unfold pair_distance.
  rewrite zip_with_tsub_reals, !row_norm_reals. cbn [tmul tsub tneg tadd].
  pose proof (enorm_nonneg b) as Hb0.
  pose proof (enorm_sub_pos a b Hlen ltac:(lra)) as Hd.
  set (na := enorm a) in *. set (nb := enorm b) in *.
  set (d := enorm (zip_with Rminus a b)) in *.
  assert (Da : 1 + - (na * na) < 0) by nra.
  assert (Db : 0 < 1 + - (nb * nb)) by nra.
  rewrite tdiv_Num by lra. rewrite tdiv_Num by lra. cbn [tadd].
  unfold tacosh.
  assert (Hneg : 2 * (d * d) / (1 + - (na * na)) / (1 + - (nb * nb)) < 0).
  { unfold Rdiv. apply Rinv_lt_0_compat in Da. apply Rinv_0_lt_compat in Db.
    assert (Hp : 0 < 2 * (d * d)) by nra.
    set (p := 2 * (d * d)) in *. set (x := / (1 + - (na * na))) in *.
    set (y := / (1 + - (nb * nb))) in *.
    assert (H1 : 0 < p * - x) by (apply Rmult_lt_0_compat; lra).
    assert (H2 : 0 < p * - x * y) by (apply Rmult_lt_0_compat; lra).
    lra. }
  assert (Hs : Rsign (1 + 2 * (d * d) / (1 + - (na * na)) / (1 + - (nb * nb)) - 1)
               = Lt) by (apply Rsign_Lt; lra).
  by rewrite Hs.
Qed.

(** A row on the unit sphere against a row inside the ball. *)
Lemma pair_distance_sphere a b :
  length a = length b -> enorm a = 1 -> enorm b < 1 ->
  pair_distance (map Num a) (map Num b) = PInf.
Proof.
  intros Hlen Ha Hb. unfold pair_distance.
  rewrite zip_with_tsub_reals, !row_norm_reals. cbn [tmul tsub tneg tadd].
  pose proof (enorm_nonneg b) as Hb0.
  pose proof (enorm_sub_pos a b Hlen ltac:(lra)) as Hd.
  rewrite Ha. set (nb := enorm b) in *.
  set (d := enorm (zip_with Rminus a b)) in *.
  assert (Db : 0 < 1 + - (nb * nb)) by nra.
  unfold tdiv at 2.
  replace (1 + - (1 * 1)) with 0 by lra. rewrite Rsign_0.
  assert (Hp : Rsign (2 * (d * d)) = Gt).
  { unfold Rsign. destruct (total_order_T (2 * (d * d)) 0) as [[H|H]|H];
      try done; nra. }
  rewrite Hp. cbn [signed_inf tdiv].
  assert (Hq : Rsign (1 + - (nb * nb)) = Gt).
  { unfold Rsign. destruct (total_order_T (1 + - (nb * nb)) 0) as [[H|H]|H];
      try done; lra. }
  by rewrite Hq.
Qed.

End Geometry.

(** Over real arithmetic, [hyperbolic_distance] of two batches inside the
    unit ball is symmetric in its arguments, non-negative in every entry,
    and zero in every entry when the two batches are the same. *)
Theorem hyperbolic_distance_metric_laws (d : nat) (a b : list (list R)) :
  length a = length b ->
  Forall (fun r => length r = d) a ->
  Forall (fun r => length r = d) b ->
  Forall (fun r => (enorm r < 1)%R) a ->
  Forall (fun r => (enorm r < 1)%R) b ->
  hyperbolic_distance (of_reals d a) (of_reals d b)
  = hyperbolic_distance (of_reals d b) (of_reals d a)
  /\ (exists dists,
        hyperbolic_distance (of_reals d a) (of_reals d b) = Ok (map Num dists)
        /\ length dists = length a
        /\ Forall (Rle 0) dists)
  /\ hyperbolic_distance (of_reals d a) (of_reals d a)
     = Ok (replicate (length a) (Num 0)).
Proof.
  intros Hlen Ha Hb Na Nb. rewrite !hyperbolic_distance_reals by done.
  split; [|split].
  - by rewrite zip_with_poincare_sym.
  - eexists. split; [done|]. split.
    + rewrite length_zip_with. lia.
    + clear Hlen Ha Hb. revert b Nb.
      induction Na as [|ra a Hra Na IH]; intros b Nb; [constructor|].
      destruct Nb as [|rb b Hrb Nb]; [constructor|]. cbn.
      constructor; [by apply poincare_distance_nonneg|by apply IH].
  - by rewrite poincare_distance_diag, map_Num_replicate.
Qed.

(** Two pairs of points of the unit disc. *)
Lemma hyperbolic_distance_metric_laws_example :
  hyperbolic_distance (of_reals 2 [[0; 0]; [1 / 2; 0]]%R)
    (of_reals 2 [[1 / 2; 0]; [0; 1 / 4]]%R)
  = hyperbolic_distance (of_reals 2 [[1 / 2; 0]; [0; 1 / 4]]%R)
      (of_reals 2 [[0; 0]; [1 / 2; 0]]%R).
Proof.
  apply (hyperbolic_distance_metric_laws 2).
  - reflexivity.
  - repeat constructor.
  - repeat constructor.
  - repeat constructor; apply enorm_lt_1; cbn; lra.
  - repeat constructor; apply enorm_lt_1; cbn; lra.
Defined.

(** [hyperbolic_distance] never signals a point that left the unit ball:
    paired with a row inside the ball, a row of norm above one yields
    [NaN] and a row of norm exactly one yields [+inf], in a result that is
    returned normally. *)
Theorem hyperbolic_distance_outside_ball
    (d : nat) (a b : list (list R)) (i : nat) (ra rb : list R) :
  length a = length b ->
  Forall (fun r => length r = d) a ->
  Forall (fun r => length r = d) b ->
  a !! i = Some ra -> b !! i = Some rb ->
  (enorm rb < 1)%R ->
  exists v,
    hyperbolic_distance (of_reals d a) (of_reals d b) = Ok v
    /\ ((1 < enorm ra)%R -> v !! i = Some NaN)
    /\ (enorm ra = 1%R -> v !! i = Some PInf).
Proof.
  intros Hlen Ha Hb Hra Hrb Nb.
  rewrite hyperbolic_distance_rows.
  - eexists. split; [done|]. cbn [of_reals mrows].
    rewrite lookup_zip_with, !map_is_fmap, !list_lookup_fmap, Hra, Hrb. cbn.
    assert (Hl : length ra = length rb).
    { eapply Forall_lookup_1 in Ha; [|exact Hra].
      eapply Forall_lookup_1 in Hb; [|exact Hrb]. cbn in *. lia. }
    split; intros Hn.
    + f_equal. by apply pair_distance_outside.
    + f_equal. by apply pair_distance_sphere.
  - unfold nrows, of_reals. cbn. by rewrite !length_map.
  - done.
  - by apply rect_of_reals.
  - by apply rect_of_reals.
Qed.

(** The point [(2, 0)] against the origin. *)
Lemma hyperbolic_distance_outside_ball_example :
  exists v,
    hyperbolic_distance (of_reals 2 [[2; 0]]%R) (of_reals 2 [[0; 0]]%R) = Ok v
    /\ v !! 0 = Some NaN.
Proof.
  destruct (hyperbolic_distance_outside_ball 2 [[2; 0]]%R [[0; 0]]%R 0
              [2; 0]%R [0; 0]%R) as (v & Hv & Hnan & _).
  - reflexivity.
  - repeat constructor.
  - repeat constructor.
  - reflexivity.
  - reflexivity.
  - apply enorm_lt_1. cbn. lra.
  - exists v. split; [exact Hv|]. apply Hnan.
    unfold enorm. rewrite <- sqrt_1. apply sqrt_lt_1_alt. cbn. lra.
Defined.

Section NodeSeqValue.
Local Open Scope R_scope.
Variable samples_loss : list (list R) -> list (list R) -> R.

Lemma pos_mask_entries (B V : nat) (sequences : list (list Z)) :
  (length sequences <= B)%nat ->
  Forall (Forall (fun t => 0 <= t <= Z.of_nat V)%Z) sequences ->
  exists full,
    pos_mask_full B V sequences = Ok full
    /\ rect full /\ ncols full = (V + 1)%nat /\ nrows full = B
    /\ forall i t, (i < B)%nat -> (t <= V)%nat ->
         entry full i t = Some (if marked sequences i t then Num 1 else Num 0).
Proof.
  intros Hlen Htok. unfold pos_mask_full.
  destruct (mark_rows_spec (V + 1) sequences (mrows (zeros B (V + 1))) 0)
    as (rows & Hmark & Hrows & Hrect & Hent).
  - unfold zeros. cbn [mrows]. rewrite length_replicate. lia.
  - unfold zeros. cbn [mrows]. apply Forall_replicate, length_replicate.
  - eapply Forall_impl; [exact Htok|]. intros row Hrow.
    eapply Forall_impl; [exact Hrow|]. intros t Ht. cbn beta in *. lia.
  - rewrite Hmark. cbn [mbind result_bind]. eexists. split; [done|].
    split; [exact Hrect|]. split; [done|]. split.
    + unfold nrows. cbn [mrows]. rewrite Hrows. unfold zeros. cbn [mrows].
      apply length_replicate.
    + intros i t Hi Ht. unfold entry. cbn [mrows]. rewrite Hent.
      rewrite zeros_entry by lia. cbn. f_equal. unfold marked.
      replace (i - 0)%nat with i by lia.
      apply if_bool_decide_ext. intuition lia.
Qed.

Lemma tsum_bits l :
  Forall (fun t => t = Num 0 \/ t = Num 1) l ->
  exists S, tsum l = Num S /\ 0 <= S /\ (Num 1 ∈ l -> 1 <= S).
Proof.
  induction 1 as [|t l Ht Hl (S & HS & H0 & H1)].
  - exists 0. split; [done|]. split; [lra|]. intros H.
    by apply not_elem_of_nil in H.
  - change (tsum (t :: l)) with (tadd t (tsum l)). rewrite HS.
    destruct Ht as [-> | ->]; cbn [tadd]; eexists; (split; [done|]).
    + split; [lra|]. intros [[=]|Hin]%elem_of_cons; [lra|].
      specialize (H1 Hin). lra.
    + split; [lra|]. intros _. lra.
Qed.

Lemma elem_of_concat_entry (m : matrix) x :
  x ∈ concat (mrows m) -> exists i t, entry m i t = Some x.
Proof.
  intros (row & Hrow & Hx)%list_elem_of_In%in_concat.
  apply list_elem_of_In in Hrow, Hx.
  apply list_elem_of_lookup in Hrow as [i Hi].
  apply list_elem_of_lookup in Hx as [t Ht].
  exists i, t. unfold entry. by rewrite Hi.
Qed.

Lemma entry_elem_of_concat (m : matrix) i t x :
  entry m i t = Some x -> x ∈ concat (mrows m).
Proof.
  unfold entry. intros H. destruct (mrows m !! i) as [row|] eqn:Hi; [|done].
  cbn in H. apply list_elem_of_In, in_concat. exists row.
  split; apply list_elem_of_In; by eapply list_elem_of_lookup_2.
Qed.

Lemma entry_bounds (m : matrix) i t x :
  rect m -> entry m i t = Some x -> (i < nrows m)%nat /\ (t < ncols m)%nat.
Proof.
  unfold entry, rect, nrows. intros Hm H.
  destruct (mrows m !! i) as [row|] eqn:Hi; [|done]. cbn in H.
  eapply Forall_lookup_1 in Hm; [|exact Hi]. cbn in Hm.
  apply lookup_lt_Some in Hi, H. lia.
Qed.

Lemma rect_drop_last_col m : rect m -> rect (drop_last_col m).
Proof.
  unfold rect, drop_last_col. cbn. intros H.
  apply Forall_forall. intros r (r0 & -> & Hr0)%list_elem_of_fmap.
  rewrite Forall_forall in H. specialize (H _ Hr0). cbn in H.
  rewrite length_take. lia.
Qed.

Lemma nrows_drop_last_col m : nrows (drop_last_col m) = nrows m.
Proof. unfold nrows, drop_last_col. cbn. by rewrite length_map. Qed.

(** The sliced mask of an in-range batch with at least one real token
    sums to a non-zero number. *)
Lemma pos_mask_sum (B V : nat) (sequences : list (list Z)) (i t : nat) :
  (length sequences <= B)%nat ->
  Forall (Forall (fun t => 0 <= t <= Z.of_nat V)%Z) sequences ->
  (t < V)%nat -> marked sequences i t = true ->
  exists full S,
    pos_mask_full B V sequences = Ok full
    /\ msum (drop_last_col full) = Num S /\ S <> 0.
Proof.
  intros Hlen Htok Ht Hm.
  destruct (pos_mask_entries B V sequences Hlen Htok)
    as (full & Hfull & Hrect & Hc & Hr & Hent).
  assert (Hi : (i < B)%nat).
  { unfold marked in Hm. apply bool_decide_eq_true in Hm.
    destruct (sequences !! i) eqn:E.
    - apply lookup_lt_Some in E. lia.
    - by apply not_elem_of_nil in Hm. }
  destruct (tsum_bits (concat (mrows (drop_last_col full))))
    as (S & HS & _ & H1).
  - apply Forall_forall. intros x Hx.
    apply elem_of_concat_entry in Hx as (i' & t' & Hx).
    pose proof (entry_bounds _ _ _ _ (rect_drop_last_col _ Hrect) Hx) as [Hi' Ht'].
    rewrite nrows_drop_last_col in Hi'. cbn [drop_last_col ncols] in Ht'.
    rewrite drop_last_col_entry in Hx by (done || lia).
    rewrite Hent in Hx by lia. injection Hx as <-. destruct (marked sequences i' t'); auto.
  - exists full, S. split; [done|]. split; [exact HS|].
    assert (1 <= S); [|lra]. apply H1.
    apply (entry_elem_of_concat _ i t).
    rewrite drop_last_col_entry by (done || lia).
    rewrite Hent by lia. by rewrite Hm.
Qed.

Lemma swd_of_reals d1 d2 a b :
  sliced_wasserstein_distance samples_loss (of_reals d1 a) (of_reals d2 b)
  = Num (samples_loss a b).
Proof.
  unfold sliced_wasserstein_distance. by rewrite !reals_of_of_reals.
Qed.

End NodeSeqValue.

(** When there are as many sequences as nodes, all rows lie inside the
    unit ball and the batch holds at least one real token,
    [node_seq_loss] is the transport cost plus the mean hyperbolic distance
    between sequence [i] and node [i]: which nodes a sequence visits does
    not enter the value. *)
Theorem node_seq_loss_value
    (samples_loss : list (list R) -> list (list R) -> R)
    (d : nat) (node_rep seq_rep : list (list R))
    (sequences : list (list Z)) (i t : nat) :
  node_rep <> [] ->
  length seq_rep = length node_rep ->
  Forall (fun r => length r = d) node_rep ->
  Forall (fun r => length r = d) seq_rep ->
  Forall (fun r => (enorm r < 1)%R) node_rep ->
  Forall (fun r => (enorm r < 1)%R) seq_rep ->
  length sequences <= length seq_rep ->
  Forall (Forall (fun t => 0 <= t <= Z.of_nat (length node_rep))%Z) sequences ->
  t < length node_rep -> marked sequences i t = true ->
  node_seq_loss samples_loss (of_reals d node_rep) (of_reals d seq_rep)
    sequences
  = Ok (Num (samples_loss seq_rep node_rep
             + rmean (zip_with poincare_distance seq_rep node_rep))%R).
Proof.
  intros Hne Hlen Hdn Hds Nn Ns Hseq Htok Ht Hm. unfold node_seq_loss.
  assert (Hrn : nrows (of_reals d node_rep) = length node_rep).
  { unfold nrows, of_reals. cbn. by rewrite length_map. }
  assert (Hrs : nrows (of_reals d seq_rep) = length seq_rep).
  { unfold nrows, of_reals. cbn. by rewrite length_map. }
  rewrite Hrn, Hrs.
  destruct (pos_mask_sum (length seq_rep) (length node_rep) sequences i t)
    as (full & S & -> & HS & HS0); try done.
  cbn [mbind result_bind].
  rewrite (masked_average_cancel_sum _ _ S) by (done || apply swd_cases).
  rewrite hyperbolic_distance_reals by done. cbn [mbind result_bind].
  rewrite swd_of_reals. unfold vmean. rewrite tsum_Num, length_map.
  rewrite tdiv_Num.
  - done.
  - apply not_0_INR. rewrite length_zip_with, Hlen, Nat.min_id.
    by destruct node_rep.
Qed.

(** Two sequences, two nodes. *)
Lemma node_seq_loss_value_example :
  node_seq_loss (fun _ _ => 3%R) (of_reals 1 [[0]; [1 / 2]]%R)
    (of_reals 1 [[1 / 2]; [0]]%R) [[0; 2]; [1; 2]]%Z
  = Ok (Num (3 + rmean (zip_with poincare_distance
                          [[1 / 2]; [0]]%R [[0]; [1 / 2]]%R))%R).
Proof.
  apply (node_seq_loss_value (fun _ _ => 3%R) 1 [[0]; [1 / 2]]%R
           [[1 / 2]; [0]]%R [[0; 2]; [1; 2]]%Z 0 0).
  - discriminate.
  - reflexivity.
  - repeat constructor.
  - repeat constructor.
  - repeat constructor; apply enorm_lt_1; cbn; lra.
  - repeat constructor; apply enorm_lt_1; cbn; lra.
  - cbn. lia.
  - repeat constructor; cbn; lia.
  - cbn. lia.
  - reflexivity.
Defined.

Section TrainFacts.
Context {Params OptState Rng : Type}.
Variable samples_loss : list (list R) -> list (list R) -> R.
Variable str_float : R -> string.
Variable weight_init : Params -> Params.
Variable next_batch_index : nat -> nat -> list (list nat).
Variable model_forward :
  Params -> Rng -> list (list Z) -> R -> R -> result (matrix * matrix) * Rng.
Variable optimizer_step :
  Params -> OptState -> list (list Z) -> tval -> Params * OptState.

Lemma train_batch_raises cfg data w_rt
    (st : train_state Params OptState Rng) batch_index :
  is_ok (train_batch samples_loss model_forward optimizer_step
           cfg data w_rt st batch_index) = false.
Proof.
  unfold train_batch.
  destruct (select_rows data batch_index) as [data_batch|]; [|done].
  cbn [mbind result_bind].
  destruct (match w_rt with Some w => _ | None => _ end) as [w_batch|]; [|done].
  cbn [mbind result_bind].
  destruct (model_forward _ _ _ _ _) as [[[n1 s1]|] rng1]; [|done].
  cbn [mbind result_bind].
  destruct (model_forward _ _ _ _ _) as [[[n2 s2]|] rng2]; [|done].
  done.
Qed.

Lemma run_epochs_failing_step
    (step : train_state Params OptState Rng -> list nat
            -> result (train_state Params OptState Rng))
    cfg b batches epochs st (fs : gmap string (file Params OptState)) :
  (forall st b, is_ok (step st b) = false) ->
  (run_epochs str_float step cfg (b :: batches) epochs st fs).1 = fs
  /\ (epochs <> [] ->
      is_ok (run_epochs str_float step cfg (b :: batches) epochs st fs).2
      = false).
Proof.
  intros Hstep. destruct epochs as [|e rest]; [done|].
  cbn [run_epochs run_batches]. specialize (Hstep st b).
  destruct (step st b); [done|]. done.
Qed.

End TrainFacts.

(** A run that has at least one batch never writes a checkpoint: the
    save directory after [train] is the directory before it, and [train]
    returns normally only when the resumed epoch is not below
    [num_epochs], with the resumed state untouched. *)
Theorem train_writes_no_checkpoint {Params OptState Rng : Type}
    (samples_loss : list (list R) -> list (list R) -> R)
    (str_float : R -> string) (weight_init : Params -> Params)
    (next_batch_index : nat -> nat -> list (list nat))
    (model_forward :
       Params -> Rng -> list (list Z) -> R -> R
       -> result (matrix * matrix) * Rng)
    (optimizer_step :
       Params -> OptState -> list (list Z) -> tval -> Params * OptState)
    (cfg : config) (fs : gmap string (file Params OptState))
    (model : Params) (optimizer : OptState) (rng : Rng)
    (data : list (list Z)) (w_rt : option (list (list tval))) :
  next_batch_index (length data) (batch_size cfg) <> [] ->
  (train samples_loss str_float weight_init next_batch_index model_forward
     optimizer_step cfg fs model optimizer rng data w_rt).1 = fs
  /\ forall st,
       (train samples_loss str_float weight_init next_batch_index
          model_forward optimizer_step cfg fs model optimizer rng data w_rt).2
       = Ok st ->
       exists m o e,
         resume str_float weight_init cfg fs model optimizer = Ok (m, o, e)
         /\ (num_epochs cfg <= e)%Z /\ st = TrainState m o rng.
Proof.
  intros Hb. unfold train.
  destruct (resume str_float weight_init cfg fs model optimizer)
    as [[[m o] e]|err]; [|done].
  unfold train_from. case_decide as Hlt.
  - destruct (next_batch_index (length data) (batch_size cfg))
      as [|b batches]; [done|].
    pose proof (run_epochs_failing_step str_float
                  (train_batch samples_loss model_forward optimizer_step
                     cfg data w_rt)
                  cfg b batches (py_range e (num_epochs cfg + 1))
                  (TrainState m o rng) fs
                  (train_batch_raises samples_loss model_forward
                     optimizer_step cfg data w_rt)) as [Hfs Hfail].
    split; [done|]. intros st Hst. rewrite Hst in Hfail.
    exfalso. assert (py_range e (num_epochs cfg + 1) <> []).
    { unfold py_range. destruct (Z.to_nat (num_epochs cfg + 1 - e)) eqn:E;
        [lia|done]. }
    by specialize (Hfail ltac:(done)).
  - split; [done|]. intros st [= <-]. exists m, o, e. split; [done|].
    split; [lia|done].
Qed.

(** A fresh run of twenty epochs over one sequence. *)
Lemma train_writes_no_checkpoint_example :
  (train (Params := Z) (OptState := Z) (Rng := unit)
     (fun _ _ => 3%R) run_str_float (fun m => m) (fun _ _ => [[0]])
     (fun _ rng _ _ _ => (Err RuntimeError, rng)) (fun m o _ _ => (m, o))
     run_cfg ∅ 0%Z 0%Z tt [[0; 1]%Z] None).1
  = ∅.
Proof.
  apply (train_writes_no_checkpoint (Params := Z) (OptState := Z) (Rng := unit)).
  discriminate.
Defined.

Section CheckpointNames.
Context {Params OptState Rng : Type}.
Variable str_float : R -> string.

Lemma string_length_app (s t : string) :
  String.length (s +:+ t) = String.length s + String.length t.
Proof.
  induction s as [|a s IH]; [done|].
  change (S (String.length (s +:+ t))
          = S (String.length s) + String.length t).
  by rewrite IH.
Qed.

Lemma string_app_inj_r (s1 s2 t : string) : s1 +:+ t = s2 +:+ t -> s1 = s2.
Proof.
  revert s2. induction s1 as [|a s1 IH]; intros [|b s2] H; try done.
  - apply (f_equal String.length) in H.
    rewrite !string_length_app in H. cbn in H. lia.
  - apply (f_equal String.length) in H.
    rewrite !string_length_app in H. cbn in H. lia.
  - change (String a (s1 +:+ t) = String b (s2 +:+ t)) in H.
    injection H as -> H. f_equal. by apply IH.
Qed.

Lemma checkpoint_name_inj cfg (e1 e2 : Z) :
  checkpoint_name str_float cfg e1 = checkpoint_name str_float cfg e2 ->
  e1 = e2.
Proof.
  unfold checkpoint_name. cbn [String.concat]. intros H.
  apply String.app_inj, String.app_inj in H.
  apply string_app_inj_r in H. by apply pretty_Z_inj in H.
Qed.

End CheckpointNames.

(** Checkpoints of different epochs of one run have different file
    names, so a later [torch.save] never overwrites an earlier checkpoint:
    after two saves both files load back exactly as they were written. *)
Theorem checkpoints_do_not_overwrite {Params OptState Rng : Type}
    (str_float : R -> string) (cfg : config) (e1 e2 : Z)
    (st1 st2 : train_state Params OptState Rng)
    (fs : gmap string (file Params OptState)) :
  e1 <> e2 ->
  checkpoint_name str_float cfg e1 <> checkpoint_name str_float cfg e2
  /\ torch_load
       (torch_save str_float cfg e2 st2 (torch_save str_float cfg e1 st1 fs))
       (checkpoint_name str_float cfg e1)
     = Ok (Checkpoint e1 (st_model st1) (st_optimizer st1))
  /\ torch_load
       (torch_save str_float cfg e2 st2 (torch_save str_float cfg e1 st1 fs))
       (checkpoint_name str_float cfg e2)
     = Ok (Checkpoint e2 (st_model st2) (st_optimizer st2)).
Proof.
  intros Hne.
  assert (Hn : checkpoint_name str_float cfg e1
               <> checkpoint_name str_float cfg e2).
  { intros H. by apply checkpoint_name_inj in H. }
  split; [done|]. unfold torch_load, torch_save. split.
  - rewrite lookup_insert_ne by done. by rewrite lookup_insert_eq.
  - by rewrite lookup_insert_eq.
Qed.

(** Epochs 9 and 10 of the run of the examples. *)
Lemma checkpoints_do_not_overwrite_example :
  torch_load
    (torch_save (Rng := unit) run_str_float run_cfg 10
       (TrainState 10 10 tt)
       (torch_save run_str_float run_cfg 9 (TrainState 9 9 tt) ∅))%Z
    (checkpoint_name run_str_float run_cfg 9)
  = Ok (Checkpoint 9 9 9)%Z.
Proof.
  apply (checkpoints_do_not_overwrite (Rng := unit) run_str_float run_cfg
           9 10 (TrainState 9 9 tt) (TrainState 10 10 tt) ∅)%Z.
  discriminate.
Defined.

Section RandomMask.
Local Open Scope R_scope.
Variables (mask_token : Z) (mask_prob : R).

Abbreviation mask_row :=
  (fun (u : list R) (r : list Z) =>
     zip_with (fun (p : bool) t => if p then mask_token else t)
       (map (fun d => bool_decide (d < mask_prob)) u) r).

Lemma random_mask_rows draws x :
  random_mask draws x mask_token mask_prob
  = zip_with mask_row draws x.
Proof.
  unfold random_mask. revert x.
  induction draws as [|u draws IH]; intros [|r x]; try done.
  cbn. by rewrite IH.
Qed.

Lemma mask_row_keep u r :
  length u = length r -> mask_prob <= 0 -> Forall (Rle 0) u ->
  mask_row u r = r.
Proof.
  intros Hlen Hp Hu. revert r Hlen.
  induction Hu as [|d u Hd Hu IH]; intros [|t r] Hlen; try done.
  cbn. rewrite bool_decide_eq_false_2 by lra. f_equal. apply IH.
  by injection Hlen.
Qed.

Lemma mask_row_all u r :
  length u = length r -> 1 <= mask_prob -> Forall (fun d => d < 1) u ->
  mask_row u r = map (fun _ => mask_token) r.
Proof.
  intros Hlen Hp Hu. revert r Hlen.
  induction Hu as [|d u Hd Hu IH]; intros [|t r] Hlen; try done.
  cbn. rewrite bool_decide_eq_true_2 by lra. f_equal. apply IH.
  by injection Hlen.
Qed.

Lemma mask_row_entry u r j :
  length u = length r ->
  mask_row u r !! j
  = (fun t => if bool_decide (default 0 (u !! j) < mask_prob)
              then mask_token else t) <$> r !! j.
Proof.
  revert r j. induction u as [|d u IH]; intros [|t r] j Hlen; try done.
  destruct j as [|j]; [done|]. cbn. apply IH. by injection Hlen.
Qed.

End RandomMask.

(** [random_mask] changes a token only into the sentinel and keeps the
    shape; with a probability of zero or less it returns the input, and
    with a probability of one or more it returns the sentinel everywhere.
    A token that already is the sentinel stays the sentinel. *)
Theorem random_mask_laws (draws : list (list R)) (x : list (list Z))
    (mask_token : Z) (mask_prob : R) :
  Forall2 (fun u r => length u = length r) draws x ->
  Forall (Forall (fun d => 0 <= d < 1)%R) draws ->
  ((mask_prob <= 0)%R -> random_mask draws x mask_token mask_prob = x)
  /\ ((1 <= mask_prob)%R ->
        random_mask draws x mask_token mask_prob
        = map (map (fun _ => mask_token)) x)
  /\ Forall2 (fun r r' => length r = length r') x
       (random_mask draws x mask_token mask_prob)
  /\ (forall i j t,
        x !! i ≫= (fun r => r !! j) = Some t ->
        exists t',
          random_mask draws x mask_token mask_prob !! i ≫= (fun r => r !! j)
          = Some t'
          /\ (t' = t \/ t' = mask_token)
          /\ (t = mask_token -> t' = mask_token)).
Proof.
  intros Hshape Hd. rewrite random_mask_rows. repeat split.
  - intros Hp. induction Hshape as [|u r draws x Hur Hs IH]; [done|].
    apply Forall_cons in Hd as [Hu Hd]. cbn. rewrite IH by done. f_equal.
    apply mask_row_keep; [done..|].
    eapply Forall_impl; [exact Hu|]. intros d Hd'. cbn beta in Hd'. lra.
  - intros Hp. induction Hshape as [|u r draws x Hur Hs IH]; [done|].
    apply Forall_cons in Hd as [Hu Hd]. cbn. rewrite IH by done. f_equal.
    apply mask_row_all; [done..|].
    eapply Forall_impl; [exact Hu|]. intros d Hd'. cbn beta in Hd'. lra.
  - clear Hd. induction Hshape as [|u r draws x Hur Hs IH]; [constructor|].
    cbn. constructor; [|done]. rewrite length_zip_with, length_map. lia.
  - intros i j t Ht. rewrite lookup_zip_with.
    destruct (x !! i) as [r|] eqn:Hr; [|done]. cbn in Ht.
    destruct (draws !! i) as [u|] eqn:Hu.
    2:{ apply Forall2_length in Hshape. apply lookup_ge_None in Hu.
        apply lookup_lt_Some in Hr. lia. }
    cbn. assert (Hlen : length u = length r).
    { eapply Forall2_lookup_lr in Hshape; [exact Hshape|exact Hu|exact Hr]. }
    rewrite (mask_row_entry mask_token mask_prob u r j Hlen), Ht. cbn.
    eexists. split; [done|]. case_bool_decide; auto.
Qed.

(** A 2 by 2 batch with probability one. *)
Lemma random_mask_laws_example :
  random_mask [[0; 1 / 2]; [1 / 4; 0]]%R [[0; 1]; [1; 2]]%Z 3 1
  = map (map (fun _ => 3%Z)) [[0; 1]; [1; 2]]%Z.
Proof.
  apply (proj1 (proj2 (random_mask_laws [[0; 1 / 2]; [1 / 4; 0]]%R
                         [[0; 1]; [1; 2]]%Z 3 1
                         ltac:(repeat constructor)
                         ltac:(repeat constructor; lra)))).
  lra.
Defined.

(** ** The graph encoders and the model's forward pass *)

Import Encoders.

Lemma conv_forward_ok (i o v : nat) :
  conv_forward (Conv i o) (v, i) = Ok (v, o).
Proof. unfold conv_forward. simpl. by rewrite decide_True. Qed.

Lemma conv_forward_bad (i o v f : nat) :
  f <> i -> conv_forward (Conv i o) (v, f) = Err RuntimeError.
Proof. intros Hf. unfold conv_forward. simpl. by rewrite decide_False. Qed.

Section EncoderShapes.
Variables (input_size output_size : nat).

Lemma layers_by_index_tail (first : conv) (m : nat) (v : nat) :
  forall (k s : nat), 1 <= s -> s + k <= S m ->
  layers_by_index (first :: replicate m (Conv output_size output_size))
    (seq s k) (v, output_size)
  = Ok (v, output_size).
Proof.
  induction k as [|k IH]; intros s Hs Hle; [done|].
  destruct s as [|s]; [lia|].
  assert (Hl : (first :: replicate m (Conv output_size output_size)) !! S s
               = Some (Conv output_size output_size))
    by (apply (lookup_replicate_2 m (Conv output_size output_size) s); lia).
  cbn [seq layers_by_index]. rewrite Hl, conv_forward_ok.
  cbn [mbind result_bind]. apply IH; lia.
Qed.

Lemma graph_forward_replicate (m v : nat) :
  graph_forward (replicate m (Conv output_size output_size)) (v, output_size)
  = Ok (v, output_size).
Proof.
  induction m as [|m IH]; [done|]. cbn [replicate graph_forward].
  rewrite conv_forward_ok. exact IH.
Qed.

End EncoderShapes.

(** [GraphEncoder.forward] maps node features of the input width to the
    output width for every positive number of layers, raises on features
    of another width, and with [num_layers = 0] returns its input: the
    layer the constructor always builds is then never applied. *)
Theorem graph_encoder_forward_shape
    (input_size output_size num_layers v f : nat) :
  (num_layers = 0 ->
     GraphEncoder_forward input_size output_size num_layers (v, f)
     = Ok (v, f))
  /\ (1 <= num_layers -> f = input_size ->
        GraphEncoder_forward input_size output_size num_layers (v, f)
        = Ok (v, output_size))
  /\ (1 <= num_layers -> f <> input_size ->
        GraphEncoder_forward input_size output_size num_layers (v, f)
        = Err RuntimeError).
Proof.
  unfold GraphEncoder_forward, GraphEncoder. repeat split.
  - by intros ->.
  - intros Hn ->. destruct num_layers as [|n]; [lia|].
    cbn [seq layers_by_index lookup list_lookup pred].
    rewrite conv_forward_ok. cbn [mbind result_bind].
    apply layers_by_index_tail; lia.
  - intros Hn Hf. destruct num_layers as [|n]; [lia|].
    cbn [seq layers_by_index lookup list_lookup pred].
    by rewrite conv_forward_bad.
Qed.

(** Three layers from width 2 to width 3. *)
Lemma graph_encoder_forward_shape_example :
  GraphEncoder_forward 2 3 3 (4, 2) = Ok (4, 3).
Proof.
  apply (proj1 (proj2 (graph_encoder_forward_shape 2 3 3 4 2))); [lia|done].
Defined.

(** [HyperbolicGraphEncoder.forward] on features of the input width:
    every layer is built from the input width to the output width, so a
    stack of two or more layers works only when the two widths are equal;
    otherwise the second layer raises. *)
Theorem hyperbolic_graph_encoder_forward_shape
    (input_size output_size num_layers v : nat) :
  (num_layers = 0 ->
     HyperbolicGraphEncoder_forward input_size output_size num_layers
       (v, input_size) = Ok (v, input_size))
  /\ (num_layers = 1 ->
        HyperbolicGraphEncoder_forward input_size output_size num_layers
          (v, input_size) = Ok (v, output_size))
  /\ (2 <= num_layers -> output_size = input_size ->
        HyperbolicGraphEncoder_forward input_size output_size num_layers
          (v, input_size) = Ok (v, output_size))
  /\ (2 <= num_layers -> output_size <> input_size ->
        HyperbolicGraphEncoder_forward input_size output_size num_layers
          (v, input_size) = Err RuntimeError).
Proof.
  unfold HyperbolicGraphEncoder_forward, HyperbolicGraphEncoder. repeat split.
  - by intros ->.
  - intros ->. cbn [replicate graph_forward]. by rewrite conv_forward_ok.
  - intros _ ->. apply graph_forward_replicate.
  - intros Hn Hne. destruct num_layers as [|[|n]]; [lia..|].
    cbn [replicate graph_forward]. rewrite conv_forward_ok.
    cbn [mbind result_bind]. by rewrite conv_forward_bad.
Qed.

(** The two layers the updated model builds, from width 2 to width 3. *)
Lemma hyperbolic_graph_encoder_forward_shape_example :
  HyperbolicGraphEncoder_forward 2 3 2 (4, 2) = Err RuntimeError.
Proof.
  apply (proj2 (proj2 (proj2
           (hyperbolic_graph_encoder_forward_shape 2 3 2 4)))); [lia|done].
Defined.

(** [SingleViewModel.forward], for an edge drop rate in [[0, 1]]: in
    propagated mode, and in plain mode when the embedding width is the
    hidden width, a batch with at least one sequence and between one and
    [max_len] positions gives one node representation per node and one
    sequence representation per sequence, both of the hidden width, and
    any other batch raises [RuntimeError]; in plain mode with different
    widths [torch.cat] of the embedding table and the padding vector
    raises [RuntimeError]. *)
Theorem single_view_forward_shapes
    (vocab_size embed_size hidden_size : nat)
    (edge_index : list (nat * nat)) (mode : string)
    (batch_size max_seq_len : nat) (drop_edge_rate drop_road_rate : R) :
  let self := SingleViewModel vocab_size embed_size hidden_size edge_index
                (GraphEncoder embed_size hidden_size 2) hidden_size mode in
  (0 <= drop_edge_rate <= 1)%R ->
  (mode <> "p" \/ embed_size = hidden_size ->
     0 < batch_size -> 0 < max_seq_len <= pe_max_len ->
     forward self (batch_size, max_seq_len) drop_edge_rate drop_road_rate
     = Ok ((vocab_size, hidden_size), (batch_size, hidden_size)))
  /\ (mode <> "p" \/ embed_size = hidden_size ->
      batch_size = 0 \/ max_seq_len = 0 \/ pe_max_len < max_seq_len ->
        forward self (batch_size, max_seq_len) drop_edge_rate drop_road_rate
        = Err RuntimeError)
  /\ (mode = "p" -> embed_size <> hidden_size ->
        encode_sequence self (batch_size, max_seq_len) drop_road_rate
        = Err RuntimeError
        /\ forward self (batch_size, max_seq_len) drop_edge_rate drop_road_rate
           = Err RuntimeError).
Proof.
  intros self _. unfold self. clear self. unfold forward.
  rewrite single_view_encode_graph, single_view_encode_sequence.
  cbn [mbind result_bind]. split; [|split].
  - intros Hmode HB HT.
    rewrite bool_decide_eq_false_2 by (intros [? ?]; destruct Hmode; done).
    by rewrite decide_True.
  - intros Hmode Hbad.
    rewrite bool_decide_eq_false_2 by (intros [? ?]; destruct Hmode; done).
    by rewrite decide_False by lia.
  - intros Hm Hne. by rewrite bool_decide_eq_true_2.
Qed.

(** Plain mode with widths 2 and 4. *)
Lemma single_view_forward_shapes_example :
  forward (SingleViewModel 4 2 4 [(0, 1)] (GraphEncoder 2 4 2) 4 "p")
    (1, 5) 0 0
  = Err RuntimeError.
Proof.
  apply (proj2 (proj2 (single_view_forward_shapes 4 2 4 [(0, 1)] "p" 1 5
                         0%R 0%R ltac:(lra))));
    [reflexivity|lia].
Defined.

(** ** Sequence encoding on values *)

Import SeqValues.

Section Pooling.
Local Open Scope R_scope.

(** A slab of [b] vectors of width [d]. *)
Abbreviation slab_ok b d :=
  (fun slab : list (list tval) =>
     length slab = b /\ Forall (fun v => length v = d) slab).

Lemma sum0_entry (B D : nat) (slabs : list (list (list tval))) (b d : nat) :
  Forall (slab_ok B D) slabs -> (b < B)%nat -> (d < D)%nat ->
  sum0 B D slabs !! b ≫= (fun v => v !! d)
  = Some (tsum (map (fun slab => default NaN (slab !! b ≫= fun v => v !! d))
                  slabs)).
Proof.
  intros Hs Hb Hd. induction Hs as [|slab slabs [Hl Hv] Hs IH].
  - cbn. rewrite lookup_replicate_2 by done. cbn.
    by rewrite lookup_replicate_2.
  - cbn [sum0 foldr map]. fold (sum0 B D slabs).
    rewrite lookup_zip_with.
    destruct (slab !! b) as [v|] eqn:Ev.
    2:{ apply lookup_ge_None in Ev. lia. }
    cbn [mbind option_bind].
    destruct (sum0 B D slabs !! b) as [w|] eqn:Ew; [|done].
    cbn [mbind option_bind] in *. rewrite lookup_zip_with.
    eapply Forall_lookup_1 in Hv; [|exact Ev]. cbn in Hv.
    destruct (v !! d) as [x|] eqn:Ex.
    2:{ apply lookup_ge_None in Ex. lia. }
    cbn [mbind option_bind]. rewrite IH. done.
Qed.

Lemma sum0_mask_entry (B : nat) (pm : list (list tval)) (b : nat) :
  Forall (fun row => length row = B) pm -> (b < B)%nat ->
  sum0_mask B pm !! b
  = Some (tsum (map (fun row => default NaN (row !! b)) pm)).
Proof.
  intros Hs Hb. induction Hs as [|row pm Hl Hs IH].
  - cbn. by rewrite lookup_replicate_2.
  - cbn [sum0_mask foldr map]. fold (sum0_mask B pm).
    rewrite lookup_zip_with.
    destruct (row !! b) as [x|] eqn:Ex.
    2:{ apply lookup_ge_None in Ex. lia. }
    cbn [mbind option_bind]. by rewrite IH.
Qed.

Lemma length_sum0 B D slabs :
  Forall (slab_ok B D) slabs -> length (sum0 B D slabs) = B.
Proof.
  induction 1 as [|slab slabs [Hl Hv] Hs IH].
  - cbn. apply length_replicate.
  - cbn [sum0 foldr]. fold (sum0 B D slabs). rewrite length_zip_with. lia.
Qed.

Lemma length_sum0_mask B pm :
  Forall (fun row => length row = B) pm -> length (sum0_mask B pm) = B.
Proof.
  induction 1 as [|row pm Hl Hs IH].
  - cbn. apply length_replicate.
  - cbn [sum0_mask foldr]. fold (sum0_mask B pm). rewrite length_zip_with. lia.
Qed.

(** Entry [(b, d)] of the pooled tensor, for any values. *)
Lemma seq_pooled_entry (B D : nat) (enc : list (list (list tval)))
    (pm : list (list tval)) (b d : nat) :
  length enc = length pm ->
  Forall (slab_ok B D) enc -> Forall (fun row => length row = B) pm ->
  (b < B)%nat -> (d < D)%nat ->
  seq_pooled B D enc pm !! b ≫= (fun v => v !! d)
  = Some (tdiv
            (tsum (zip_with
                     (fun slab row =>
                        tmul (default NaN (slab !! b ≫= fun v => v !! d))
                          (default NaN (row !! b)))
                     enc pm))
            (tsum (map (fun row => default NaN (row !! b)) pm))).
Proof.
  intros Hlen Henc Hpm Hb Hd. unfold seq_pooled.
  set (masked := zip_with _ enc pm).
  assert (Hm : Forall (slab_ok B D) masked).
  { unfold masked. clear masked. revert pm Hlen Hpm.
    induction Henc as [|slab enc [Hl Hv] Henc IH]; intros [|row pm] Hlen Hpm;
      try discriminate; [constructor|].
    apply Forall_cons in Hpm as [Hr Hpm]. cbn. constructor.
    - split; [rewrite length_zip_with; lia|].
      apply Forall_forall. intros v Hv'.
      apply list_elem_of_lookup in Hv' as [i Hi].
      rewrite lookup_zip_with in Hi.
      destruct (slab !! i) as [v0|] eqn:E0; [|done]. cbn in Hi.
      destruct (row !! i); [|done]. injection Hi as <-.
      rewrite length_map. eapply Forall_lookup_1 in Hv; [exact Hv|exact E0].
    - apply IH; [by injection Hlen|done]. }
  rewrite lookup_zip_with.
  pose proof (sum0_entry B D masked b d Hm Hb Hd) as Hnum.
  pose proof (sum0_mask_entry B pm b Hpm Hb) as Hden.
  destruct (sum0 B D masked !! b) as [v|] eqn:Ev; [|done].
  cbn [mbind option_bind] in *. rewrite Hden. cbn [mbind option_bind].
  rewrite map_is_fmap, list_lookup_fmap, Hnum. cbn. do 2 f_equal.
  f_equal. unfold masked. clear -Hlen Henc Hpm Hb Hd.
  revert pm Hlen Hpm.
  induction Henc as [|slab enc [Hl Hv] Henc IH]; intros [|row pm] Hlen Hpm;
    try discriminate; [done|].
  apply Forall_cons in Hpm as [Hr Hpm]. cbn [zip_with map]. f_equal.
  - rewrite lookup_zip_with.
    destruct (slab !! b) as [v0|] eqn:E0.
    2:{ apply lookup_ge_None in E0. lia. }
    destruct (row !! b) as [m|] eqn:Em.
    2:{ apply lookup_ge_None in Em. lia. }
    cbn. rewrite map_is_fmap, list_lookup_fmap.
    eapply Forall_lookup_1 in Hv; [|exact E0]. cbn in Hv.
    destruct (v0 !! d) as [x|] eqn:Ex; [done|].
    apply lookup_ge_None in Ex. lia.
  - apply IH; [by injection Hlen|done].
Qed.

End Pooling.

Section MaskedMean.
Local Open Scope R_scope.

Lemma zip_with_seq_imap {A B C} (F : A -> B -> C) (G : nat -> B) (l : list A) :
  forall s : nat,
    zip_with F l (map G (seq s (length l)))
    = imap (fun t a => F a (G (s + t)%nat)) l.
Proof.
  induction l as [|a l IH]; intros s; [done|].
  cbn [length seq map zip_with imap]. f_equal.
  - by rewrite Nat.add_0_r.
  - rewrite IH. apply imap_ext. intros i x _. cbn. f_equal. f_equal. lia.
Qed.

Lemma map_seq_imap {A C} (G : nat -> C) (l : list A) : forall s : nat,
  map G (seq s (length l)) = imap (fun t _ => G (s + t)%nat) l.
Proof.
  induction l as [|a l IH]; intros s; [done|].
  cbn [length seq map imap]. f_equal.
  - by rewrite Nat.add_0_r.
  - rewrite IH. apply imap_ext. intros i x _. cbn. f_equal. lia.
Qed.

Lemma tsum_imap_values {A} (l : list A) :
  forall (f : nat -> A -> tval) (g : nat -> A -> option R),
  (forall t a, f t a = Num (match g t a with Some x => x | None => 0 end)) ->
  tsum (imap f l) = Num (rsum (omap (fun o : option R => o) (imap g l))).
Proof.
  induction l as [|a l IH]; intros f g Hfg; [done|].
  cbn [imap omap]. change (tsum (?x :: ?r)) with (tadd x (tsum r)).
  rewrite (IH (f ∘ S) (g ∘ S)) by (intros; apply Hfg).
  rewrite Hfg. cbn [tadd]. f_equal.
  destruct (g 0%nat a); [reflexivity|apply Rplus_0_l].
Qed.

Lemma tsum_imap_count {A} (l : list A) :
  forall (f : nat -> A -> tval) (g : nat -> A -> option R),
  (forall t a, f t a = Num (match g t a with Some _ => 1 | None => 0 end)) ->
  tsum (imap f l)
  = Num (INR (length (omap (fun o : option R => o) (imap g l)))).
Proof.
  induction l as [|a l IH]; intros f g Hfg; [done|].
  cbn [imap omap]. change (tsum (?x :: ?r)) with (tadd x (tsum r)).
  rewrite (IH (f ∘ S) (g ∘ S)) by (intros; apply Hfg).
  rewrite Hfg. cbn [tadd]. f_equal. destruct (g 0%nat a).
  - cbn [omap list_omap length]. rewrite S_INR. apply Rplus_comm.
  - apply Rplus_0_l.
Qed.

(** Row [t] of the pooling mask. *)
Lemma pool_mask_row (L : nat) (mask : list (list bool)) (t b : nat) :
  Forall (fun r => length r = L) mask -> (t < L)%nat -> (b < length mask)%nat ->
  default NaN
    (omap (fun row : list tval => row !! t)
       (map (map (fun p : bool => if p then Num 0 else Num 1)) mask) !! b)
  = if padded mask b t then Num 0 else Num 1.
Proof.
  intros Hm Ht. revert b. induction Hm as [|r mask Hr Hm IH]; intros b Hb.
  - cbn in Hb. lia.
  - assert (Ht' : map (fun p : bool => if p then Num 0 else Num 1) r !! t
                  = Some (if default true (r !! t) then Num 0 else Num 1)).
    { rewrite map_is_fmap, list_lookup_fmap.
      destruct (r !! t) as [p|] eqn:Ep; [done|].
      apply lookup_ge_None in Ep. lia. }
    cbn [map]. change (omap ?f (?x :: ?l))
      with (match f x with Some y => y :: omap f l | None => omap f l end).
    cbn beta. rewrite Ht'. destruct b as [|b].
    + done.
    + cbn [lookup list_lookup]. rewrite IH by (cbn in Hb; lia). done.
Qed.

Lemma length_pool_mask_row (L : nat) (mask : list (list bool)) (t : nat) :
  Forall (fun r => length r = L) mask -> (t < L)%nat ->
  length (omap (fun row : list tval => row !! t)
            (map (map (fun p : bool => if p then Num 0 else Num 1)) mask))
  = length mask.
Proof.
  intros Hm Ht. induction Hm as [|r mask Hr Hm IH]; [done|].
  assert (Ht' : is_Some (map (fun p : bool => if p then Num 0 else Num 1) r
                         !! t)).
  { apply lookup_lt_is_Some. rewrite length_map. lia. }
  destruct Ht' as [x Hx].
  cbn [map]. change (omap ?f (?x :: ?l))
    with (match f x with Some y => y :: omap f l | None => omap f l end).
  cbn beta. rewrite Hx. cbn [length]. by rewrite IH.
Qed.

Lemma channel_lift (slab : list (list R)) (B D b d : nat) :
  length slab = B -> Forall (fun v => length v = D) slab ->
  (b < B)%nat -> (d < D)%nat ->
  default NaN (map (map Num) slab !! b ≫= fun v => v !! d)
  = Num (channel slab b d).
Proof.
  intros Hl Hv Hb Hd. unfold channel.
  rewrite map_is_fmap, list_lookup_fmap.
  destruct (slab !! b) as [v|] eqn:Ev.
  2:{ apply lookup_ge_None in Ev. lia. }
  cbn. rewrite map_is_fmap, list_lookup_fmap.
  eapply Forall_lookup_1 in Hv; [|exact Ev]. cbn in Hv.
  destruct (v !! d) as [x|] eqn:Ex; [done|].
  apply lookup_ge_None in Ex. lia.
Qed.

Lemma seq_pooled_reals (B D : nat) (enc : list (list (list R)))
    (mask : list (list bool)) (b d : nat) :
  Forall (fun slab => length slab = B /\ Forall (fun v => length v = D) slab)
    enc ->
  length mask = B ->
  Forall (fun r => length r = length enc) mask ->
  (b < B)%nat -> (d < D)%nat ->
  seq_pooled B D (map (map (map Num)) enc) (pool_mask (length enc) mask) !! b
    ≫= (fun v => v !! d)
  = Some (tdiv (Num (rsum (kept_values enc mask b d)))
            (Num (INR (length (kept_values enc mask b d))))).
Proof.
  intros Henc HB Hmask Hb Hd.
  rewrite seq_pooled_entry; try done.
  - do 2 f_equal.
    + unfold pool_mask, transpose01.
      rewrite <- (length_map (map (map Num)) enc) at 1.
      rewrite zip_with_seq_imap, map_is_fmap, imap_fmap.
      unfold kept_values.
      rewrite <- (tsum_imap_values enc
                    (fun t slab =>
                       Num (channel slab b d
                            * (if padded mask b t then 0 else 1)))).
      2:{ intros t a. destruct (padded mask b t); f_equal; lra. }
      f_equal. apply imap_ext. intros t slab Ht. cbn.
      apply lookup_lt_Some in Ht as Htl.
      eapply Forall_lookup_1 in Henc as [Hl Hv]; [|exact Ht].
      rewrite (channel_lift slab B D) by done.
      rewrite (pool_mask_row (length enc)) by (done || lia).
      by destruct (padded mask b t).
    + unfold pool_mask, transpose01. rewrite map_map.
      rewrite map_seq_imap. unfold kept_values.
      rewrite <- (tsum_imap_count enc
                    (fun t _ => if padded mask b t then Num 0 else Num 1)).
      2:{ intros t a. by destruct (padded mask b t). }
      f_equal. apply imap_ext. intros t slab Ht. cbn.
      apply lookup_lt_Some in Ht as Htl.
      by rewrite (pool_mask_row (length enc)) by (done || lia).
  - unfold pool_mask, transpose01. by rewrite !length_map, length_seq.
  - apply Forall_forall. intros slab (s0 & -> & Hs0)%list_elem_of_fmap.
    rewrite Forall_forall in Henc. destruct (Henc _ Hs0) as [Hl Hv].
    split; [by rewrite length_map|].
    apply Forall_forall. intros v (v0 & -> & Hv0)%list_elem_of_fmap.
    rewrite length_map. rewrite Forall_forall in Hv. by apply Hv.
  - unfold pool_mask, transpose01. apply Forall_forall.
    intros row (t & -> & Ht)%list_elem_of_fmap. apply elem_of_seq in Ht.
    rewrite (length_pool_mask_row (length enc)) by (done || lia). done.
Qed.

End MaskedMean.

(** Masked pooling: entry [(b, d)] of the pooled tensor is the mean of
    channel [d] of sequence [b] over the positions that are not padding;
    padded positions enter neither the sum nor the count.  A sequence
    that is padding at every position pools to [NaN]. *)
Theorem masked_pooling_is_mean_over_unpadded
    (B D : nat) (enc : list (list (list R))) (mask : list (list bool))
    (b d : nat) :
  Forall (fun slab => length slab = B /\ Forall (fun v => length v = D) slab)
    enc ->
  length mask = B ->
  Forall (fun r => length r = length enc) mask ->
  b < B -> d < D ->
  (kept_values enc mask b d <> [] ->
     seq_pooled B D (map (map (map Num)) enc) (pool_mask (length enc) mask)
       !! b ≫= (fun v => v !! d)
     = Some (Num (rmean (kept_values enc mask b d))))
  /\ (kept_values enc mask b d = [] ->
        seq_pooled B D (map (map (map Num)) enc) (pool_mask (length enc) mask)
          !! b ≫= (fun v => v !! d)
        = Some NaN).
Proof.
  intros Henc HB Hmask Hb Hd. rewrite seq_pooled_reals by done. split.
  - intros Hne. rewrite tdiv_Num; [done|].
    apply not_0_INR. by destruct (kept_values enc mask b d).
  - intros ->. cbn [rsum foldr length INR]. by rewrite tdiv_zero_zero.
Qed.

(** Three positions, one sequence, padding at the last position only. *)
Lemma masked_pooling_is_mean_over_unpadded_example :
  seq_pooled 1 2
    (map (map (map Num)) [[[1; 2]]; [[3; 4]]; [[50; 60]]]%R)
    (pool_mask 3 [[false; false; true]])
    !! 0 ≫= (fun v => v !! 1)
  = Some (Num (rmean [2; 4]%R)).
Proof.
  apply (proj1 (masked_pooling_is_mean_over_unpadded 1 2
                  [[[1; 2]]; [[3; 4]]; [[50; 60]]]%R
                  [[false; false; true]] 0 1
                  ltac:(repeat constructor) eq_refl
                  ltac:(repeat constructor) ltac:(lia) ltac:(lia))).
  discriminate.
Defined.

Section Lookup.

Lemma mapM_result_ok {A B} (f : A -> result B) (l : list A) (k : list B) :
  Forall2 (fun x y => f x = Ok y) l k -> mapM f l = Ok k.
Proof.
  induction 1 as [|x y l k Hxy Hlk IH]; [done|].
  cbn. rewrite Hxy. cbn. rewrite IH. done.
Qed.

Lemma mapM_result_err {A B} (f : A -> result B) (l : list A) (e : pyerr) :
  (forall x, x ∈ l -> f x = Err e \/ exists y, f x = Ok y) ->
  (exists x, x ∈ l /\ f x = Err e) ->
  mapM f l = Err e.
Proof.
  induction l as [|x l IH]; intros Hall (x0 & Hin & Hx0).
  - by apply not_elem_of_nil in Hin.
  - cbn. destruct (Hall x ltac:(left)) as [->|[y Hy]]; [done|].
    rewrite Hy. cbn. rewrite IH; [done| |].
    + intros z Hz. apply Hall. by right.
    + apply elem_of_cons in Hin as [->|Hin]; [congruence|eauto].
Qed.

Variables (weight padding : matrix) (pad : list tval) (V : nat).
Hypothesis weight_rows : nrows weight = V.
Hypothesis padding_row : mrows padding = [pad].

Abbreviation table := (Matrix (ncols weight) (mrows weight ++ mrows padding)).

Lemma select_row_in_range (z : Z) :
  (0 <= z <= Z.of_nat V)%Z -> select_row table z = Ok (token_row weight pad V z).
Proof.
  intros Hz. unfold select_row, token_row. rewrite decide_True by lia.
  cbn [mrows]. unfold nrows in weight_rows. case_decide as Hv.
  - subst z. rewrite Nat2Z.id, padding_row.
    rewrite lookup_app_r by lia.
    by replace (V - length (mrows weight)) with 0 by lia.
  - rewrite lookup_app_l by lia.
    destruct (mrows weight !! Z.to_nat z) eqn:E; [done|].
    apply lookup_ge_None in E. lia.
Qed.

Lemma select_row_out_of_range (z : Z) :
  ~ (0 <= z <= Z.of_nat V)%Z -> select_row table z = Err IndexError.
Proof.
  intros Hz. unfold select_row. case_decide; [|done].
  cbn [mrows]. unfold nrows in weight_rows.
  destruct ((mrows weight ++ mrows padding) !! Z.to_nat z) eqn:E; [|done].
  apply lookup_lt_Some in E. rewrite length_app, padding_row in E.
  cbn in E. lia.
Qed.

Lemma select_row_outcome (z : Z) :
  select_row table z = Err IndexError \/ exists y, select_row table z = Ok y.
Proof.
  destruct (decide (0 <= z <= Z.of_nat V)%Z).
  - right. rewrite select_row_in_range by done. eauto.
  - left. by apply select_row_out_of_range.
Qed.

Lemma transpose01_entry {A} (L : nat) (rows : list (list A)) (t b : nat) :
  Forall (fun r => length r = L) rows -> t < L ->
  transpose01 L rows !! t ≫= (fun s => s !! b)
  = rows !! b ≫= (fun r => r !! t).
Proof.
  intros Hrows Ht. unfold transpose01.
  rewrite map_is_fmap, list_lookup_fmap, lookup_seq_lt by done. cbn.
  clear -Hrows Ht. revert b. induction Hrows as [|r rows Hr Hrows IH]; intros b.
  - done.
  - change (omap ?f (?x :: ?l))
      with (match f x with Some y => y :: omap f l | None => omap f l end).
    cbn beta. destruct (r !! t) as [x|] eqn:E.
    2:{ apply lookup_ge_None in E. lia. }
    destruct b as [|b]; [by cbn; rewrite E|]. cbn [lookup list_lookup].
    apply IH.
Qed.

Lemma seq_emb_in_range (L : nat) (sequences : list (list Z)) :
  Forall (Forall (fun z => 0 <= z <= Z.of_nat V)%Z) sequences ->
  seq_emb table L sequences
  = if decide (length sequences * L = 0) then Err RuntimeError
    else Ok (transpose01 L (map (map (token_row weight pad V)) sequences)).
Proof.
  intros Htok. unfold seq_emb.
  rewrite (mapM_result_ok _ _
             (map (map (token_row weight pad V)) sequences)); [done|].
  induction Htok as [|r sequences Hr Htok IH]; constructor; [|done].
  apply mapM_result_ok.
  induction Hr as [|z r Hz Hr IH']; constructor; [|done].
  by apply select_row_in_range.
Qed.

Lemma seq_emb_out_of_range (L : nat) (sequences : list (list Z)) :
  ~ Forall (Forall (fun z => 0 <= z <= Z.of_nat V)%Z) sequences ->
  seq_emb table L sequences = Err IndexError.
Proof.
  intros Hbad. unfold seq_emb.
  rewrite (mapM_result_err _ _ IndexError); [done| |].
  - intros r _.
    induction r as [|z r IH]; [right; by eexists|]. cbn.
    destruct (select_row_outcome z) as [->|[y ->]]; [by left|]. cbn.
    destruct IH as [->|[k ->]]; [by left|]. right. by eexists.
  - apply not_Forall_Exists in Hbad; [|apply _].
    apply Exists_exists in Hbad as (r & Hr & Hbad).
    exists r. split; [done|].
    apply mapM_result_err.
    + intros z _. apply select_row_outcome.
    + apply not_Forall_Exists in Hbad; [|apply _].
      apply Exists_exists in Hbad as (z & Hz & Hbad).
      exists z. split; [done|].
      by apply select_row_out_of_range.
Qed.

End Lookup.

(** Looking tokens up in the table [cat([weight, padding])] for a batch
    of [L] tokens per sequence: the padding sentinel selects the padding
    vector, a node id selects that node's row, a batch with a token
    outside [[0, vocab_size]] raises instead of returning an embedding,
    and so does a batch without sequences or without positions. *)
Theorem sequence_embedding_lookup
    (weight padding : matrix) (pad : list tval) (V L : nat)
    (sequences : list (list Z)) :
  nrows weight = V -> ncols weight = ncols padding -> mrows padding = [pad] ->
  Forall (fun r => length r = L) sequences ->
  exists lookup_table,
    cat_rows weight padding = Ok lookup_table
    /\ (Forall (Forall (fun z => 0 <= z <= Z.of_nat V)%Z) sequences ->
        sequences <> [] -> 0 < L ->
          exists emb,
            seq_emb lookup_table L sequences = Ok emb
            /\ forall b t z,
                 sequences !! b ≫= (fun r => r !! t) = Some z ->
                 emb !! t ≫= (fun s => s !! b)
                 = Some (if decide (z = Z.of_nat V) then pad
                         else default [] (mrows weight !! Z.to_nat z)))
    /\ (~ Forall (Forall (fun z => 0 <= z <= Z.of_nat V)%Z) sequences ->
          exists e, seq_emb lookup_table L sequences = Err e)
    /\ (sequences = [] \/ L = 0 ->
          seq_emb lookup_table L sequences = Err RuntimeError).
Proof.
  intros HV Hc Hpad Hrect. unfold cat_rows. rewrite decide_True by done.
  eexists. split; [done|]. repeat split.
  - intros Htok Hne HL.
    rewrite (seq_emb_in_range weight padding pad V HV Hpad) by done.
    rewrite decide_False by (destruct sequences; [done|cbn; lia]).
    eexists. split; [done|].
    intros b t z Hz.
    assert (Ht : t < L).
    { destruct (sequences !! b) as [r|] eqn:Er; [|done]. cbn in Hz.
      eapply Forall_lookup_1 in Hrect; [|exact Er]. cbn in Hrect.
      apply lookup_lt_Some in Hz. lia. }
    rewrite transpose01_entry; [|
      apply Forall_forall; intros r (r0 & -> & Hr0)%list_elem_of_fmap;
      rewrite length_map; rewrite Forall_forall in Hrect; by apply Hrect
      | done].
    rewrite map_is_fmap, list_lookup_fmap.
    destruct (sequences !! b) as [r|]; [|done]. cbn in *.
    rewrite map_is_fmap, list_lookup_fmap, Hz. done.
  - intros Hbad. exists IndexError.
    by apply (seq_emb_out_of_range weight padding pad V HV Hpad).
  - intros Hempty.
    rewrite (seq_emb_in_range weight padding pad V HV Hpad).
    + rewrite decide_True; [done|]. destruct Hempty as [->| ->]; cbn; lia.
    + destruct Hempty as [->| ->]; [constructor|].
      eapply Forall_impl; [exact Hrect|]. intros r Hr. cbn beta in Hr.
      apply nil_length_inv in Hr. subst r. constructor.
Qed.

(** Two nodes and the sentinel 2; then a token 3. *)
Lemma sequence_embedding_lookup_example :
  exists lookup_table,
    cat_rows (of_reals 1 [[5]; [6]]%R) (zeros 1 1) = Ok lookup_table
    /\ exists e, seq_emb lookup_table 2 [[0; 3]%Z] = Err e.
Proof.
  destruct (sequence_embedding_lookup (of_reals 1 [[5]; [6]]%R) (zeros 1 1)
              [Num 0] 2 2 [[0; 3]%Z] eq_refl eq_refl eq_refl
              ltac:(repeat constructor)) as (tb & Htb & _ & Hbad & _).
  exists tb. split; [exact Htb|]. apply Hbad.
  intros H. apply Forall_cons in H as [H _].
  apply Forall_cons in H as [_ H]. apply Forall_cons in H as [H _]. lia.
Defined.

Section EncodeSequenceValues.

Lemma mask_row_Forall (P : Z -> Prop) (mask_token : Z) (mask_prob : R)
    (u : list R) (r : list Z) :
  P mask_token -> Forall P r ->
  Forall P (zip_with (fun (p : bool) t => if p then mask_token else t)
              (map (fun d => bool_decide (d < mask_prob)%R) u) r).
Proof.
  intros Hm Hr. revert u. induction Hr as [|t r Ht Hr IH]; intros [|d u];
    try constructor.
  - by destruct (bool_decide _).
  - apply IH.
Qed.

Lemma random_mask_Forall (P : Z -> Prop) (mask_token : Z) (mask_prob : R)
    (draws : list (list R)) (x : list (list Z)) :
  P mask_token -> Forall (Forall P) x ->
  Forall (Forall P) (random_mask draws x mask_token mask_prob).
Proof.
  intros Hm Hx. rewrite random_mask_rows. revert draws.
  induction Hx as [|r x Hr Hx IH]; intros [|u draws]; try constructor.
  - by apply mask_row_Forall.
  - apply IH.
Qed.

Lemma random_mask_lengths (mask_token : Z) (mask_prob : R)
    (draws : list (list R)) (x : list (list Z)) :
  Forall2 (fun u r => length u = length r) draws x ->
  Forall2 (fun r r' => length r' = length r) x
    (random_mask draws x mask_token mask_prob).
Proof.
  intros Hs. rewrite random_mask_rows.
  induction Hs as [|u r draws x Hur Hs IH]; constructor; [|done].
  rewrite length_zip_with, length_map. lia.
Qed.

Lemma random_mask_row (mask_token : Z) (mask_prob : R)
    (draws : list (list R)) (x : list (list Z)) (b : nat) (r : list Z) :
  Forall2 (fun u r => length u = length r) draws x ->
  x !! b = Some r ->
  exists u, length u = length r
    /\ random_mask draws x mask_token mask_prob !! b
       = Some (zip_with (fun (p : bool) t => if p then mask_token else t)
                 (map (fun d => bool_decide (d < mask_prob)%R) u) r).
Proof.
  intros Hs Hr. rewrite random_mask_rows.
  destruct (draws !! b) as [u|] eqn:Hu.
  2:{ apply Forall2_length in Hs. apply lookup_ge_None in Hu.
      apply lookup_lt_Some in Hr. lia. }
  exists u. split.
  - eapply Forall2_lookup_lr in Hs; [exact Hs|exact Hu|exact Hr].
  - by rewrite lookup_zip_with, Hu, Hr.
Qed.

Lemma random_mask_keep (mask_token : Z) (mask_prob : R)
    (draws : list (list R)) (x : list (list Z)) :
  Forall2 (fun u r => length u = length r) draws x ->
  Forall (Forall (Rle 0)) draws -> (mask_prob <= 0)%R ->
  random_mask draws x mask_token mask_prob = x.
Proof.
  intros Hs Hd Hp. rewrite random_mask_rows.
  induction Hs as [|u r draws x Hur Hs IH]; [done|].
  apply Forall_cons in Hd as [Hu Hd]. cbn [zip_with]. rewrite IH by done.
  f_equal. by apply mask_row_keep.
Qed.

(** One column of a batch of rows. *)
Lemma length_column {A} (t : nat) (rows : list (list A)) :
  Forall (fun r => t < length r) rows ->
  length (omap (fun row : list A => row !! t) rows) = length rows.
Proof.
  induction 1 as [|r rows Hr Hrows IH]; [done|].
  change (omap ?f (?x :: ?l))
    with (match f x with Some y => y :: omap f l | None => omap f l end).
  cbn beta. destruct (r !! t) as [x|] eqn:E.
  2:{ apply lookup_ge_None in E. lia. }
  cbn [length]. by rewrite IH.
Qed.

Lemma column_Forall {A} (P : A -> Prop) (t : nat) (rows : list (list A)) :
  Forall (Forall P) rows ->
  Forall P (omap (fun row : list A => row !! t) rows).
Proof.
  induction 1 as [|r rows Hr Hrows IH]; [constructor|].
  change (omap ?f (?x :: ?l))
    with (match f x with Some y => y :: omap f l | None => omap f l end).
  cbn beta. destruct (r !! t) as [x|] eqn:E; [|done].
  constructor; [|done]. eapply Forall_lookup_1 in Hr; [exact Hr|exact E].
Qed.

Lemma transpose01_shape {A} (T D : nat) (rows : list (list (list A))) :
  Forall (fun r => length r = T) rows ->
  Forall (Forall (fun v => length v = D)) rows ->
  shape3 T (length rows) D (transpose01 T rows).
Proof.
  intros Hlen Hw. unfold shape3, transpose01. split.
  - by rewrite length_map, length_seq.
  - apply Forall_forall. intros slab (t & -> & Ht)%list_elem_of_fmap.
    apply elem_of_seq in Ht. split.
    + apply length_column. eapply Forall_impl; [exact Hlen|].
      intros r Hr. cbn beta in Hr. lia.
    + by apply column_Forall.
Qed.

Lemma token_row_length (base : matrix) (pad : list tval) (V D : nat) (z : Z) :
  nrows base = V -> ncols base = D -> rect base -> length pad = D ->
  (0 <= z <= Z.of_nat V)%Z ->
  length (token_row base pad V z) = D.
Proof.
  intros HV HD Hrect Hpad Hz. unfold token_row. case_decide; [done|].
  unfold nrows in HV.
  destruct (mrows base !! Z.to_nat z) as [r|] eqn:E.
  - eapply Forall_lookup_1 in Hrect; [|exact E]. cbn in *. lia.
  - apply lookup_ge_None in E. lia.
Qed.

Lemma tmul_zero_r (a : tval) : tmul a (Num 0) = Num 0 \/ tmul a (Num 0) = NaN.
Proof.
  destruct a as [x| | |]; cbn [tmul]; rewrite ?Rsign_0; cbn; auto.
  left. f_equal. lra.
Qed.

Lemma tsum_zero_or_nan (l : list tval) :
  Forall (fun a => a = Num 0 \/ a = NaN) l -> tsum l = Num 0 \/ tsum l = NaN.
Proof.
  induction 1 as [|a l Ha Hl IH]; [by left|].
  change (tsum (a :: l)) with (tadd a (tsum l)).
  destruct Ha as [->| ->]; [|by right].
  destruct IH as [->| ->]; [|by right]. left. cbn. f_equal. lra.
Qed.

Lemma tsum_zeros (l : list tval) :
  Forall (fun a => a = Num 0) l -> tsum l = Num 0.
Proof.
  induction 1 as [|a l -> Hl IH]; [done|].
  change (tsum (Num 0 :: l)) with (tadd (Num 0) (tsum l)).
  rewrite IH. cbn. f_equal. lra.
Qed.

Lemma tdiv_zero_or_nan (a : tval) :
  a = Num 0 \/ a = NaN -> tdiv a (Num 0) = NaN.
Proof. intros [->| ->]; [apply tdiv_zero_zero|done]. Qed.

(** With every position of sequence [b] padded, the masked sum and the
    count are both zero. *)
Lemma seq_pooled_all_padded (B D : nat) (enc : list (list (list tval)))
    (mask : list (list bool)) (b d : nat) :
  shape3 (length enc) B D enc ->
  length mask = B -> Forall (fun r => length r = length enc) mask ->
  b < B -> d < D ->
  (forall t, t < length enc -> padded mask b t = true) ->
  seq_pooled B D enc (pool_mask (length enc) mask) !! b ≫= (fun v => v !! d)
  = Some NaN.
Proof.
  intros [_ Henc] HB Hmask Hb Hd Hpad.
  assert (Hpm : Forall (fun row => length row = B /\ default NaN (row !! b) = Num 0)
                  (pool_mask (length enc) mask)).
  { unfold pool_mask, transpose01. apply Forall_forall.
    intros row (t & -> & Ht)%list_elem_of_fmap. apply elem_of_seq in Ht.
    split.
    - rewrite (length_pool_mask_row (length enc)) by (done || lia). done.
    - rewrite (pool_mask_row (length enc)) by (done || lia).
      by rewrite Hpad by lia. }
  rewrite seq_pooled_entry; try done.
  - f_equal. rewrite (tsum_zeros (map _ _)).
    + apply tdiv_zero_or_nan, tsum_zero_or_nan.
      apply Forall_forall. intros a Ha.
      apply list_elem_of_lookup in Ha as [i Hi].
      rewrite lookup_zip_with in Hi.
      destruct (enc !! i) as [slab|]; [|done]. cbn in Hi.
      destruct (pool_mask (length enc) mask !! i) as [row|] eqn:Er; [|done].
      cbn in Hi. injection Hi as <-.
      eapply Forall_lookup_1 in Hpm as [_ ->]; [|exact Er].
      apply tmul_zero_r.
    + apply Forall_forall. intros a (row & -> & Hrow)%list_elem_of_fmap.
      rewrite Forall_forall in Hpm. by destruct (Hpm _ Hrow) as [_ ->].
  - unfold pool_mask, transpose01. by rewrite !length_map, length_seq.
  - eapply Forall_impl; [exact Hpm|]. by intros row [? _].
Qed.

Lemma padded_sentinel_row (V : nat) (sequences : list (list Z)) (b t : nat)
    (r : list Z) :
  sequences !! b = Some r -> Forall (eq (Z.of_nat V)) r -> t < length r ->
  padded (src_key_padding_mask sequences V) b t = true.
Proof.
  intros Hr Hall Ht. unfold padded, src_key_padding_mask.
  rewrite map_is_fmap, list_lookup_fmap, Hr. cbn.
  rewrite map_is_fmap, list_lookup_fmap.
  destruct (r !! t) as [z|] eqn:E.
  2:{ apply lookup_ge_None in E. lia. }
  cbn. eapply Forall_lookup_1 in Hall; [|exact E].
  by rewrite bool_decide_eq_true_2.
Qed.

End EncodeSequenceValues.

(** [encode_sequence] end to end, for an encoder that keeps the shape of
    its input.  With a non-empty batch of non-empty sequences and every
    token in [[0, vocab_size]] a result is returned, and a sequence made
    of the padding sentinel only gets [NaN] in every channel, whatever
    the encoder computes and whatever is masked: its masked sum and its
    count of kept positions are both zero.  With a token outside that
    range and nothing masked, the lookup raises; a batch without
    sequences or without positions raises [RuntimeError]. *)
Theorem encode_sequence_end_to_end
    (seq_encoder : list (list (list tval)) -> list (list bool)
                   -> list (list (list tval)))
    (encode_graph : matrix -> result matrix)
    (mode : string) (V D T : nat) (weight base padding : matrix)
    (pad : list tval) (draws : list (list R)) (sequences : list (list Z))
    (drop_rate : R) :
  (mode = "p" /\ base = weight) \/ (mode <> "p" /\ encode_graph weight = Ok base) ->
  nrows base = V -> ncols base = D -> rect base ->
  ncols padding = D -> mrows padding = [pad] -> length pad = D ->
  Forall (fun r => length r = T) sequences ->
  Forall2 (fun u r => length u = length r) draws sequences ->
  (forall emb mask,
     shape3 T (length sequences) D emb ->
     shape3 T (length sequences) D (seq_encoder emb mask)) ->
  (Forall (Forall (fun z => 0 <= z <= Z.of_nat V)%Z) sequences ->
   sequences <> [] -> 0 < T ->
     exists out,
       encode_sequence seq_encoder encode_graph mode V weight padding draws T
         sequences drop_rate = Ok out
       /\ forall b r d,
            sequences !! b = Some r -> Forall (eq (Z.of_nat V)) r -> d < D ->
            out !! b ≫= (fun v => v !! d) = Some NaN)
  /\ (~ Forall (Forall (fun z => 0 <= z <= Z.of_nat V)%Z) sequences ->
        Forall (Forall (Rle 0)) draws -> (drop_rate <= 0)%R ->
        exists e,
          encode_sequence seq_encoder encode_graph mode V weight padding draws
            T sequences drop_rate = Err e)
  /\ (sequences = [] \/ T = 0 ->
        encode_sequence seq_encoder encode_graph mode V weight padding draws
          T sequences drop_rate = Err RuntimeError).
Proof.
  intros Hmode HV HD Hrect HpD Hpad Hpl Hlen Hdraws Hkeep.
  assert (Htable : (if bool_decide (mode = "p") then cat_rows weight padding
                    else node_enc ← encode_graph weight;
                         cat_rows node_enc padding)
                   = Ok (Matrix (ncols base) (mrows base ++ mrows padding))).
  { destruct Hmode as [[-> ->]|[Hm ->]].
    - rewrite bool_decide_eq_true_2 by done. unfold cat_rows.
      by rewrite decide_True by congruence.
    - rewrite bool_decide_eq_false_2 by done. cbn [mbind result_bind].
      unfold cat_rows. by rewrite decide_True by congruence. }
  unfold encode_sequence. rewrite Htable. cbn [mbind result_bind ncols].
  set (masked := random_mask draws sequences (Z.of_nat V) drop_rate).
  pose proof (random_mask_lengths (Z.of_nat V) drop_rate draws sequences Hdraws)
    as Hml. fold masked in Hml.
  assert (HB : length masked = length sequences).
  { symmetry. by eapply Forall2_length. }
  assert (HT : Forall (fun r => length r = T) masked).
  { apply Forall_forall. intros r' Hr'.
    apply list_elem_of_lookup in Hr' as [i Hi].
    destruct (Forall2_lookup_r _ _ _ _ _ Hml Hi) as (r & Hr & Hrr').
    eapply Forall_lookup_1 in Hlen; [|exact Hr]. cbn in Hlen. lia. }
  assert (Hin : Forall (Forall (fun z => 0 <= z <= Z.of_nat V)%Z) sequences ->
                Forall (Forall (fun z => 0 <= z <= Z.of_nat V)%Z) masked).
  { intros Htok. apply random_mask_Forall; [lia|done]. }
  repeat split.
  - intros Htok Hne HT0. pose proof (Hin Htok) as Htok'.
    rewrite (seq_emb_in_range base padding pad V HV Hpad) by done.
    rewrite decide_False by (rewrite HB; destruct sequences; [done|cbn; lia]).
    cbn [mbind result_bind]. eexists. split; [done|].
    intros b r d Hr Hall Hd.
    set (emb := transpose01 T _).
    set (mask := src_key_padding_mask masked V).
    assert (Hemb : shape3 T (length sequences) D emb).
    { unfold emb. rewrite <- HB, <- (length_map (map (token_row base pad V))).
      apply transpose01_shape.
      - apply Forall_forall. intros k (k0 & -> & Hk0)%list_elem_of_fmap.
        rewrite length_map. rewrite Forall_forall in HT. by apply HT.
      - apply Forall_forall. intros k (k0 & -> & Hk0)%list_elem_of_fmap.
        apply Forall_forall. intros v (z & -> & Hz)%list_elem_of_fmap.
        apply token_row_length; try done.
        rewrite Forall_forall in Htok'. specialize (Htok' _ Hk0).
        rewrite Forall_forall in Htok'. by apply Htok'. }
    pose proof (Hkeep emb mask Hemb) as Henc.
    destruct Henc as [HencT Henc].
    assert (Hb : b < length sequences) by (by eapply lookup_lt_Some).
    destruct (random_mask_row (Z.of_nat V) drop_rate draws sequences b r
                Hdraws Hr) as (u & Hu & Hrow). fold masked in Hrow.
    rewrite HD, <- HencT.
    apply seq_pooled_all_padded; try done.
    + unfold mask, src_key_padding_mask. rewrite length_map. exact HB.
    + unfold mask, src_key_padding_mask. apply Forall_forall.
      intros k (k0 & -> & Hk0)%list_elem_of_fmap. rewrite length_map.
      rewrite Forall_forall in HT. pose proof (HT _ Hk0) as Hk.
      rewrite Hk. symmetry. exact HencT.
    + intros t Ht. eapply padded_sentinel_row; [exact Hrow| |].
      * by apply mask_row_Forall.
      * rewrite length_zip_with, length_map.
        eapply Forall_lookup_1 in Hlen; [|exact Hr]. cbn in Hlen. lia.
  - intros Hbad Hnn Hp. exists IndexError.
    unfold masked. rewrite random_mask_keep by done.
    by rewrite (seq_emb_out_of_range base padding pad V HV Hpad).
  - intros Hempty.
    rewrite (seq_emb_in_range base padding pad V HV Hpad).
    + rewrite decide_True; [done|]. rewrite HB.
      destruct Hempty as [->| ->]; cbn; lia.
    + apply Hin. destruct Hempty as [->| ->]; [constructor|].
      eapply Forall_impl; [exact Hlen|]. intros r Hr. cbn beta in Hr.
      apply nil_length_inv in Hr. subst r. constructor.
Qed.

(** Two nodes, two sequences of two tokens; the second sequence is
    padding only. *)
Lemma encode_sequence_end_to_end_example :
  exists out,
    encode_sequence (fun emb _ => emb) Ok "p" 2 (of_reals 1 [[5]; [6]]%R)
      (zeros 1 1) [[0; 0]; [0; 0]]%R 2 [[0; 2]; [2; 2]]%Z 0 = Ok out
    /\ out !! 1 ≫= (fun v => v !! 0) = Some NaN.
Proof.
  destruct (encode_sequence_end_to_end (fun emb _ => emb) Ok "p" 2 1 2
              (of_reals 1 [[5]; [6]]%R) (of_reals 1 [[5]; [6]]%R) (zeros 1 1)
              [Num 0] [[0; 0]; [0; 0]]%R [[0; 2]; [2; 2]]%Z 0
              ltac:(left; split; reflexivity) eq_refl eq_refl
              ltac:(repeat constructor) eq_refl eq_refl eq_refl
              ltac:(repeat constructor) ltac:(repeat constructor)
              ltac:(intros emb mask H; exact H)) as [Hok _].
  destruct Hok as (out & Hout & Hnan).
  { repeat constructor; lia. }
  { discriminate. }
  { lia. }
  exists out. split; [exact Hout|].
  apply (Hnan 1 [2; 2]%Z 0); [reflexivity|repeat constructor|lia].
Defined.

(** ** The positional encoding table *)

From Stdlib Require Import ZifyNat.
Import Positional.

(** Linear arithmetic with division and remainder by a constant. *)
Ltac lia_div := zify; Z.to_euclidean_division_equations; lia.

Section PositionalTable.
Local Open Scope R_scope.

Lemma length_div_term dim : length (div_term dim) = ((dim + 1) / 2)%nat.
Proof. unfold div_term, arange_step2. by rewrite !length_map, length_seq. Qed.

Lemma div_term_lookup dim c :
  (c < (dim + 1) / 2)%nat -> div_term dim !! c = Some (frequency dim c).
Proof.
  intros Hc. unfold div_term, arange_step2, frequency.
  rewrite !map_is_fmap, !list_lookup_fmap, lookup_seq_lt by done. done.
Qed.

Lemma zip_with_map_same {A B C D} (f : B -> C -> D) (g : A -> B) (h : A -> C)
    (l : list A) :
  zip_with f (map g l) (map h l) = map (fun x => f (g x) (h x)) l.
Proof. induction l as [|x l IH]; [done|]. cbn. by rewrite IH. Qed.

Lemma replicate_map_seq {A} (x : A) (n : nat) : forall s,
  replicate n x = map (fun _ => x) (seq s n).
Proof. induction n as [|n IH]; intros s; [done|]. cbn. by rewrite <- IH. Qed.

Lemma assign_strided_ok (start dst_cols : nat) (dst : list (list R))
    (src_cols : nat) (src : list (list R)) :
  (src_cols = strided_count start dst_cols \/ src_cols = 1)%nat ->
  assign_strided start dst_cols dst src_cols src
  = Ok (zip_with
          (fun drow srow =>
             imap (fun j x =>
                     if decide (start <= j /\ (j - start) mod 2 = 0)%nat
                     then default x
                            (srow !! (if decide (src_cols
                                                 = strided_count start dst_cols)
                                      then ((j - start) / 2)%nat else 0%nat))
                     else x) drow)
          dst src).
Proof. intros H. unfold assign_strided. by rewrite decide_True. Qed.

Lemma assign_strided_bad (start dst_cols : nat) (dst : list (list R))
    (src_cols : nat) (src : list (list R)) :
  ~ (src_cols = strided_count start dst_cols \/ src_cols = 1)%nat ->
  assign_strided start dst_cols dst src_cols src = Err RuntimeError.
Proof. intros H. unfold assign_strided. by rewrite decide_False. Qed.

(** One row after the two strided assignments, for an even width. *)
Lemma row_after_assignments (dim : nat) (p : R) :
  (0 < dim)%nat -> (dim mod 2 = 0)%nat ->
  let m := ((dim + 1) / 2)%nat in
  let srow := map sin (map (fun w => p * w) (div_term dim)) in
  let crow := map cos (map (fun w => p * w) (div_term dim)) in
  imap (fun j x =>
          if decide (1 <= j /\ (j - 1) mod 2 = 0)%nat
          then default x
                 (crow !! (if decide (m = strided_count 1 dim)
                           then ((j - 1) / 2)%nat else 0%nat))
          else x)
    (imap (fun j x =>
             if decide (0 <= j /\ (j - 0) mod 2 = 0)%nat
             then default x
                    (srow !! (if decide (m = strided_count 0 dim)
                              then ((j - 0) / 2)%nat else 0%nat))
             else x)
       (replicate dim 0))
  = sinusoid_row dim p.
Proof.
  intros Hpos Heven m srow crow. apply list_eq. intros j.
  unfold sinusoid_row.
  rewrite !list_lookup_imap, map_is_fmap, list_lookup_fmap.
  destruct (decide (j < dim)%nat) as [Hj|Hj].
  2:{ rewrite (proj1 (lookup_replicate_None dim 0 j)) by lia_div.
      by rewrite lookup_seq_ge by lia_div. }
  rewrite lookup_replicate_2, lookup_seq_lt by done. cbn [fmap option_fmap option_map].
  change (0 + j)%nat with j. f_equal. unfold strided_count, m.
  assert (Hc : (j / 2 < (dim + 1) / 2)%nat) by lia_div.
  destruct (decide (j mod 2 = 0)%nat) as [He|Ho].
  - rewrite (decide_False (P := (1 <= j /\ (j - 1) mod 2 = 0)%nat)) by lia_div.
    rewrite (decide_True (P := (0 <= j /\ (j - 0) mod 2 = 0)%nat)) by lia_div.
    rewrite decide_True by lia_div.
    unfold srow. rewrite !map_is_fmap, !list_lookup_fmap.
    rewrite Nat.sub_0_r, div_term_lookup by done. done.
  - rewrite (decide_True (P := (1 <= j /\ (j - 1) mod 2 = 0)%nat)) by lia_div.
    rewrite (decide_True (P := ((dim + 1) / 2 = (dim - 1 + 1) / 2)%nat))
      by lia_div.
    unfold crow. rewrite !map_is_fmap, !list_lookup_fmap.
    replace ((j - 1) / 2)%nat with (j / 2)%nat by lia_div.
    rewrite div_term_lookup by done. done.
Qed.

Lemma sinusoid_squares (dim : nat) (p : R) : forall n s,
  (s mod 2 = 0)%nat ->
  rsum (map (fun x => x * x)
          (map (fun j => if decide (j mod 2 = 0)%nat
                         then sin (p * frequency dim (j / 2)%nat)
                         else cos (p * frequency dim (j / 2)%nat))
             (seq s (2 * n))))
  = INR n.
Proof.
  induction n as [|n IH]; intros s Hs; [done|].
  replace (2 * S n)%nat with (S (S (2 * n))) by lia_div.
  cbn [seq map rsum foldr]. fold (rsum).
  change (foldr Rplus 0 ?l) with (rsum l).
  rewrite IH by lia_div.
  rewrite decide_True by done. rewrite decide_False by lia_div.
  replace (S s / 2)%nat with (s / 2)%nat by lia_div.
  rewrite S_INR.
  pose proof (sin2_cos2 (p * frequency dim (s / 2)%nat)) as H.
  unfold Rsqr in H. lra.
Qed.

End PositionalTable.

(** The sinusoidal table of [PositionalEncoding]: a width of zero raises
    [ZeroDivisionError]; an odd width of three or more raises
    [RuntimeError], since the cosine columns are one fewer than the
    frequencies; an even width gives the table whose row [p] holds
    [sin(p w_c)] and [cos(p w_c)] in columns [2c] and [2c + 1].  Every
    entry then lies in [[-1, 1]] and every row has squared norm
    [dim / 2]. *)
Theorem positional_encoding_table (dim max_len : nat) :
  (dim = 0 -> PositionalEncoding dim max_len = RaisedZeroDivision)
  /\ (dim mod 2 = 1 -> 3 <= dim ->
        PositionalEncoding dim max_len = Raised RuntimeError)
  /\ (dim mod 2 = 0 -> 0 < dim ->
        PositionalEncoding dim max_len
        = Built (map (fun p => sinusoid_row dim (INR p)) (seq 0 max_len))
        /\ forall p, p < max_len ->
             length (sinusoid_row dim (INR p)) = dim
             /\ Forall (fun x => -1 <= x <= 1)%R (sinusoid_row dim (INR p))
             /\ rsum (map (fun x => x * x)%R (sinusoid_row dim (INR p)))
                = (INR dim / 2)%R).
Proof.
  repeat split.
  - intros ->. done.
  - intros Hodd Hdim. unfold PositionalEncoding.
    rewrite decide_False by lia. cbn zeta. rewrite length_div_term.
    rewrite (assign_strided_ok 0)
      by (left; unfold strided_count; f_equal; lia).
    by rewrite (assign_strided_bad 1) by (unfold strided_count; lia_div).
  - unfold PositionalEncoding. rewrite decide_False by lia. cbn zeta.
    rewrite length_div_term.
    rewrite (assign_strided_ok 0)
      by (left; unfold strided_count; f_equal; lia).
    rewrite (assign_strided_ok 1) by (left; unfold strided_count; lia_div).
    f_equal. unfold angles, position.
    rewrite (replicate_map_seq (replicate dim 0%R) max_len 0).
    rewrite !map_map. rewrite zip_with_map_same.
    rewrite (zip_with_map_same _ _ _ (seq 0 max_len)).
    apply map_ext. intros p.
    rewrite <- (row_after_assignments dim (INR p)) by done. cbn zeta.
    by rewrite !map_map.
  - unfold sinusoid_row. by rewrite length_map, length_seq.
  - unfold sinusoid_row. apply Forall_forall.
    intros x (j & -> & _)%list_elem_of_fmap.
    destruct (decide _); [apply SIN_bound|apply COS_bound].
  - unfold sinusoid_row.
    replace dim with (2 * (dim / 2)) at 1 by lia_div.
    rewrite sinusoid_squares by done.
    replace dim with (2 * (dim / 2)) at 2 by lia_div.
    rewrite mult_INR. cbn [INR]. lra.
Qed.

(** Width five cannot be built; width two can. *)
Lemma positional_encoding_table_example :
  PositionalEncoding 5 10 = Raised RuntimeError
  /\ PositionalEncoding 2 3
     = Built (map (fun p => sinusoid_row 2 (INR p)) (seq 0 3)).
Proof.
  split.
  - apply (proj1 (proj2 (positional_encoding_table 5 10)));
      [reflexivity|lia].
  - apply (proj1 (proj2 (proj2 (positional_encoding_table 2 3))
                    eq_refl ltac:(lia))).
Defined.
